(** * Pen plotter: photo to G-code (raster strokes)

    A shallow embedding of [src/app.js] and the properties of its
    stroke-extraction pipeline.

    Conventions of the embedding.
    - A JavaScript number is modelled by a rational ([Q]), the value of
      the double; loop counters, pixel coordinates, canvas sizes and byte
      values, which the code only ever holds as integers, are [Z].
    - Where the click handler turns a product into a number of pixels
      (the target width and height, the line spacing) the result depends
      on the rounding of doubles: there every product and quotient is
      rounded to the nearest double ([Double.fl]) as the machine does.
      Elsewhere (angles, gray levels, millimetres, the preview) arithmetic
      is exact.  [NaN] and the infinities are not represented, except
      where the code tests for them ([x || d]).
    - Inside [rotatedSize] the angle is a real number and [Math.cos] and
      [Math.sin] take their real values: this is the size the pipeline is
      proved about.  [rotatedSizeDouble] is the same computation in
      doubles, from the values the host returns for [Math.cos] and
      [Math.sin]; the two can differ by one pixel (at a half turn, for
      one).
    - The browser's 2D canvas (scaling, rotation, read-back) is a function
      handed to the pipeline; it may throw.
    - Arrays filled with [push] are lists extended at the end. *)

From Stdlib Require Import ZArith QArith Qround Qabs Qpower Reals Lra Lia Psatz.
From Stdlib Require Qcanon.
From Stdlib Require Import Bool String Ascii DecimalString List Sorted.
Import ListNotations.

#[local] Open Scope Z_scope.

(** ** JavaScript numeric primitives *)

Module JS.

(** [Math.round]: the nearest integer, halves going up. *)
Definition Math_round (q : Q) : Z := Qfloor (q + (1 # 2)).

(** [Math.max] on integers. *)
Definition Math_max (a b : Z) : Z := Z.max a b.

(** Rounding toward zero, as the [%] operator needs it. *)
Definition trunc (q : Q) : Z :=
  if Qle_bool 0 q then Qfloor q else Qceiling q.

(** [a % b] on numbers: the remainder has the sign of the dividend. *)
Definition rem (a b : Q) : Q := (a - b * inject_Z (trunc (a / b)))%Q.

(** [a < b] on numbers. *)
Definition lt (a b : Q) : bool :=
  match (a ?= b)%Q with Lt => true | _ => false end.

(** A counting loop [for (let i = 0; i < n; i++)] visits these values. *)
Definition range (n : Z) : list Z := map Z.of_nat (seq 0 (Z.to_nat n)).

(** [Math.ceil], on a real. *)
Definition Math_ceil (r : R) : Z := 1 - up (- r).

End JS.

(** ** Double precision *)

Module Double.

(** [2 ^ k], for any integer [k]. *)
Definition pow2 (k : Z) : Q := Qpower 2 k.

(** The integer nearest to [y], the even one of two. *)
Definition roundEven (y : Q) : Z :=
  let f := Qfloor y in
  match (y - inject_Z f ?= 1 # 2)%Q with
  | Lt => f
  | Gt => f + 1
  | Eq => if Z.even f then f else f + 1
  end.

(** The binary exponent of a positive [y]: the [e] with
    [2 ^ e <= y < 2 ^ (e + 1)].  It is one of the first two candidates. *)
Definition exponent (y : Q) : Z :=
  let e0 := Z.log2 (Qnum y) - Z.log2 (Zpos (Qden y)) in
  if Qle_bool (pow2 e0) y then e0
  else if Qle_bool (pow2 (e0 - 1)) y then e0 - 1
  else -1022.

(** The unit in the last place of a double of the size of [y]: 52 binary
    places below its exponent, and [2 ^ -1074] for the subnormal ones. *)
Definition ulp (y : Q) : Q := pow2 (Z.max (exponent y) (-1022) - 52).

(** The double nearest to [x], the one of even significand of two: what
    [*], [/] and [+] of doubles give for the exact result [x].  Results
    beyond the largest double ([Infinity] in JavaScript) are not
    represented. *)
Definition fl (x : Q) : Q :=
  let y := Qred (Qabs x) in
  if Qeq_bool y 0 then 0%Q
  else
    let u := ulp y in
    let m := inject_Z (roundEven (y / u)) in
    Qred (if Qle_bool 0 x then m * u else - (m * u))%Q.

(** The doubles: a whole number of magnitude up to [2 ^ 53] times a power
    of two not below [2 ^ -1074].  (There is no largest one here.) *)
Definition isDouble (q : Q) : Prop :=
  exists m e : Z,
    Z.abs m <= 2 ^ 53 /\ -1074 <= e /\ (q == inject_Z m * pow2 e)%Q.

(** [d] is a double nearest to [x]. *)
Definition nearestDouble (x d : Q) : Prop :=
  isDouble d
  /\ forall d' : Q, isDouble d' -> (Qabs (d - x) <= Qabs (d' - x))%Q.

(** [Math.PI]. *)
Definition Math_PI : Q := 884279719003555 # 281474976710656.

End Double.

(** ** Data model *)

(** A point [{x, y}] of the rotated canvas, in pixels. *)
Record Point : Type := mkPoint { pt_x : Z; pt_y : Z }.

(** The two-element array [[run[0], run[run.length-1]]] pushed by the
    scanner. *)
Definition Segment : Type := (Point * Point)%type.

Definition seg_start (s : Segment) : Point := fst s.
Definition seg_end (s : Segment) : Point := snd s.

(** ** Run scanner ([extractStrokesFromImage], the raster loop) *)

Section Scanner.

(** The read-back canvas: [imgd.data], its size, and the threshold. *)
Variable data : list Z.
Variables rotW rotH : Z.
Variable threshold : Q.

(** [data[i]]; [None] is JavaScript's [undefined]. *)
Definition byteAt (i : Z) : option Z :=
  if i <? 0 then None else nth_error data (Z.to_nat i).

(** [pixelGray(x, y)]; [None] is [NaN], which arithmetic on [undefined]
    gives. *)
Definition pixelGray (x y : Z) : option Q :=
  if (x <? 0) || (x >=? rotW) || (y <? 0) || (y >=? rotH) then Some (255 # 1)%Q
  else
    let idx := (y * rotW + x) * 4 in
    match byteAt idx, byteAt (idx + 1), byteAt (idx + 2) with
    | Some r, Some g, Some b =>
        Some ((2126 # 10000) * inject_Z r + (7152 # 10000) * inject_Z g
              + (722 # 10000) * inject_Z b)%Q
    | _, _, _ => None
    end.

(** [const isDark = g < threshold]; a comparison with [NaN] is false. *)
Definition isDark (x y : Z) : bool :=
  match pixelGray x y with
  | Some g => JS.lt g threshold
  | None => false
  end.

(** The variables of the row loop: [inRun], [run] and the shared
    [strokes]. *)
Record RowState : Type := mkRowState {
  inRun : bool;
  run : list Point;
  strokes : list Segment
}.

(** [strokes.push([run[0], run[run.length-1]])], guarded by
    [run.length >= 1]. *)
Definition pushRun (rn : list Point) (sk : list Segment) : list Segment :=
  match rn with
  | [] => sk
  | p0 :: _ => sk ++ [(p0, last rn p0)]
  end.

(** The body of the column loop at column [x] of row [y]. *)
Definition scanPixel (y : Z) (st : RowState) (x : Z) : RowState :=
  if isDark x y then
    if negb (inRun st)
    then mkRowState true [mkPoint x y] (strokes st)
    else mkRowState (inRun st) (run st ++ [mkPoint x y]) (strokes st)
  else
    if inRun st
    then mkRowState false [] (pushRun (run st) (strokes st))
    else st.

(** The columns [x = 0; x < n; x++]. *)
Definition columns (n : Z) : list Z := JS.range n.

(** One iteration of the row loop: scan row [y], then close a run that is
    still open at the end of the row. *)
Definition scanRow (y : Z) (sk : list Segment) : list Segment :=
  let st := fold_left (scanPixel y) (columns rotW) (mkRowState false [] sk) in
  if inRun st then pushRun (run st) (strokes st) else strokes st.

(** [for (let y = 0; y < rotH; y += lineSpacingPx)].  [None] when the fuel
    runs out before the loop condition fails. *)
Fixpoint scanRows (lineSpacingPx : Z) (fuel : nat) (y : Z) (sk : list Segment)
  : option (list Segment) :=
  if y <? rotH then
    match fuel with
    | O => None
    | S fuel' => scanRows lineSpacingPx fuel' (y + lineSpacingPx) (scanRow y sk)
    end
  else Some sk.

(** The whole raster loop, from [const strokes = []].  With a spacing of
    at least one pixel [rotH] iterations are enough; [None] stands for
    the loop that never ends (a spacing of zero or less on a canvas with
    rows). *)
Definition scanCanvas (lineSpacingPx : Z) : option (list Segment) :=
  scanRows lineSpacingPx (Z.to_nat rotH) 0 [].

End Scanner.

(** ** Rotator: the size of the rotated canvas *)

(** [rotW] and [rotH] of [extractStrokesFromImage]: the bounding box of a
    [targetW] by [targetH] rectangle turned by [angleDeg] degrees. *)
Definition rotatedSize (targetW targetH : Z) (angleDeg : Q) : Z * Z :=
  let angleRad := (Q2R angleDeg * PI / 180)%R in
  let cos := Rabs (cos angleRad) in
  let sin := Rabs (sin angleRad) in
  (JS.Math_ceil (IZR targetW * cos + IZR targetH * sin),
   JS.Math_ceil (IZR targetW * sin + IZR targetH * cos)).

(** [rotW] and [rotH] as the code computes them: [angleDeg * Math.PI / 180],
    the two products and their sum are doubles, and [Math_cos] and
    [Math_sin] are the host's two functions on doubles. *)
Definition rotatedSizeDouble (Math_cos Math_sin : Q -> Q)
    (targetW targetH : Z) (angleDeg : Q) : Z * Z :=
  let angleRad := Double.fl (Double.fl (angleDeg * Double.Math_PI) / 180) in
  let cos := Qabs (Math_cos angleRad) in
  let sin := Qabs (Math_sin angleRad) in
  (Qceiling (Double.fl (Double.fl (inject_Z targetW * cos)
                        + Double.fl (inject_Z targetH * sin))),
   Qceiling (Double.fl (Double.fl (inject_Z targetW * sin)
                        + Double.fl (inject_Z targetH * cos)))).

(** ** The host canvas and the outcomes of a computation *)

(** The loaded [Image]: its [src] and natural size. *)
Record Image : Type := mkImage {
  src : string;
  naturalWidth : Z;
  naturalHeight : Z
}.

(** What the browser does between [document.createElement('canvas')] and
    [rctx.getImageData(0, 0, rotW, rotH)]: the image scaled to
    [targetW] by [targetH], drawn turned by the angle and centred on a white
    [rotW] by [rotH] canvas, read back as RGBA bytes.  [None] when one of
    the canvas calls throws. *)
Definition Canvas : Type :=
  Image -> Z -> Z -> Q -> Z -> Z -> option (list Z).

(** A computation returns, throws, or never ends. *)
Inductive Comp (A : Type) : Type :=
| Ret (a : A)
| Throw
| Diverge.

Arguments Ret {A} a.
Arguments Throw {A}.
Arguments Diverge {A}.

Definition bind {A B : Type} (c : Comp A) (k : A -> Comp B) : Comp B :=
  match c with
  | Ret a => k a
  | Throw => Throw
  | Diverge => Diverge
  end.

Notation "x <- c ;; k" := (bind c (fun x => k))
  (at level 61, c at next level, right associativity).

(** A host call that may throw. *)
Definition orThrow {A : Type} (o : option A) : Comp A :=
  match o with Some a => Ret a | None => Throw end.

(** A loop that may never end. *)
Definition orDiverge {A : Type} (o : option A) : Comp A :=
  match o with Some a => Ret a | None => Diverge end.

(** ** [extractStrokesFromImage] *)

(** A stroke in pixels: an array of points. *)
Definition PixelStroke : Type := list Point.

(** [strokes.map(s => [{x: s[0].x + 0.0, y: s[0].y + 0.0},
                       {x: s[1].x + 0.0, y: s[1].y + 0.0}])]. *)
Definition simpleStrokes (sk : list Segment) : list PixelStroke :=
  map (fun s => [ mkPoint (pt_x (fst s) + 0) (pt_y (fst s) + 0);
                  mkPoint (pt_x (snd s) + 0) (pt_y (snd s) + 0) ]) sk.

Definition extractStrokesFromImage (canvas : Canvas) (image : Image)
    (targetW targetH : Z) (angleDeg : Q) (lineSpacingPx : Z) (threshold : Q)
  : Comp (list PixelStroke) :=
  let '(rotW, rotH) := rotatedSize targetW targetH angleDeg in
  data <- orThrow (canvas image targetW targetH angleDeg rotW rotH) ;;
  sk <- orDiverge (scanCanvas data rotW rotH threshold lineSpacingPx) ;;
  Ret (simpleStrokes sk).

(** ** Pass orchestrator (the [processBtn] click handler) *)

(** A point [{x, y}] in millimetres. *)
Record PointMM : Type := mkPointMM { mm_x : Q; mm_y : Q }.

(** A stroke of the plot job: a polyline in millimetres. *)
Definition Stroke : Type := list PointMM.

(** An entry [{angle, strokes}] of [strokesByPass]. *)
Record Pass : Type := mkPass {
  pass_angle : Q;
  pass_strokes : list PixelStroke
}.

(** The numbers read from the form.  [widthMM], [pxPerMM], [lineSpacingMM]
    and [threshold] are taken to hold numbers (the values of the doubles
    that [parseFloat] and [parseInt] return); for the two fields the code
    guards with [||], [None] is the [NaN] of an unreadable field. *)
Record Inputs : Type := mkInputs {
  widthMM : Q;
  pxPerMM : Q;
  lineSpacingMM : Q;
  threshold_in : Z;
  angle_in : option Q;
  passes_in : option Z
}.

(** [lastCanvasSize]. *)
Record CanvasSize : Type := mkCanvasSize {
  cs_w : Z;
  cs_h : Z;
  cs_mmPerPx : Q;
  cs_angles : list Q
}.

(** The variables shared by the handlers: [img], [lastStrokes] ([None] is
    [null]) and [lastCanvasSize]. *)
Record Globals : Type := mkGlobals {
  img : Image;
  lastStrokes : option (list Stroke);
  lastCanvasSize : CanvasSize
}.

(** How a click ends: the handler ran to its end, its [catch] branch
    reported an error with [alert], or it never returned. *)
Inductive Outcome : Type :=
| Finished (g : Globals)
| Alerted (g : Globals)
| Hangs.

(** [parseFloat(angleInput.value) || 0]. *)
Definition angleDeg_of (inp : Inputs) : Q :=
  match angle_in inp with
  | Some a => if Qeq_bool a 0 then 0%Q else a
  | None => 0%Q
  end.

(** [Math.max(1, parseInt(passesInput.value, 10) || 1)]. *)
Definition passes_of (inp : Inputs) : Z :=
  JS.Math_max 1 (match passes_in inp with
                 | Some n => if n =? 0 then 1 else n
                 | None => 1
                 end).

(** [Math.max(1, Math.round(widthMM * pxPerMM))]; the product is a
    double. *)
Definition targetPxWidth (inp : Inputs) : Z :=
  JS.Math_max 1 (JS.Math_round (Double.fl (widthMM inp * pxPerMM inp))).

(** [targetPxWidth / img.naturalWidth], a double. *)
Definition scale (inp : Inputs) (image : Image) : Q :=
  Double.fl (inject_Z (targetPxWidth inp) / inject_Z (naturalWidth image)).

(** [Math.round(img.naturalHeight * scale)]; the product is a double. *)
Definition targetPxHeight (inp : Inputs) (image : Image) : Z :=
  JS.Math_round (Double.fl (inject_Z (naturalHeight image) * scale inp image)).

(** [(angleDeg + (p * 180 / passes)) % 360]. *)
Definition passAngle (angleDeg : Q) (passes p : Z) : Q :=
  JS.rem (angleDeg + (inject_Z p * 180 / inject_Z passes)) 360.

(** The loop that fills [angles]. *)
Definition passAngles (angleDeg : Q) (passes : Z) : list Q :=
  fold_left (fun angles p => angles ++ [passAngle angleDeg passes p])
            (JS.range passes) [].

(** [Math.max(1, Math.round(lineSpacingMM * pxPerMM))]; the product is a
    double. *)
Definition lineSpacingPx_of (inp : Inputs) : Z :=
  JS.Math_max 1 (JS.Math_round (Double.fl (lineSpacingMM inp * pxPerMM inp))).

(** [1 / pxPerMM]. *)
Definition mmPerPx_of (inp : Inputs) : Q := (1 / pxPerMM inp)%Q.

(** The loop over [angles] that fills [strokesByPass]. *)
Fixpoint extractPasses (canvas : Canvas) (image : Image) (targetW targetH : Z)
    (lineSpacingPx : Z) (threshold : Q) (angles : list Q)
    (strokesByPass : list Pass) : Comp (list Pass) :=
  match angles with
  | [] => Ret strokesByPass
  | ang :: rest =>
      sk <- extractStrokesFromImage canvas image targetW targetH ang
                                    lineSpacingPx threshold ;;
      extractPasses canvas image targetW targetH lineSpacingPx threshold rest
                    (strokesByPass ++ [mkPass ang sk])
  end.

(** [st.map(pt => ({x: pt.x * mmPerPx, y: pt.y * mmPerPx}))]. *)
Definition toMM (mmPerPx : Q) (st : PixelStroke) : Stroke :=
  map (fun pt => mkPointMM (inject_Z (pt_x pt) * mmPerPx)
                           (inject_Z (pt_y pt) * mmPerPx)) st.

(** The two nested [forEach] that fill [combinedStrokes]. *)
Definition combineStrokes (mmPerPx : Q) (strokesByPass : list Pass)
  : list Stroke :=
  fold_left
    (fun combined pass =>
       fold_left (fun combined st => combined ++ [toMM mmPerPx st])
                 (pass_strokes pass) combined)
    strokesByPass [].

(** The click handler of [processBtn], from the globals before the click to
    how the click ends.  The preview and the form updates are left out. *)
Definition processClick (canvas : Canvas) (inp : Inputs) (g : Globals)
  : Outcome :=
  if (src (img g) =? "")%string then Finished g
  else
    let threshold := inject_Z (threshold_in inp) in
    let angleDeg := angleDeg_of inp in
    let passes := passes_of inp in
    let targetW := targetPxWidth inp in
    let targetH := targetPxHeight inp (img g) in
    let angles := passAngles angleDeg passes in
    let mmPerPx := mmPerPx_of inp in
    let lineSpacingPx := lineSpacingPx_of inp in
    match extractPasses canvas (img g) targetW targetH lineSpacingPx
                        threshold angles [] with
    | Ret strokesByPass =>
        Finished (mkGlobals (img g)
                            (Some (combineStrokes mmPerPx strokesByPass))
                            (mkCanvasSize targetW targetH mmPerPx angles))
    | Throw => Alerted g
    | Diverge => Hangs
    end.


(** ** Motion-code emitter (the [downloadGcode] click handler) *)

#[local] Open Scope string_scope.

(** An integer in a template literal. *)
Definition intToString (z : Z) : string := NilZero.string_of_int (Z.to_int z).

(** The decimal digit [d]. *)
Definition digitChar (d : Z) : ascii := ascii_of_nat (48 + Z.to_nat d).

(** The last [f] decimal digits of [m], zeros included. *)
Fixpoint fracDigits (f : nat) (m : Z) : string :=
  match f with
  | O => ""
  | S f' => fracDigits f' (m / 10) ++ String (digitChar (m mod 10)) ""
  end.

Section Emitter.

(** [Number.prototype.toString], which a template literal applies to
    [feedTravel] and [feedDraw]. *)
Variable numberToString : Q -> string.

(** [x.toFixed(f)]: the sign, then the integer [n] nearest to [x * 10^f]
    (the larger one of two) written with [f] digits after the point.  From
    [10^21] on, [toFixed] gives up and answers as [toString] does. *)
Definition toFixed (x : Q) (f : nat) : string :=
  if Qle_bool (inject_Z (10 ^ 21)) (Qabs x) then numberToString x
  else
    let s := if JS.lt x 0 then "-" else "" in
    let n := Qfloor (Qabs x * inject_Z (10 ^ Z.of_nat f) + (1 # 2)) in
    let whole := intToString (n / 10 ^ Z.of_nat f) in
    match f with
    | O => s ++ whole
    | S _ => s ++ whole ++ "." ++ fracDigits f (n mod 10 ^ Z.of_nat f)
    end.

(** The motion parameters read from the form. *)
Record Motion : Type := mkMotion {
  penDownZ : Q;
  penUpZ : Q;
  feedTravel : Q;
  feedDraw : Q;
  absolute : bool
}.

(** The [header] array. *)
Definition header (m : Motion) : list string :=
  [ "; Generated by Pen Plotter Photo → G-code";
    "G21 ; units mm";
    if absolute m then "G90 ; absolute positioning"
    else "G91 ; relative positioning";
    "G0 Z" ++ toFixed (penUpZ m) 3 ++ " ; pen up";
    "F" ++ numberToString (feedTravel m);
    "" ].

(** The line of one drawing move. *)
Definition drawLine (p : PointMM) : string :=
  "G1 X" ++ toFixed (mm_x p) 3 ++ " Y" ++ toFixed (mm_y p) 3.

(** [lines.push(s)]. *)
Definition push (lines : list string) (s : string) : list string :=
  (lines ++ [s])%list.

(** The body of [lastStrokes.forEach((stroke, idx) => ...)], which pushes
    onto [lines]. *)
Definition emitStroke (m : Motion) (lines : list string) (stroke : Stroke)
    (idx : Z) : list string :=
  match stroke with
  | [] => lines
  | p0 :: rest =>
      let lines := push lines ("; stroke " ++ intToString (idx + 1)) in
      let lines := push lines ("G0 X" ++ toFixed (mm_x p0) 3 ++ " Y"
                               ++ toFixed (mm_y p0) 3 ++ " ; travel") in
      let lines := push lines ("G0 Z" ++ toFixed (penDownZ m) 3
                               ++ " ; pen down") in
      let lines := push lines ("F" ++ numberToString (feedDraw m)) in
      let lines := fold_left (fun lines p => push lines (drawLine p)) rest lines in
      let lines := push lines ("G0 Z" ++ toFixed (penUpZ m) 3 ++ " ; pen up") in
      push lines ("F" ++ numberToString (feedTravel m))
  end.

(** [forEach] over the strokes, the index counted along. *)
Fixpoint emitStrokes (m : Motion) (sts : list Stroke) (idx : Z)
    (lines : list string) : list string :=
  match sts with
  | [] => lines
  | stroke :: rest => emitStrokes m rest (idx + 1) (emitStroke m lines stroke idx)
  end.

(** The [lines] of the file, or [None] when there is no job to write
    ([if (!lastStrokes) return]). *)
Definition gcodeLines (m : Motion) (g : Globals) : option (list string) :=
  match lastStrokes g with
  | None => None
  | Some sts =>
      let lines := emitStrokes m sts 0 (header m) in
      let lines := push lines "" in
      Some (push lines "; EOF")
  end.

(** [lines.join('\n')], the text of the file. *)
Definition gcodeText (m : Motion) (g : Globals) : option string :=
  option_map (String.concat (String (ascii_of_nat 10) "")) (gcodeLines m g).

(** The lines one stroke adds to the file: none for a stroke without
    points; else a comment, the travel move, pen down, the drawing feed, a
    drawing move per further point, pen up and the travel feed. *)
Definition strokeBlock (m : Motion) (idx : Z) (stroke : Stroke) : list string :=
  match stroke with
  | [] => []
  | p0 :: rest =>
      app [ "; stroke " ++ intToString (idx + 1);
            "G0 X" ++ toFixed (mm_x p0) 3 ++ " Y" ++ toFixed (mm_y p0) 3
                   ++ " ; travel";
            "G0 Z" ++ toFixed (penDownZ m) 3 ++ " ; pen down";
            "F" ++ numberToString (feedDraw m) ]
          (app (map drawLine rest)
               [ "G0 Z" ++ toFixed (penUpZ m) 3 ++ " ; pen up";
                 "F" ++ numberToString (feedTravel m) ])
  end.

(** The blocks of the strokes, numbered from [idx]. *)
Fixpoint strokeBlocks (m : Motion) (idx : Z) (sts : list Stroke) : list string :=
  match sts with
  | [] => []
  | stroke :: rest =>
      app (strokeBlock m idx stroke) (strokeBlocks m (idx + 1) rest)
  end.

End Emitter.

#[local] Close Scope string_scope.

(** ** Vocabulary of the properties *)

(** The segment of row [y] from column [a] to column [b]. *)
Definition segAt (y a b : Z) : Segment := (mkPoint a y, mkPoint b y).

Section Runs.

(** Which columns of the row under scan are dark. *)
Variable dark : Z -> bool.

(** Every column from [a] to [b] is dark. *)
Definition DarkRun (a b : Z) : Prop :=
  forall x, a <= x <= b -> dark x = true.

(** Column [a] has no dark pixel to its left. *)
Definition LeftEdge (a : Z) : Prop := a = 0 \/ dark (a - 1) = false.

(** Column [b] of a row of [w] columns has no dark pixel to its right. *)
Definition RightEdge (w b : Z) : Prop := b = w - 1 \/ dark (b + 1) = false.

(** Columns [a..b] are a maximal run of dark pixels of a row of [w]
    columns. *)
Definition MaximalRun (w a b : Z) : Prop :=
  0 <= a /\ a <= b /\ b < w /\ DarkRun a b /\ LeftEdge a /\ RightEdge w b.

(** A maximal run that the scan has already left behind when it reaches
    column [n]. *)
Definition ClosedRun (n a b : Z) : Prop :=
  0 <= a /\ a <= b /\ b + 1 < n /\ DarkRun a b /\ LeftEdge a
  /\ dark (b + 1) = false.

(** A dark pixel with no dark neighbour in its row. *)
Definition IsolatedDark (w x : Z) : Prop := MaximalRun w x x.

End Runs.

(** Row [y] is one the raster loop visits: a multiple of the spacing below
    [rotH]. *)
Definition ScannedRow (lineSpacingPx rotH y : Z) : Prop :=
  exists i, 0 <= i /\ y = i * lineSpacingPx /\ y < rotH.

(** Within a row: [s] ends before [t] starts. *)
Definition endsBefore (s t : Segment) : Prop :=
  pt_x (snd s) < pt_x (fst t).

(** Raster order of segments: by row, then by start column. *)
Definition segBefore (s t : Segment) : Prop :=
  pt_y (fst s) < pt_y (fst t)
  \/ (pt_y (fst s) = pt_y (fst t) /\ pt_x (fst s) < pt_x (fst t)).

(** Raster order of pixel strokes, read off their first points. *)
Definition strokeBefore (s t : PixelStroke) : Prop :=
  match s, t with
  | p :: _, q :: _ =>
      pt_y p < pt_y q \/ (pt_y p = pt_y q /\ pt_x p < pt_x q)
  | _, _ => False
  end.

(** What the row loop maintains after the columns below [n], started on an
    empty [strokes]: the segments pushed are the runs left behind, in
    order, and an open run reaches from its left edge to column [n - 1]. *)
Definition RowInv (dark : Z -> bool) (y n : Z) (st : RowState) : Prop :=
  (forall s, In s (strokes st) <->
             exists a b, s = segAt y a b /\ ClosedRun dark n a b)
  /\ StronglySorted endsBefore (strokes st)
  /\ (if inRun st
      then exists a tl, 0 <= a < n /\ DarkRun dark a (n - 1)
                        /\ LeftEdge dark a
                        /\ run st = mkPoint a y :: tl
                        /\ last (run st) (mkPoint a y) = mkPoint (n - 1) y
      else n = 0 \/ dark (n - 1) = false).

(** Raster order of strokes in millimetres, read off their first points. *)
Definition strokeBeforeMM (s t : Stroke) : Prop :=
  match s, t with
  | p :: _, q :: _ =>
      (mm_y p < mm_y q)%Q \/ ((mm_y p == mm_y q)%Q /\ (mm_x p < mm_x q)%Q)
  | _, _ => False
  end.


(** ** Sample inputs *)

(** The RGBA bytes of a black and of a white pixel. *)
Definition blackPixel : list Z := [0; 0; 0; 255].
Definition whitePixel : list Z := [255; 255; 255; 255].

(** A canvas of one row of twelve pixels, dark at columns 2, 3, 4, 9 and
    10. *)
Definition sampleRow : list Z :=
  flat_map (fun d : bool => if d then blackPixel else whitePixel)
    [false; false; true; true; true; false; false; false; false; true; true;
     false].

(** A canvas of one row of four pixels: a lone dark pixel at column 0 and
    a run at columns 2 and 3. *)
Definition sampleLoneRow : list Z :=
  flat_map (fun d : bool => if d then blackPixel else whitePixel)
    [true; false; true; true].

(** A host canvas on which every image comes out black. *)
Definition blackCanvas : Canvas :=
  fun _ _ _ _ rotW rotH =>
    Some (flat_map (fun _ => blackPixel) (JS.range (rotW * rotH))).

(** A loaded ten by ten image. *)
Definition sampleImage : Image := mkImage "data:image/png;base64" 10 10.

(** The globals after that image has loaded and before any click. *)
Definition sampleGlobals : Globals :=
  mkGlobals sampleImage None (mkCanvasSize 0 0 0 []).

(** Ten millimetres wide at one pixel per millimetre, a row every two
    millimetres, threshold 128, one pass at angle 0. *)
Definition sampleInputs : Inputs :=
  mkInputs (10 # 1) (1 # 1) (2 # 1) 128 (Some (0 # 1)) (Some 1).

(** The sample inputs with a base angle of minus ninety degrees. *)
Definition negativeAngleInputs : Inputs :=
  mkInputs (10 # 1) (1 # 1) (2 # 1) 128 (Some (-90 # 1)) (Some 1).


(** The motion parameters of the sample file. *)
Definition sampleMotion : Motion :=
  mkMotion (0 # 1) (5 # 1) (3000 # 1) (1000 # 1) true.

(** A loaded image ten pixels wide and fifteen high, and a target width of
    forty-one millimetres at one pixel per millimetre. *)
Definition portraitImage : Image := mkImage "data:image/png;base64" 10 15.

Definition portraitInputs : Inputs :=
  mkInputs (41 # 1) (1 # 1) (2 # 1) 128 (Some (0 # 1)) (Some 1).

(** A target width of 1.15 millimetres, as the double that [parseFloat]
    returns for it, at ten pixels per millimetre. *)
Definition narrowInputs : Inputs :=
  mkInputs (2589569785738035 # 2251799813685248) (10 # 1) (2 # 1) 128
           (Some (0 # 1)) (Some 1).

(** A host's [Math.cos] and [Math.sin], as far as the examples go: the
    doubles that engines return at [Math.PI] and at [Math.PI / 2], and
    at every other argument the values at [0]. *)
Definition sampleCos (x : Q) : Q :=
  if Qeq_bool x Double.Math_PI then (-1 # 1)%Q
  else if Qeq_bool x (Double.Math_PI / 2)
       then (4967757600021511 # 81129638414606681695789005144064)%Q
       else 1%Q.

Definition sampleSin (x : Q) : Q :=
  if Qeq_bool x Double.Math_PI
  then (4967757600021511 # 40564819207303340847894502572032)%Q
  else if Qeq_bool x (Double.Math_PI / 2) then 1%Q else 0%Q.

(** ** Further vocabulary: the scanner on a whole canvas *)

(** Pixel [(x, y)] lies on segment [seg]. *)
Definition onSegment (seg : Segment) (x y : Z) : Prop :=
  pt_y (seg_start seg) = y /\ pt_x (seg_start seg) <= x <= pt_x (seg_end seg).

(** Within a row: at least one pixel lies between the end of [s] and the
    start of [t]. *)
Definition gapBefore (s t : Segment) : Prop :=
  pt_x (snd s) + 1 < pt_x (fst t).

(** What [getImageData] returns for a [rotW] by [rotH] canvas: four bytes
    per pixel, each from 0 to 255. *)
Definition RGBABuffer (data : list Z) (rotW rotH : Z) : Prop :=
  Z.of_nat (length data) = 4 * rotW * rotH
  /\ Forall (fun b => 0 <= b <= 255) data.

(** ** Rotator: where the scaled image is drawn *)

(** The point of the rotated canvas on which
    [rctx.translate(rotW/2, rotH/2); rctx.rotate(angleRad);
     rctx.drawImage(srcCanvas, -targetW/2, -targetH/2)]
    puts the point [(i, j)] of the scaled image. *)
Definition placeOnCanvas (targetW targetH : Z) (angleDeg : Q) (i j : R)
  : R * R :=
  let angleRad := (Q2R angleDeg * PI / 180)%R in
  let rotW := IZR (fst (rotatedSize targetW targetH angleDeg)) in
  let rotH := IZR (snd (rotatedSize targetW targetH angleDeg)) in
  let u := (i + - IZR targetW / 2)%R in
  let v := (j + - IZR targetH / 2)%R in
  (rotW / 2 + (u * cos angleRad - v * sin angleRad),
   rotH / 2 + (u * sin angleRad + v * cos angleRad))%R.

(** ** Preview renderer ([renderPreview]) *)

From Stdlib Require Import Qminmax.

(** A quotient that may be [Infinity]. *)
Inductive ExtNum : Type :=
| Finite (q : Q)
| PlusInfinity.

(** [a / b] for a positive number [a] and an integer [b]. *)
Definition divPositive (a : Q) (b : Z) : ExtNum :=
  if b =? 0 then PlusInfinity else Finite (a / inject_Z b).

(** [Math.min(a, b, c)] with [c] finite. *)
Definition Math_min3 (a b : ExtNum) (c : Q) : Q :=
  let m := match a with
           | Finite qa => Qmin qa c
           | PlusInfinity => c
           end in
  match b with
  | Finite qb => Qmin qb m
  | PlusInfinity => m
  end.

(** [Math.min(1200 / pixelWidth, 800 / pixelHeight, 1.0) || 1.0]. *)
Definition previewScale (pixelWidth pixelHeight : Z) : Q :=
  let m := Math_min3 (divPositive 1200 pixelWidth)
                     (divPositive 800 pixelHeight) 1 in
  if Qeq_bool m 0 then 1%Q else m.

(** The calls on the drawing context that trace the strokes. *)
Inductive DrawCmd : Type :=
| BeginPath
| MoveTo (x y : Q)
| LineTo (x y : Q)
| StrokePath.

(** The body of [strokes.forEach(stroke => ...)] of the preview, which
    appends to the calls made so far. *)
Definition previewStroke (mmPerPx scale : Q) (cmds : list DrawCmd)
    (stroke : Stroke) : list DrawCmd :=
  match stroke with
  | [] => cmds
  | [_] => cmds
  | p0 :: rest =>
      let cmds := cmds ++ [BeginPath] in
      let cmds := cmds ++ [MoveTo (mm_x p0 / mmPerPx * scale)
                                  (mm_y p0 / mmPerPx * scale)] in
      let cmds := fold_left
                    (fun cmds p => cmds ++ [LineTo (mm_x p / mmPerPx * scale)
                                                   (mm_y p / mmPerPx * scale)])
                    rest cmds in
      cmds ++ [StrokePath]
  end.

(** What [renderPreview] leaves on the preview canvas: its size, the line
    width and the calls that trace the strokes. *)
Record Preview : Type := mkPreview {
  pv_width : Z;
  pv_height : Z;
  pv_lineWidth : Q;
  pv_path : list DrawCmd
}.

Definition renderPreview (sts : list Stroke) (pixelWidth pixelHeight : Z)
    (mmPerPx : Q) : Preview :=
  let scale := previewScale pixelWidth pixelHeight in
  let width := JS.Math_round (inject_Z pixelWidth * scale) in
  let height := JS.Math_round (inject_Z pixelHeight * scale) in
  mkPreview width height (Qmax (1 # 2) (1 * scale))
            (fold_left (previewStroke mmPerPx scale) sts []).

(** The preview a finished click renders:
    [renderPreview(lastStrokes, targetPxWidth, targetPxHeight, mmPerPx)]. *)
Definition previewOfClick (inp : Inputs) (g' : Globals) : Preview :=
  renderPreview (match lastStrokes g' with Some sts => sts | None => [] end)
                (cs_w (lastCanvasSize g')) (cs_h (lastCanvasSize g'))
                (cs_mmPerPx (lastCanvasSize g')).

(** The calls that trace one two-point stroke, from pixel [(x1, y)] to
    pixel [(x2, y)], at a scale. *)
Definition tracesSegment (scale : Q) (x1 x2 y : Z) (cmds : list DrawCmd)
  : Prop :=
  exists mx my lx ly,
    cmds = [BeginPath; MoveTo mx my; LineTo lx ly; StrokePath]
    /\ (mx == inject_Z x1 * scale)%Q /\ (my == inject_Z y * scale)%Q
    /\ (lx == inject_Z x2 * scale)%Q /\ (ly == inject_Z y * scale)%Q.

(** ** Further vocabulary: the file *)

(** The lines a stroke adds to the file. *)
Definition strokeLineCount (stroke : Stroke) : Z :=
  match stroke with
  | [] => 0
  | _ :: _ => 5 + Z.of_nat (length stroke)
  end.

(** The sum of a list of integers. *)
Definition sumZ (l : list Z) : Z := fold_right Z.add 0 l.

(** A host canvas on which every image comes out white. *)
Definition whiteCanvas : Canvas :=
  fun _ _ _ _ rotW rotH =>
    Some (flat_map (fun _ => whitePixel) (JS.range (rotW * rotH))).

(** The rows the raster loop visits, in the order of the visits: the
    multiples of the spacing below [rotH]. *)
Definition scannedRows (lineSpacingPx rotH : Z) : list Z :=
  map (fun i => i * lineSpacingPx)
      (JS.range ((rotH + lineSpacingPx - 1) / lineSpacingPx)).

(** * Properties *)

(** ** Double precision: rounding to the nearest double *)

(** Powers of two. *)
Lemma pow2_pos (k : Z) : (0 < Double.pow2 k)%Q.
Proof. unfold Double.pow2. apply Qpower_0_lt. reflexivity. Qed.

Lemma pow2_plus (a b : Z) :
  (Double.pow2 (a + b) == Double.pow2 a * Double.pow2 b)%Q.
Proof. unfold Double.pow2. apply Qpower_plus. discriminate. Qed.

Lemma pow2_inject (k : Z) : 0 <= k -> (Double.pow2 k == inject_Z (2 ^ k))%Q.
Proof.
  intros Hk. unfold Double.pow2. rewrite Zpower_Qpower by assumption.
  reflexivity.
Qed.

Lemma pow2_le (a b : Z) : a <= b -> (Double.pow2 a <= Double.pow2 b)%Q.
Proof.
  intros H. unfold Double.pow2.
  apply Qpower_le_compat_l; [assumption|discriminate].
Qed.

Lemma pow2_lt_inv (a b : Z) : (Double.pow2 a < Double.pow2 b)%Q -> a < b.
Proof. intros H. eapply Qpower_lt_compat_l_inv; [exact H|reflexivity]. Qed.


Lemma roundEven_spec (y : Q) :
  (Qabs (inject_Z (Double.roundEven y) - y) <= 1 # 2)%Q.
Proof.
  unfold Double.roundEven.
  pose proof (Qfloor_le y) as Hlo. pose proof (Qlt_floor y) as Hhi.
  rewrite inject_Z_plus in Hhi. change (inject_Z 1) with 1%Q in Hhi.
  apply Qabs_Qle_condition.
  destruct (Qcompare_spec (y - inject_Z (Qfloor y)) (1 # 2)) as [E|E|E];
    [destruct (Z.even (Qfloor y))| |];
    rewrite ?inject_Z_plus; change (inject_Z 1) with 1%Q; split; lra.
Qed.


Lemma roundEven_tie (y : Q) :
  (y - inject_Z (Qfloor y) == 1 # 2)%Q -> Z.even (Double.roundEven y) = true.
Proof.
  intros H. unfold Double.roundEven.
  destruct (Qcompare_spec (y - inject_Z (Qfloor y)) (1 # 2)) as [E|E|E];
    [|lra|lra].
  destruct (Z.even (Qfloor y)) eqn:Ev; [exact Ev|].
  rewrite Z.even_add, Ev. reflexivity.
Qed.

Lemma roundEven_nonneg (y : Q) : (0 <= y)%Q -> 0 <= Double.roundEven y.
Proof.
  intros H. unfold Double.roundEven.
  assert (0 <= Qfloor y).
  { change 0 with (Qfloor 0). apply Qfloor_resp_le. assumption. }
  destruct (_ ?= _)%Q; [destruct (Z.even _)| |]; lia.
Qed.

(** The exponent of a positive number is its binade. *)
Lemma exponent_spec (y : Q) :
  (0 < y)%Q ->
  (Double.pow2 (Double.exponent y) <= y
   < Double.pow2 (Double.exponent y + 1))%Q.
Proof.
  intros Hy. unfold Double.exponent.
  destruct y as [a d]. cbn [Qnum Qden].
  assert (Ha : 0 < a).
  { unfold Qlt in Hy. cbn in Hy. lia. }
  set (la := Z.log2 a). set (ld := Z.log2 (Z.pos d)).
  assert (Hla : 0 <= la) by apply Z.log2_nonneg.
  assert (Hld : 0 <= ld) by apply Z.log2_nonneg.
  destruct (Z.log2_spec a Ha) as [A1 A2]. fold la in A1, A2.
  destruct (Z.log2_spec (Z.pos d) eq_refl) as [D1 D2]. fold ld in D1, D2.
  rewrite Zle_Qle in A1, D1. rewrite Zlt_Qlt in A2, D2.
  rewrite <- pow2_inject in A1, A2, D1, D2 by lia.
  assert (Hyd : (a # d == inject_Z a / inject_Z (Z.pos d))%Q)
    by apply Qmake_Qdiv.
  assert (Hd : (0 < inject_Z (Z.pos d))%Q) by reflexivity.
  assert (HA : (0 < inject_Z a)%Q).
  { change 0%Q with (inject_Z 0). rewrite <- Zlt_Qlt. assumption. }
  set (A := inject_Z a) in *. set (D := inject_Z (Z.pos d)) in *.
  assert (HyD : ((a # d) * D == A)%Q).
  { rewrite Hyd. field. lra. }
  set (y := (a # d)%Q) in *.
  assert (Lo : (Double.pow2 (la - ld - 1) <= y)%Q).
  { pose proof (pow2_plus (la - ld - 1) (Z.succ ld)) as E.
    replace (la - ld - 1 + Z.succ ld) with la in E by lia.
    pose proof (pow2_pos (la - ld - 1)).
    nra. }
  assert (Hi : (y < Double.pow2 (la - ld + 1))%Q).
  { pose proof (pow2_plus (la - ld + 1) ld) as E.
    replace (la - ld + 1 + ld) with (Z.succ la) in E by lia.
    pose proof (pow2_pos (la - ld + 1)). pose proof (pow2_pos ld).
    nra. }
  destruct (Qle_bool (Double.pow2 (la - ld)) y) eqn:C1.
  - apply Qle_bool_iff in C1. split; assumption.
  - assert (C1' : (y < Double.pow2 (la - ld))%Q).
    { apply Qnot_le_lt. intros H. apply Qle_bool_iff in H. congruence. }
    assert (C2 : Qle_bool (Double.pow2 (la - ld - 1)) y = true)
      by (apply Qle_bool_iff; assumption).
    rewrite C2. replace (la - ld - 1 + 1) with (la - ld) by lia.
    split; assumption.
Qed.

(** The unit in the last place: at most [2 ^ -52] of a number in the
    normal range. *)
Lemma ulp_pos (y : Q) : (0 < Double.ulp y)%Q.
Proof. apply pow2_pos. Qed.

Lemma ulp_normal (y : Q) :
  (Double.pow2 (-1022) <= y)%Q -> (Double.ulp y <= y * Double.pow2 (-52))%Q.
Proof.
  intros Hy. unfold Double.ulp.
  assert (Hpos : (0 < y)%Q).
  { eapply Qlt_le_trans; [apply (pow2_pos (-1022))|exact Hy]. }
  destruct (exponent_spec y Hpos) as [Hlo Hhi].
  assert (He : -1022 <= Double.exponent y).
  { assert (-1022 < Double.exponent y + 1); [|lia].
    apply pow2_lt_inv. eapply Qle_lt_trans; eassumption. }
  rewrite Z.max_l by assumption.
  replace (Double.exponent y - 52) with (Double.exponent y + -52) by lia.
  rewrite pow2_plus.
  apply Qmult_le_compat_r; [assumption|]. apply Qlt_le_weak, pow2_pos.
Qed.

Lemma ulp_bound (y : Q) :
  (0 < y)%Q ->
  (Double.ulp y <= y * Double.pow2 (-52) + Double.pow2 (-1074))%Q.
Proof.
  intros Hpos. unfold Double.ulp.
  destruct (exponent_spec y Hpos) as [Hlo _].
  pose proof (pow2_pos (-52)) as H52. pose proof (pow2_pos (-1074)) as H1074.
  destruct (Z.max_spec (Double.exponent y) (-1022)) as [[_ E]|[_ E]]; rewrite E.
  - change (-1022 - 52) with (-1074). nra.
  - replace (Double.exponent y - 52) with (Double.exponent y + -52) by lia.
    rewrite pow2_plus. nra.
Qed.

(** Equal numbers round to the same double. *)
Lemma fl_comp (x x' : Q) : (x == x')%Q -> Double.fl x = Double.fl x'.
Proof.
  intros H. unfold Double.fl.
  assert (E : Qred (Qabs x) = Qred (Qabs x')).
  { apply Qred_complete. rewrite H. reflexivity. }
  rewrite E.
  assert (B : Qle_bool 0 x = Qle_bool 0 x').
  { apply eq_true_iff_eq. rewrite !Qle_bool_iff. rewrite H. reflexivity. }
  rewrite B. reflexivity.
Qed.

Lemma fl_zero (x : Q) : (x == 0)%Q -> Double.fl x = 0%Q.
Proof. intros H. rewrite (fl_comp _ _ H). reflexivity. Qed.

Lemma Qabs_cases (x : Q) :
  ((0 <= x)%Q /\ (Qabs x == x)%Q) \/ ((x <= 0)%Q /\ (Qabs x == - x)%Q).
Proof.
  destruct (Qlt_le_dec x 0) as [H|H].
  - right. split; [lra|]. apply Qabs_neg. lra.
  - left. split; [assumption|]. apply Qabs_pos. assumption.
Qed.

(** The shape of a rounded number: a whole number of units in the last
    place, of the sign of the argument. *)
Lemma fl_shape (x : Q) :
  ~ (x == 0)%Q ->
  let y := Qred (Qabs x) in
  let m := inject_Z (Double.roundEven (y / Double.ulp y)) in
  (y == Qabs x)%Q /\ (0 < y)%Q /\ (0 <= m)%Q
  /\ (Qabs (m * Double.ulp y - y) <= Double.ulp y / 2)%Q
  /\ ((0 <= x)%Q -> (Double.fl x == m * Double.ulp y)%Q)
  /\ ((x <= 0)%Q -> (Double.fl x == - (m * Double.ulp y))%Q).
Proof.
  intros Hx y m.
  assert (Hy : (y == Qabs x)%Q) by apply Qred_correct.
  assert (Hpos : (0 < y)%Q).
  { rewrite Hy. destruct (Qabs_cases x) as [[H E]|[H E]]; rewrite E; lra. }
  pose proof (ulp_pos y) as Hu.
  assert (Hm : (0 <= m)%Q).
  { subst m. change 0%Q with (inject_Z 0). rewrite <- Zle_Qle.
    apply roundEven_nonneg. apply Qle_shift_div_l; [assumption|]. lra. }
  assert (Herr : (Qabs (m * Double.ulp y - y) <= Double.ulp y / 2)%Q).
  { pose proof (roundEven_spec (y / Double.ulp y)) as R. fold m in R.
    apply Qabs_Qle_condition in R. destruct R as [R1 R2].
    assert (E : (y == (y / Double.ulp y) * Double.ulp y)%Q) by (field; lra).
    set (t := (y / Double.ulp y)%Q) in *.
    apply Qabs_Qle_condition. split.
    - setoid_replace (- (Double.ulp y / 2))%Q with (- (1 # 2) * Double.ulp y)%Q
        by (field). nra.
    - setoid_replace (Double.ulp y / 2)%Q with ((1 # 2) * Double.ulp y)%Q
        by (field). nra. }
  assert (Hne : Qeq_bool y 0 = false).
  { destruct (Qeq_bool y 0) eqn:E; [|reflexivity].
    apply Qeq_bool_eq in E. lra. }
  repeat split; try assumption.
  - intros H. unfold Double.fl. fold y. rewrite Hne. fold m.
    rewrite Qred_correct.
    assert (B : Qle_bool 0 x = true) by (apply Qle_bool_iff; assumption).
    rewrite B. reflexivity.
  - intros H. unfold Double.fl. fold y. rewrite Hne. fold m.
    rewrite Qred_correct.
    assert (B : Qle_bool 0 x = false).
    { destruct (Qle_bool 0 x) eqn:E; [|reflexivity].
      apply Qle_bool_iff in E. exfalso. apply Hx. lra. }
    rewrite B. reflexivity.
Qed.

(** Rounding keeps the sign. *)
Lemma fl_nonneg (x : Q) : (0 <= x)%Q -> (0 <= Double.fl x)%Q.
Proof.
  intros H. destruct (Qeq_dec x 0) as [E|E].
  - rewrite (fl_zero _ E). lra.
  - destruct (fl_shape x E) as (_ & _ & Hm & _ & Hp & _).
    rewrite (Hp H). pose proof (ulp_pos (Qred (Qabs x))). nra.
Qed.


(** Rounding is off by at most half a unit in the last place. *)
Lemma fl_half_ulp (x : Q) :
  ~ (x == 0)%Q ->
  (Qabs (Double.fl x - x) <= Double.ulp (Qred (Qabs x)) / 2)%Q.
Proof.
  intros E.
  destruct (fl_shape x E) as (Hy & Hpos & Hm & Herr & Hp & Hn).
  set (y := Qred (Qabs x)) in *. set (u := Double.ulp y) in *.
  set (m := inject_Z _) in *.
  apply Qabs_Qle_condition in Herr. destruct Herr as [E1 E2].
  apply Qabs_Qle_condition.
  destruct (Qabs_cases x) as [[H A]|[H A]]; rewrite A in Hy.
  - rewrite (Hp H). split; lra.
  - rewrite (Hn H). split; lra.
Qed.

(** The error of rounding: a relative [2 ^ -53], or [2 ^ -1075] among the
    subnormal numbers. *)
Lemma fl_error (x : Q) :
  (Qabs (Double.fl x - x)
   <= Qabs x * Double.pow2 (-53) + Double.pow2 (-1075))%Q.
Proof.
  pose proof (pow2_pos (-53)) as H53. pose proof (pow2_pos (-1075)) as H1075.
  pose proof (Qabs_nonneg x) as Hx.
  destruct (Qeq_dec x 0) as [E|E].
  - rewrite (fl_zero _ E).
    setoid_replace (0 - x)%Q with 0%Q by lra. change (Qabs 0) with 0%Q. nra.
  - pose proof (fl_half_ulp x E) as Hh.
    destruct (fl_shape x E) as (Hy & Hpos & _).
    pose proof (ulp_bound _ Hpos) as Hu. rewrite Hy in Hu at 2.
    pose proof (pow2_plus (-53) 1) as P1.
    pose proof (pow2_plus (-1075) 1) as P2.
    change (-53 + 1) with (-52) in P1. change (-1075 + 1) with (-1074) in P2.
    change (Double.pow2 1) with 2%Q in P1, P2.
    eapply Qle_trans; [exact Hh|].
    apply Qle_shift_div_r; [reflexivity|]. nra.
Qed.

Lemma fl_error_normal (x : Q) :
  (Double.pow2 (-1022) <= Qabs x)%Q ->
  (Qabs (Double.fl x - x) <= Qabs x * Double.pow2 (-53))%Q.
Proof.
  intros Hn.
  pose proof (pow2_pos (-1022)) as Hp.
  assert (E : ~ (x == 0)%Q).
  { intros E. rewrite E in Hn. change (Qabs 0) with 0%Q in Hn. lra. }
  pose proof (fl_half_ulp x E) as Hh.
  destruct (fl_shape x E) as (Hy & Hpos & _).
  assert (Hn' : (Double.pow2 (-1022) <= Qred (Qabs x))%Q)
    by (rewrite Hy; exact Hn).
  pose proof (ulp_normal _ Hn') as Hu. rewrite Hy in Hu at 2.
  pose proof (pow2_plus (-53) 1) as P1.
  change (-53 + 1) with (-52) in P1. change (Double.pow2 1) with 2%Q in P1.
  eapply Qle_trans; [exact Hh|].
  apply Qle_shift_div_r; [reflexivity|]. nra.
Qed.



(** [roundEven] gives a nearest integer. *)
Lemma roundEven_nearest (t : Q) (j : Z) :
  (Qabs (inject_Z (Double.roundEven t) - t) <= Qabs (inject_Z j - t))%Q.
Proof.
  pose proof (roundEven_spec t) as H. set (m := Double.roundEven t) in *.
  apply Qabs_Qle_condition in H. destruct H as [H1 H2].
  destruct (Z.eq_dec j m) as [->|Hne]; [lra|].
  apply Qabs_Qle_condition.
  destruct (Z.lt_ge_cases j m) as [Hlt|Hge].
  - assert (Hj : (inject_Z j + 1 <= inject_Z m)%Q).
    { change 1%Q with (inject_Z 1). rewrite <- inject_Z_plus, <- Zle_Qle. lia. }
    rewrite Qabs_neg by lra. split; lra.
  - assert (Hj : (inject_Z m + 1 <= inject_Z j)%Q).
    { change 1%Q with (inject_Z 1). rewrite <- inject_Z_plus, <- Zle_Qle. lia. }
    rewrite Qabs_pos by lra. split; lra.
Qed.

(** Among the multiples of the unit in the last place the rounded
    magnitude is a nearest one. *)
Lemma grid_nearest (y : Q) (j : Z) :
  (0 < y)%Q ->
  let u := Double.ulp y in
  let m := inject_Z (Double.roundEven (y / u)) in
  (Qabs (m * u - y) <= Qabs (inject_Z j * u - y))%Q.
Proof.
  intros Hy u m. pose proof (ulp_pos y) as Hu. fold u in Hu.
  pose proof (roundEven_nearest (y / u) j) as H. fold m in H.
  assert (E : forall a : Q, (a * u - y == (a - y / u) * u)%Q)
    by (intros a; field; lra).
  rewrite !E, !Qabs_Qmult, (Qabs_pos u) by lra.
  apply Qmult_le_compat_r; [exact H|lra].
Qed.

(** A power of two is a whole multiple of a lower one. *)
Lemma pow2_inject_mul (a b : Z) :
  a <= b -> (Double.pow2 b == inject_Z (2 ^ (b - a)) * Double.pow2 a)%Q.
Proof.
  intros H. rewrite <- pow2_inject by lia. rewrite <- pow2_plus.
  replace (b - a + a) with b by lia. reflexivity.
Qed.

(** The rounded magnitude is at least as near as any double. *)
Lemma magnitude_nearest (y d : Q) :
  (0 < y)%Q -> (0 <= d)%Q -> Double.isDouble d ->
  let u := Double.ulp y in
  let m := inject_Z (Double.roundEven (y / u)) in
  (Qabs (m * u - y) <= Qabs (d - y))%Q.
Proof.
  intros Hy Hd (M & e & HM & He & Hde) u m.
  set (g := Z.max (Double.exponent y) (-1022) - 52).
  assert (Hu : u = Double.pow2 g) by reflexivity.
  pose proof (pow2_pos e) as Hpe. pose proof (pow2_pos g) as Hpg.
  assert (HM0 : 0 <= M).
  { destruct (Z.lt_ge_cases M 0) as [Hneg|]; [|assumption]. exfalso.
    assert ((inject_Z M <= -1)%Q).
    { change (-1)%Q with (inject_Z (-1)). rewrite <- Zle_Qle. lia. }
    nra. }
  destruct (Z.le_gt_cases g e) as [Hge|Hlt].
  - (* [d] is on the grid *)
    pose proof (grid_nearest y (M * 2 ^ (e - g)) Hy) as H. cbv zeta in H.
    fold u m in H.
    assert (E : (inject_Z (M * 2 ^ (e - g)) * u == d)%Q).
    { rewrite Hde, Hu, inject_Z_mult, (pow2_inject_mul g e Hge). ring. }
    rewrite E in H. exact H.
  - (* [d] is below the binade of [y] *)
    assert (HE : -1022 < Double.exponent y) by lia.
    assert (Hg : g = Double.exponent y - 52) by lia.
    destruct (exponent_spec y Hy) as [Hlo _].
    pose proof (grid_nearest y (2 ^ 52) Hy) as H. cbv zeta in H.
    fold u m in H.
    assert (E : (inject_Z (2 ^ 52) * u == Double.pow2 (Double.exponent y))%Q).
    { rewrite Hu. rewrite (pow2_inject_mul g (Double.exponent y)) by lia.
      replace (Double.exponent y - g) with 52 by lia. reflexivity. }
    rewrite E in H.
    assert (Hdle : (d <= Double.pow2 (Double.exponent y))%Q).
    { rewrite Hde.
      rewrite (pow2_inject_mul e (Double.exponent y)) by lia.
      apply Qmult_le_compat_r; [|lra].
      rewrite <- Zle_Qle.
      apply Z.le_trans with (2 ^ 53); [lia|].
      apply Z.pow_le_mono_r; lia. }
    eapply Qle_trans; [exact H|].
    rewrite (Qabs_neg (Double.pow2 _ - y)) by lra.
    rewrite (Qabs_neg (d - y)) by lra. lra.
Qed.

(** The doubles are closed under [Math.abs]. *)
Lemma isDouble_abs (d : Q) : Double.isDouble d -> Double.isDouble (Qabs d).
Proof.
  intros (M & e & HM & He & Hde). exists (Z.abs M), e.
  split; [rewrite (Z.abs_eq (Z.abs M)) by apply Z.abs_nonneg; assumption|].
  split; [assumption|].
  rewrite Hde, Qabs_Qmult. rewrite (Qabs_pos (Double.pow2 e)).
  - unfold Qabs, inject_Z. reflexivity.
  - apply Qlt_le_weak, pow2_pos.
Qed.

(** [Double.fl x] is a double nearest to [x]. *)
Lemma fl_nearest (x d : Q) :
  Double.isDouble d -> (Qabs (Double.fl x - x) <= Qabs (d - x))%Q.
Proof.
  intros Hd. destruct (Qeq_dec x 0) as [E|E].
  - rewrite (fl_zero _ E). rewrite E.
    setoid_replace (0 - 0)%Q with 0%Q by ring. apply Qabs_nonneg.
  - destruct (fl_shape x E) as (Hy & Hpos & Hm & _ & Hp & Hn).
    pose proof (magnitude_nearest _ _ Hpos (Qabs_nonneg d) (isDouble_abs _ Hd))
      as H. cbv zeta in H.
    set (y := Qred (Qabs x)) in *. set (u := Double.ulp y) in *.
    set (m := inject_Z _) in *.
    assert (Hrev : (Qabs (Qabs d - y) <= Qabs (d - x))%Q).
    { rewrite Hy. apply Qabs_Qle_condition.
      pose proof (Qabs_triangle_reverse d x) as T1.
      pose proof (Qabs_triangle_reverse x d) as T2.
      setoid_replace (x - d)%Q with (- (d - x))%Q in T2 by ring.
      rewrite Qabs_opp in T2. split; lra. }
    eapply Qle_trans; [|exact Hrev]. eapply Qle_trans; [|exact H].
    destruct (Qabs_cases x) as [[Hx A]|[Hx A]]; rewrite A in Hy.
    + rewrite (Hp Hx), Hy. lra.
    + rewrite (Hn Hx).
      setoid_replace (- (m * u) - x)%Q with (- (m * u - y))%Q
        by (rewrite Hy; ring).
      rewrite Qabs_opp. lra.
Qed.

(** [Double.fl x] is a double. *)
Lemma fl_isDouble (x : Q) : Double.isDouble (Double.fl x).
Proof.
  destruct (Qeq_dec x 0) as [E|E].
  - rewrite (fl_zero _ E). exists 0, 0. repeat split; try lia. 
  - destruct (fl_shape x E) as (Hy & Hpos & Hm & _ & Hp & Hn).
    set (y := Qred (Qabs x)) in *. set (u := Double.ulp y) in *.
    set (mz := Double.roundEven (y / u)) in *.
    set (g := Z.max (Double.exponent y) (-1022) - 52).
    assert (Hu : u = Double.pow2 g) by reflexivity.
    pose proof (ulp_pos y) as Hupos. fold u in Hupos.
    assert (Hmz : 0 <= mz <= 2 ^ 53).
    { split.
      - change 0%Q with (inject_Z 0) in Hm. rewrite <- Zle_Qle in Hm. exact Hm.
      - destruct (exponent_spec y Hpos) as [_ Hhi].
        assert (Hlt : (y < inject_Z (2 ^ 53) * u)%Q).
        { eapply Qlt_le_trans; [exact Hhi|].
          rewrite Hu, <- pow2_inject, <- pow2_plus by lia.
          apply pow2_le. lia. }
        assert (Ht : (y / u < inject_Z (2 ^ 53))%Q)
          by (apply Qlt_shift_div_r; assumption).
        pose proof (roundEven_spec (y / u)) as R. fold mz in R.
        apply Qabs_Qle_condition in R. destruct R as [_ R].
        assert (Hz : (inject_Z mz < inject_Z (2 ^ 53 + 1))%Q).
        { rewrite inject_Z_plus. change (inject_Z 1) with 1%Q. lra. }
        rewrite <- Zlt_Qlt in Hz. lia. }
    destruct (Qabs_cases x) as [[Hx _]|[Hx _]].
    + exists mz, g. split; [lia|]. split; [lia|].
      rewrite (Hp Hx), Hu. reflexivity.
    + exists (- mz), g. split; [lia|]. split; [lia|].
      rewrite (Hn Hx), Hu, inject_Z_opp. ring.
Qed.

(** A double is left as it is. *)
Lemma fl_double (d : Q) : Double.isDouble d -> (Double.fl d == d)%Q.
Proof.
  intros Hd. pose proof (fl_nearest d d Hd) as H.
  setoid_replace (d - d)%Q with 0%Q in H by ring. change (Qabs 0) with 0%Q in H.
  pose proof (Qabs_nonneg (Double.fl d - d)) as H0.
  destruct (Qabs_cases (Double.fl d - d)) as [[_ A]|[_ A]]; rewrite A in *; lra.
Qed.

(** Together: rounding gives a double nearest to its argument. *)
Lemma fl_nearestDouble (x : Q) : Double.nearestDouble x (Double.fl x).
Proof.
  split; [apply fl_isDouble|]. intros d Hd. apply fl_nearest. exact Hd.
Qed.

(** ** Lists built by [push] *)

Lemma fold_push_map {A B : Type} (f : A -> B) (l : list A) (acc : list B) :
  fold_left (fun acc x => acc ++ [f x]) l acc = acc ++ map f l.
Proof.
  revert acc; induction l as [|x l IH]; intros acc; simpl.
  - now rewrite app_nil_r.
  - rewrite IH, <- app_assoc. reflexivity.
Qed.

Lemma range_succ (n : nat) :
  JS.range (Z.of_nat (S n)) = JS.range (Z.of_nat n) ++ [Z.of_nat n].
Proof.
  unfold JS.range. rewrite !Nat2Z.id, seq_S, map_app. reflexivity.
Qed.

Lemma range_nonpos (n : Z) : n <= 0 -> JS.range n = [].
Proof.
  intros H. unfold JS.range.
  replace (Z.to_nat n) with O by lia. reflexivity.
Qed.

Lemma in_range (n x : Z) : In x (JS.range n) <-> 0 <= x < n.
Proof.
  unfold JS.range. rewrite in_map_iff. split.
  - intros (i & <- & Hi). apply in_seq in Hi. lia.
  - intros H. exists (Z.to_nat x). split; [lia|]. apply in_seq. lia.
Qed.

Lemma length_range (n : Z) : length (JS.range n) = Z.to_nat n.
Proof. unfold JS.range. now rewrite length_map, length_seq. Qed.

(** ** Sorted lists *)

Lemma sorted_snoc {A : Type} (R : A -> A -> Prop) (l : list A) (x : A) :
  StronglySorted R l -> Forall (fun a => R a x) l ->
  StronglySorted R (l ++ [x]).
Proof.
  induction 1 as [|a l Hs IH Ha]; intros Hx; simpl.
  - constructor; constructor.
  - inversion Hx; subst. constructor.
    + apply IH; assumption.
    + apply Forall_app. split; [assumption|]. constructor; [assumption|constructor].
Qed.

Lemma sorted_app {A : Type} (R : A -> A -> Prop) (l1 l2 : list A) :
  StronglySorted R l1 -> StronglySorted R l2 ->
  (forall a b, In a l1 -> In b l2 -> R a b) ->
  StronglySorted R (l1 ++ l2).
Proof.
  induction 1 as [|a l Hs IH Ha]; intros H2 Hc; simpl; [assumption|].
  constructor.
  - apply IH; [assumption|]. intros; apply Hc; simpl; auto.
  - apply Forall_app. split; [assumption|].
    apply Forall_forall. intros b Hb. apply Hc; simpl; auto.
Qed.

Lemma sorted_weaken {A : Type} (R S : A -> A -> Prop) (l : list A) :
  (forall a b, In a l -> In b l -> R a b -> S a b) ->
  StronglySorted R l -> StronglySorted S l.
Proof.
  intros HRS Hs. induction Hs as [|a l Hs IH Ha]; constructor.
  - apply IH. intros; apply HRS; simpl; auto.
  - apply Forall_forall. intros b Hb.
    apply HRS; simpl; auto. rewrite Forall_forall in Ha. auto.
Qed.

Lemma sorted_map {A B : Type} (R : B -> B -> Prop) (f : A -> B) (l : list A) :
  StronglySorted (fun a b => R (f a) (f b)) l -> StronglySorted R (map f l).
Proof.
  induction 1 as [|a l Hs IH Ha]; simpl; constructor; [assumption|].
  apply Forall_map. assumption.
Qed.

Lemma sorted_NoDup {A : Type} (R : A -> A -> Prop) (l : list A) :
  (forall a, ~ R a a) -> StronglySorted R l -> NoDup l.
Proof.
  intros Hirr. induction 1 as [|a l Hs IH Ha]; constructor; [|assumption].
  intros Hin. rewrite Forall_forall in Ha. exact (Hirr a (Ha a Hin)).
Qed.

(** ** The row loop *)

Section RowLoop.

Variable data : list Z.
Variables rotW rotH : Z.
Variable threshold : Q.

#[local] Abbreviation dark y := (fun x => isDark data rotW rotH threshold x y).
#[local] Abbreviation step := (scanPixel data rotW rotH threshold).

Lemma pushRun_app (rn : list Point) (sk0 sk : list Segment) :
  pushRun rn (sk0 ++ sk) = sk0 ++ pushRun rn sk.
Proof. destruct rn; simpl; [reflexivity|]. now rewrite app_assoc. Qed.

(** Segments pushed by earlier rows are carried along untouched. *)
Lemma scanPixel_frame (y : Z) (sk0 : list Segment) (st : RowState) (x : Z) :
  step y (mkRowState (inRun st) (run st) (sk0 ++ strokes st)) x
  = mkRowState (inRun (step y st x)) (run (step y st x))
               (sk0 ++ strokes (step y st x)).
Proof.
  destruct st as [i r s]. unfold scanPixel; simpl.
  destruct (isDark data rotW rotH threshold x y), i; simpl;
    rewrite ?pushRun_app; reflexivity.
Qed.

Lemma scanColumns_frame (y : Z) (sk0 : list Segment) (l : list Z) (st : RowState) :
  fold_left (step y) l (mkRowState (inRun st) (run st) (sk0 ++ strokes st))
  = mkRowState (inRun (fold_left (step y) l st))
               (run (fold_left (step y) l st))
               (sk0 ++ strokes (fold_left (step y) l st)).
Proof.
  revert st; induction l as [|x l IH]; intros st; simpl; [reflexivity|].
  rewrite scanPixel_frame. apply IH.
Qed.

Lemma scanRow_app (y : Z) (sk0 : list Segment) :
  scanRow data rotW rotH threshold y sk0
  = sk0 ++ scanRow data rotW rotH threshold y [].
Proof.
  unfold scanRow.
  pose proof (scanColumns_frame y sk0 (columns rotW) (mkRowState false [] [])) as H.
  simpl in H. rewrite app_nil_r in H. rewrite H. simpl.
  destruct (inRun _); [apply pushRun_app|reflexivity].
Qed.

Lemma closed_run_ends_before (y n a a' b' : Z) :
  DarkRun (dark y) a (n - 1) -> ClosedRun (dark y) n a' b' -> b' < a.
Proof.
  intros Hd (_ & _ & Hb & _ & _ & Hn).
  destruct (Z_lt_ge_dec b' a) as [|Hge]; [assumption|exfalso].
  rewrite (Hd (b' + 1)) in Hn by lia. discriminate.
Qed.

Lemma left_edge_unique (y a a' b : Z) :
  0 <= a -> 0 <= a' -> a <= b -> a' <= b ->
  DarkRun (dark y) a b -> DarkRun (dark y) a' b ->
  LeftEdge (dark y) a -> LeftEdge (dark y) a' -> a = a'.
Proof.
  intros Ha Ha' Hab Ha'b Hd Hd' He He'.
  destruct (Z.lt_trichotomy a a') as [Hlt|[Heq|Hgt]]; [exfalso|assumption|exfalso].
  - destruct He' as [->|He']; [lia|]. rewrite (Hd (a' - 1)) in He' by lia. discriminate.
  - destruct He as [->|He]; [lia|]. rewrite (Hd' (a - 1)) in He by lia. discriminate.
Qed.

Lemma last_snoc_cons (p q : Point) (tl : list Point) :
  last ((p :: tl) ++ [q]) p = q.
Proof. rewrite last_last. reflexivity. Qed.

(** One column preserves the invariant of the row loop. *)
Lemma scanPixel_inv (y n : Z) (st : RowState) :
  0 <= n ->
  RowInv (dark y) y n st ->
  RowInv (dark y) y (n + 1) (step y st n).
Proof.
  intros Hn (Hmem & Hsort & Hopen).
  unfold scanPixel, RowInv.
  destruct (isDark data rotW rotH threshold n y) eqn:Hdk;
    destruct (inRun st) eqn:Hin; cbn [negb inRun run strokes].
  - (* dark, the run goes on *)
    destruct Hopen as (a & tl & Ha & Hd & He & Hrun & Hlast).
    split; [|split; [assumption|]].
    + intros s. rewrite Hmem. split; intros (a' & b' & -> & Hc); exists a', b';
        (split; [reflexivity|]); unfold ClosedRun in *.
      * intuition lia.
      * destruct Hc as (? & ? & ? & ? & ? & Hf).
        assert (b' + 1 <> n) by (intros E; rewrite E in Hf; congruence).
        intuition lia.
    + exists a, (tl ++ [mkPoint n y]). rewrite Hrun.
      repeat split; try lia.
      * intros x Hx. destruct (Z.eq_dec x n) as [->|]; [assumption|].
        apply Hd; lia.
      * assumption.
      * rewrite last_snoc_cons. f_equal. lia.
  - (* dark, a run opens *)
    split; [|split; [assumption|]].
    + intros s. rewrite Hmem. split; intros (a' & b' & -> & Hc); exists a', b';
        (split; [reflexivity|]); unfold ClosedRun in *.
      * intuition lia.
      * destruct Hc as (? & ? & ? & ? & ? & Hf).
        assert (b' + 1 <> n) by (intros E; rewrite E in Hf; congruence).
        intuition lia.
    + exists n, []. repeat split; try lia.
      * intros x Hx. replace x with n by lia. assumption.
      * destruct Hopen as [Hz|Hp]; [left; lia|right; assumption].
      * cbn [last]. f_equal. lia.
  - (* not dark, the open run closes *)
    destruct Hopen as (a & tl & Ha & Hd & He & Hrun & Hlast).
    assert (Hpush : pushRun (run st) (strokes st)
                    = strokes st ++ [segAt y a (n - 1)]).
    { unfold pushRun, segAt. rewrite Hrun. rewrite Hrun in Hlast.
      rewrite Hlast. reflexivity. }
    rewrite Hpush.
    split; [|split].
    + intros s. rewrite in_app_iff, Hmem. split.
      * intros [(a' & b' & -> & Hc)|[<-|[]]].
        -- exists a', b'. split; [reflexivity|]. unfold ClosedRun in *. intuition lia.
        -- exists a, (n - 1). split; [reflexivity|].
           unfold ClosedRun. repeat split; try lia; try assumption.
           replace (n - 1 + 1) with n by lia. assumption.
      * intros (a' & b' & -> & Hc).
        destruct (Z.eq_dec (b' + 1) n) as [E|NE].
        -- right; left. destruct Hc as (? & ? & ? & Hd' & He' & ?).
           replace b' with (n - 1) in * by lia.
           f_equal. apply (left_edge_unique y a a' (n - 1)); auto; lia.
        -- left. exists a', b'. split; [reflexivity|].
           unfold ClosedRun in *. intuition lia.
    + apply sorted_snoc; [assumption|].
      apply Forall_forall. intros s Hs. apply Hmem in Hs.
      destruct Hs as (a' & b' & -> & Hc). unfold endsBefore, segAt; simpl.
      eapply closed_run_ends_before; eassumption.
    + right. replace (n + 1 - 1) with n by lia. assumption.
  - (* not dark, no run open *)
    rewrite Hin. split; [|split; [assumption|]].
    + intros s. rewrite Hmem. split; intros (a' & b' & -> & Hc); exists a', b';
        (split; [reflexivity|]); unfold ClosedRun in *.
      * intuition lia.
      * destruct Hc as (? & ? & ? & Hd' & ? & Hf).
        assert (b' + 1 <> n).
        { intros E. destruct Hopen as [Hz|Hp]; [lia|].
          rewrite (Hd' (n - 1)) in Hp by lia. discriminate. }
        intuition lia.
    + right. replace (n + 1 - 1) with n by lia. assumption.
Qed.

(** After the columns below [n], the row loop satisfies its invariant. *)
Lemma scanColumns_inv (y : Z) (n : nat) :
  RowInv (dark y) y (Z.of_nat n)
         (fold_left (step y) (JS.range (Z.of_nat n)) (mkRowState false [] [])).
Proof.
  induction n as [|n IH].
  - change (JS.range (Z.of_nat 0)) with (@nil Z).
    cbn [fold_left]. unfold RowInv; cbn [inRun run strokes].
    split; [|split].
    + intros s; split; [intros []|].
      intros (a & b & _ & Hc). unfold ClosedRun in Hc. lia.
    + constructor.
    + left; reflexivity.
  - rewrite range_succ, fold_left_app. cbn [fold_left].
    replace (Z.of_nat (S n)) with (Z.of_nat n + 1) by lia.
    apply scanPixel_inv; [lia|exact IH].
Qed.

(** The segments of one row are its maximal runs, left to right. *)
Lemma scanRow_spec (y : Z) :
  (forall s, In s (scanRow data rotW rotH threshold y []) <->
             exists a b, s = segAt y a b /\ MaximalRun (dark y) rotW a b)
  /\ StronglySorted endsBefore (scanRow data rotW rotH threshold y []).
Proof.
  unfold scanRow, columns.
  destruct (Z_le_gt_dec rotW 0) as [Hw|Hw].
  - rewrite (range_nonpos rotW Hw). cbn [fold_left inRun strokes].
    split; [|constructor].
    intros s; split; [intros []|].
    intros (a & b & _ & Hm). unfold MaximalRun in Hm. lia.
  - pose proof (scanColumns_inv y (Z.to_nat rotW)) as Hinv.
    rewrite Z2Nat.id in Hinv by lia.
    destruct Hinv as (Hmem & Hsort & Hopen).
    destruct (inRun _) eqn:Hin.
    + destruct Hopen as (a & tl & Ha & Hd & He & Hrun & Hlast).
      assert (Hpush :
        pushRun (run (fold_left (step y) (JS.range rotW) (mkRowState false [] [])))
                (strokes (fold_left (step y) (JS.range rotW) (mkRowState false [] [])))
        = strokes (fold_left (step y) (JS.range rotW) (mkRowState false [] []))
          ++ [segAt y a (rotW - 1)]).
      { unfold pushRun, segAt. rewrite Hrun. rewrite Hrun in Hlast.
        rewrite Hlast. reflexivity. }
      rewrite Hpush. split.
      * intros s. rewrite in_app_iff, Hmem. split.
        -- intros [(a' & b' & -> & Hc)|[<-|[]]].
           ++ exists a', b'. split; [reflexivity|].
              unfold ClosedRun, MaximalRun, RightEdge in *. intuition lia.
           ++ exists a, (rotW - 1). split; [reflexivity|].
              unfold MaximalRun, RightEdge. repeat split; try lia; assumption.
        -- intros (a' & b' & -> & Hm).
           destruct Hm as (? & ? & ? & Hd' & He' & Hr).
           destruct (Z.eq_dec b' (rotW - 1)) as [->|NE].
           ++ right; left. f_equal.
              apply (left_edge_unique y a a' (rotW - 1)); auto; lia.
           ++ left. exists a', b'. split; [reflexivity|].
              destruct Hr as [?|Hr]; [lia|].
              unfold ClosedRun. repeat split; try lia; assumption.
      * apply sorted_snoc; [assumption|].
        apply Forall_forall. intros s Hs. apply Hmem in Hs.
        destruct Hs as (a' & b' & -> & Hc). unfold endsBefore, segAt; simpl.
        eapply closed_run_ends_before; eassumption.
    + split; [|assumption].
      intros s. rewrite Hmem. split; intros (a' & b' & -> & Hc); exists a', b';
        (split; [reflexivity|]).
      * unfold ClosedRun, MaximalRun, RightEdge in *. intuition lia.
      * destruct Hc as (? & ? & ? & Hd' & He' & Hr).
        assert (b' <> rotW - 1).
        { intros ->. destruct Hopen as [?|Hp]; [lia|].
          rewrite (Hd' (rotW - 1)) in Hp by lia. discriminate. }
        destruct Hr as [?|Hr]; [lia|].
        unfold ClosedRun. repeat split; try lia; assumption.
Qed.

(** ** The raster loop *)

Lemma scanRows_app (s : Z) (fuel : nat) (y : Z) (sk0 sk : list Segment) :
  scanRows data rotW rotH threshold s fuel y (sk0 ++ sk)
  = option_map (app sk0) (scanRows data rotW rotH threshold s fuel y sk).
Proof.
  revert y sk; induction fuel as [|fuel IH]; intros y sk; cbn [scanRows];
    destruct (y <? rotH); try reflexivity.
  rewrite <- IH. f_equal.
  rewrite (scanRow_app y (sk0 ++ sk)), (scanRow_app y sk), app_assoc.
  reflexivity.
Qed.

(** With a spacing of at least one pixel the raster loop ends. *)
Lemma scanRows_total (s : Z) (fuel : nat) (y : Z) (sk : list Segment) :
  1 <= s -> rotH - y <= Z.of_nat fuel ->
  exists res, scanRows data rotW rotH threshold s fuel y sk = Some res.
Proof.
  intros Hs. revert y sk; induction fuel as [|fuel IH]; intros y sk Hf;
    cbn [scanRows]; destruct (Z.ltb_spec y rotH) as [Hlt|Hge].
  - lia.
  - eauto.
  - apply IH. lia.
  - eauto.
Qed.

(** With a spacing of zero or less the raster loop of a canvas with rows
    never leaves them. *)
Lemma scanRows_stuck (s : Z) (fuel : nat) (y : Z) (sk : list Segment) :
  s <= 0 -> y < rotH ->
  scanRows data rotW rotH threshold s fuel y sk = None.
Proof.
  intros Hs. revert y sk; induction fuel as [|fuel IH]; intros y sk Hy;
    cbn [scanRows]; destruct (Z.ltb_spec y rotH) as [_|Hge]; try lia.
  - reflexivity.
  - apply IH. lia.
Qed.

Lemma scanCanvas_hangs (s : Z) :
  s <= 0 -> 0 < rotH -> scanCanvas data rotW rotH threshold s = None.
Proof. intros Hs Hh. apply scanRows_stuck; assumption. Qed.

Lemma row_sorted_raster (y : Z) :
  StronglySorted segBefore (scanRow data rotW rotH threshold y []).
Proof.
  destruct (scanRow_spec y) as (Hmem & Hsort).
  revert Hsort. apply sorted_weaken.
  intros p q Hp Hq Hpq. apply Hmem in Hp, Hq.
  destruct Hp as (a & b & -> & Hm), Hq as (a' & b' & -> & Hm').
  unfold endsBefore, segBefore, segAt, MaximalRun in *. simpl in *.
  right. split; [reflexivity|]. lia.
Qed.

(** The segments of the raster loop started at row [y]: the maximal runs of
    the rows [y], [y + s], ... below [rotH], in raster order. *)
Lemma scanRows_spec (s : Z) (fuel : nat) (y : Z) (res : list Segment) :
  1 <= s ->
  scanRows data rotW rotH threshold s fuel y [] = Some res ->
  (forall seg, In seg res <->
     exists y' a b, seg = segAt y' a b
                    /\ (exists i, 0 <= i /\ y' = y + i * s /\ y' < rotH)
                    /\ MaximalRun (dark y') rotW a b)
  /\ StronglySorted segBefore res.
Proof.
  intros Hs. revert y res; induction fuel as [|fuel IH]; intros y res;
    cbn [scanRows]; destruct (Z.ltb_spec y rotH) as [Hlt|Hge]; intros Hres;
    try discriminate.
  - injection Hres as <-. split; [|constructor].
    intros seg; split; [intros []|].
    intros (y' & a & b & _ & (i & Hi & -> & Hy) & _). nia.
  - rewrite <- (app_nil_r (scanRow _ _ _ _ y [])), scanRows_app in Hres.
    destruct (scanRows data rotW rotH threshold s fuel (y + s) []) as [rest|] eqn:Hrest;
      [|discriminate].
    injection Hres as <-.
    destruct (IH _ _ Hrest) as (Hmem & Hsort).
    destruct (scanRow_spec y) as (Hrow & _).
    assert (Hall : forall seg,
      In seg (scanRow data rotW rotH threshold y [] ++ rest) <->
      exists y' a b, seg = segAt y' a b
                     /\ (exists i, 0 <= i /\ y' = y + i * s /\ y' < rotH)
                     /\ MaximalRun (dark y') rotW a b).
    { intros seg. rewrite in_app_iff, Hrow, Hmem. split.
      - intros [(a & b & -> & Hm)|(y' & a & b & -> & (i & Hi & -> & Hy) & Hm)].
        + exists y, a, b. split; [reflexivity|]. split; [|assumption].
          exists 0. lia.
        + exists (y + s + i * s), a, b. split; [reflexivity|]. split; [|assumption].
          exists (i + 1). lia.
      - intros (y' & a & b & -> & (i & Hi & -> & Hy) & Hm).
        destruct (Z.eq_dec i 0) as [->|Hnz].
        + left. exists a, b. replace (y + 0 * s) with y in * by lia. auto.
        + right. exists (y + i * s), a, b. split; [reflexivity|]. split; [|assumption].
          exists (i - 1). lia. }
    split; [exact Hall|].
    apply sorted_app; [apply row_sorted_raster|assumption|].
    intros p q Hp Hq. apply Hrow in Hp. apply Hmem in Hq.
    destruct Hp as (a & b & -> & _).
    destruct Hq as (y' & a' & b' & -> & (i & Hi & -> & _) & _).
    unfold segBefore, segAt; simpl. left. nia.
  - injection Hres as <-. split; [|constructor].
    intros seg; split; [intros []|].
    intros (y' & a & b & _ & (i & Hi & -> & Hy) & _). nia.
Qed.

(** The raster loop, whole: it ends, and its segments are the maximal runs
    of the scanned rows, in raster order. *)
Lemma scanCanvas_spec (s : Z) :
  1 <= s ->
  exists segs,
    scanCanvas data rotW rotH threshold s = Some segs
    /\ (forall seg, In seg segs <->
          exists y a b, seg = segAt y a b /\ ScannedRow s rotH y
                        /\ MaximalRun (dark y) rotW a b)
    /\ StronglySorted segBefore segs.
Proof.
  intros Hs. unfold scanCanvas.
  destruct (scanRows_total s (Z.to_nat rotH) 0 [] Hs) as (segs & Hsegs); [lia|].
  exists segs. split; [assumption|].
  destruct (scanRows_spec s _ 0 segs Hs Hsegs) as (Hmem & Hsort).
  split; [|assumption].
  intros seg. rewrite Hmem. unfold ScannedRow.
  split; intros (y & a & b & -> & (i & Hi & Hy & Hlt) & Hm);
    exists y, a, b; (split; [reflexivity|]); (split; [|assumption]);
    exists i; repeat split; try assumption; lia.
Qed.

Lemma segBefore_irrefl (s : Segment) : ~ segBefore s s.
Proof. unfold segBefore. lia. Qed.

End RowLoop.

(** ** Rotator *)

(** [Math.ceil] gives the least integer not below its argument. *)
Lemma Math_ceil_spec (r : R) :
  (IZR (JS.Math_ceil r) - 1 < r <= IZR (JS.Math_ceil r))%R.
Proof.
  unfold JS.Math_ceil. rewrite minus_IZR.
  destruct (archimed (- r)) as [Hgt Hle]. split; lra.
Qed.

Lemma Math_ceil_unique (r : R) (z : Z) :
  (IZR z - 1 < r <= IZR z)%R -> JS.Math_ceil r = z.
Proof.
  intros [Hlo Hhi]. unfold JS.Math_ceil.
  assert (E : (1 - z)%Z = up (- r)).
  { apply tech_up; rewrite minus_IZR; lra. }
  lia.
Qed.

Lemma Math_ceil_IZR (z : Z) : JS.Math_ceil (IZR z) = z.
Proof. apply Math_ceil_unique. lra. Qed.

(** An angle of zero degrees leaves the size as it is. *)
Lemma rotatedSize_zero (targetW targetH : Z) (angleDeg : Q) :
  (angleDeg == 0)%Q -> rotatedSize targetW targetH angleDeg = (targetW, targetH).
Proof.
  intros Hq. unfold rotatedSize.
  assert (E : (Q2R angleDeg * PI / 180 = 0)%R).
  { rewrite (Qreals.Qeq_eqR _ _ Hq). unfold Q2R; simpl. lra. }
  rewrite E, cos_0, sin_0, Rabs_R1, Rabs_R0.
  f_equal.
  - replace (IZR targetW * 1 + IZR targetH * 0)%R with (IZR targetW) by lra.
    apply Math_ceil_IZR.
  - replace (IZR targetW * 0 + IZR targetH * 1)%R with (IZR targetH) by lra.
    apply Math_ceil_IZR.
Qed.

(** The rotated canvas is never smaller than it must be: both sizes are
    nonnegative when the source sizes are. *)
Lemma rotatedSize_nonneg (targetW targetH : Z) (angleDeg : Q) :
  0 <= targetW -> 0 <= targetH ->
  0 <= fst (rotatedSize targetW targetH angleDeg)
  /\ 0 <= snd (rotatedSize targetW targetH angleDeg).
Proof.
  intros Hw Hh. unfold rotatedSize; cbn [fst snd].
  apply IZR_le in Hw, Hh.
  set (c := Rabs (cos _)). set (s := Rabs (sin _)).
  assert (Hc : (0 <= c)%R) by apply Rabs_pos.
  assert (Hs : (0 <= s)%R) by apply Rabs_pos.
  split; apply le_IZR.
  - destruct (Math_ceil_spec (IZR targetW * c + IZR targetH * s)) as [_ H].
    eapply Rle_trans; [|exact H]. nra.
  - destruct (Math_ceil_spec (IZR targetW * s + IZR targetH * c)) as [_ H].
    eapply Rle_trans; [|exact H]. nra.
Qed.


(** A half turn of a ten by ten buffer.  [Math.sin(Math.PI)] is a little
    above zero, so the code makes the canvas eleven by eleven, one pixel
    more each way than the exact bounding box. *)
Lemma rotatedSizeDouble_half_turn :
  rotatedSizeDouble sampleCos sampleSin 10 10 180 = (11, 11).
Proof. vm_compute. reflexivity. Qed.

Lemma rotatedSize_half_turn : rotatedSize 10 10 180 = (10, 10).
Proof.
  unfold rotatedSize.
  replace (Q2R 180 * PI / 180)%R with PI by (unfold Q2R; simpl; field).
  rewrite cos_PI, sin_PI, Rabs_R0.
  replace (Rabs (-1)) with 1%R by (unfold Rabs; destruct Rcase_abs; lra).
  f_equal; apply Math_ceil_unique; lra.
Qed.

(** A quarter turn of a buffer ten wide and twenty high: twenty by eleven
    in doubles. *)
Lemma rotatedSizeDouble_quarter_turn :
  rotatedSizeDouble sampleCos sampleSin 10 20 90 = (20, 11).
Proof. vm_compute. reflexivity. Qed.




(** ** The run scanner: what it emits *)

Section ScannerClaims.

Variable data : list Z.
Variables rotW rotH : Z.
Variable threshold : Q.

#[local] Abbreviation dark y := (fun x => isDark data rotW rotH threshold x y).

Lemma dark_false_of_not_true (y x : Z) : dark y x <> true -> dark y x = false.
Proof. cbv beta. destruct (isDark _ _ _ _ x y); congruence. Qed.

(** A row whose dark columns are 2, 3, 4, 9 and 10 has the maximal runs
    2..4 and 9..10 and no other. *)
Lemma sample_row_runs (y a b : Z) :
  11 <= rotW ->
  (forall x, 0 <= x < rotW ->
     (dark y x = true <-> x = 2 \/ x = 3 \/ x = 4 \/ x = 9 \/ x = 10)) ->
  (MaximalRun (dark y) rotW a b <-> (a = 2 /\ b = 4) \/ (a = 9 /\ b = 10)).
Proof.
  intros Hw Hdark.
  assert (Hno : forall x, 0 <= x < rotW ->
            ~ (x = 2 \/ x = 3 \/ x = 4 \/ x = 9 \/ x = 10) -> dark y x = false).
  { intros x Hx Hn. apply dark_false_of_not_true. intros Ht.
    apply Hn, Hdark; assumption. }
  split.
  - intros (Ha & Hab & Hb & Hrun & Hl & Hr).
    assert (Hda : dark y a = true) by (apply Hrun; lia).
    assert (Hdb : dark y b = true) by (apply Hrun; lia).
    apply Hdark in Hda; [|lia]. apply Hdark in Hdb; [|lia].
    assert (Ha' : a = 2 \/ a = 9).
    { destruct Hl as [->|Hl]; [lia|].
      destruct (Z.eq_dec a 2); [auto|]. destruct (Z.eq_dec a 9); [auto|].
      exfalso. assert (Ht : dark y (a - 1) = true) by (apply Hdark; lia).
      congruence. }
    assert (Hb' : b = 4 \/ b = 10).
    { destruct (Z.eq_dec b 4); [auto|]. destruct (Z.eq_dec b 10); [auto|].
      exfalso. destruct Hr as [->|Hr]; [lia|].
      assert (Ht : dark y (b + 1) = true) by (apply Hdark; lia).
      congruence. }
    destruct Ha' as [->| ->], Hb' as [->| ->]; auto; try lia.
    exfalso. assert (Ht : dark y 5 = true) by (apply Hrun; lia).
    apply Hdark in Ht; lia.
  - intros [[-> ->]|[-> ->]]; unfold MaximalRun, DarkRun, LeftEdge, RightEdge.
    + repeat split; try lia.
      * intros x Hx. apply Hdark; lia.
      * right. apply Hno; lia.
      * right. apply Hno; lia.
    + repeat split; try lia.
      * intros x Hx. apply Hdark; lia.
      * right. apply Hno; lia.
      * destruct (Z.eq_dec rotW 11); [left; lia|right; apply Hno; lia].
Qed.

End ScannerClaims.

(** C1: for every scanned row the run scanner emits exactly one segment
    per maximal run of dark pixels, from the run's first column to its
    last: the raster loop ends, its segments are pairwise different, and a
    segment is emitted if and only if it spans a maximal run of a scanned
    row.  A row whose dark pixels are the columns 2, 3, 4, 9 and 10 gives
    the two segments (2,y)-(4,y) and (9,y)-(10,y), and a run of one pixel
    gives a segment whose start is its end. *)
Theorem scanner_emits_maximal_runs :
  (forall (data : list Z) (rotW rotH : Z) (threshold : Q) (lineSpacingPx : Z),
     1 <= lineSpacingPx ->
     exists segs,
       scanCanvas data rotW rotH threshold lineSpacingPx = Some segs
       /\ NoDup segs
       /\ (forall seg, In seg segs <->
             exists y a b,
               seg = (mkPoint a y, mkPoint b y)
               /\ ScannedRow lineSpacingPx rotH y
               /\ MaximalRun (fun x => isDark data rotW rotH threshold x y)
                             rotW a b)
       /\ (forall y, ScannedRow lineSpacingPx rotH y -> 11 <= rotW ->
             (forall x, 0 <= x < rotW ->
                (isDark data rotW rotH threshold x y = true
                 <-> x = 2 \/ x = 3 \/ x = 4 \/ x = 9 \/ x = 10)) ->
             forall seg, In seg segs /\ pt_y (seg_start seg) = y <->
                         seg = (mkPoint 2 y, mkPoint 4 y)
                         \/ seg = (mkPoint 9 y, mkPoint 10 y))
       /\ (forall y x, ScannedRow lineSpacingPx rotH y ->
             IsolatedDark (fun x => isDark data rotW rotH threshold x y) rotW x ->
             exists seg, In seg segs /\ seg_start seg = mkPoint x y
                         /\ seg_end seg = seg_start seg))
  /\ scanCanvas sampleRow 12 1 (128 # 1) 1
     = Some [(mkPoint 2 0, mkPoint 4 0); (mkPoint 9 0, mkPoint 10 0)]
  /\ scanCanvas sampleLoneRow 4 1 (128 # 1) 1
     = Some [(mkPoint 0 0, mkPoint 0 0); (mkPoint 2 0, mkPoint 3 0)].
Proof.
  split; [|split; reflexivity].
  intros data rotW rotH threshold s Hs.
  destruct (scanCanvas_spec data rotW rotH threshold s Hs)
    as (segs & Hsome & Hmem & Hsort).
  exists segs. split; [assumption|]. split.
  { eapply sorted_NoDup; [exact segBefore_irrefl|eassumption]. }
  split; [exact Hmem|]. split.
  - intros y Hy Hw Hdark seg. split.
    + intros [Hin Hrow]. apply Hmem in Hin.
      destruct Hin as (y' & a & b & -> & _ & Hm). cbn in Hrow. subst y'.
      apply (sample_row_runs data rotW rotH threshold y a b Hw Hdark) in Hm.
      destruct Hm as [[-> ->]|[-> ->]]; auto.
    + intros [-> | ->]; (split; [|reflexivity]); apply Hmem.
      * exists y, 2, 4. split; [reflexivity|]. split; [assumption|].
        apply (sample_row_runs data rotW rotH threshold y 2 4 Hw Hdark). auto.
      * exists y, 9, 10. split; [reflexivity|]. split; [assumption|].
        apply (sample_row_runs data rotW rotH threshold y 9 10 Hw Hdark). auto.
  - intros y x Hy Hiso. exists (mkPoint x y, mkPoint x y).
    split; [|split; reflexivity].
    apply Hmem. exists y, x, x. auto.
Qed.

(** The scanner on the sample row, a row every pixel. *)
Lemma scanner_emits_maximal_runs_witness :
  1 <= 1
  /\ exists segs,
       scanCanvas sampleRow 12 1 (128 # 1) 1 = Some segs
       /\ NoDup segs
       /\ (forall seg, In seg segs <->
             exists y a b,
               seg = (mkPoint a y, mkPoint b y)
               /\ ScannedRow 1 1 y
               /\ MaximalRun (fun x => isDark sampleRow 12 1 (128 # 1) x y)
                             12 a b).
Proof.
  split; [lia|].
  destruct (proj1 scanner_emits_maximal_runs sampleRow 12 1 (128 # 1) 1)
    as (segs & H1 & H2 & H3 & _); [lia|].
  exists segs. auto.
Defined.

(** ** One pass *)

(** What a pass that returns has gone through. *)
Lemma extract_ret (canvas : Canvas) (image : Image) (targetW targetH : Z)
    (angleDeg : Q) (lineSpacingPx : Z) (threshold : Q)
    (sts : list PixelStroke) :
  extractStrokesFromImage canvas image targetW targetH angleDeg lineSpacingPx
                          threshold = Ret sts ->
  exists data segs,
    canvas image targetW targetH angleDeg
           (fst (rotatedSize targetW targetH angleDeg))
           (snd (rotatedSize targetW targetH angleDeg)) = Some data
    /\ scanCanvas data (fst (rotatedSize targetW targetH angleDeg))
                  (snd (rotatedSize targetW targetH angleDeg))
                  threshold lineSpacingPx = Some segs
    /\ sts = simpleStrokes segs.
Proof.
  unfold extractStrokesFromImage.
  destruct (rotatedSize targetW targetH angleDeg) as [rotW rotH]. cbn [fst snd].
  destruct (canvas image targetW targetH angleDeg rotW rotH) as [data|] eqn:Hc;
    cbn [orThrow bind]; [|discriminate].
  destruct (scanCanvas data rotW rotH threshold lineSpacingPx) as [segs|] eqn:Hs;
    cbn [orDiverge bind]; [|discriminate].
  intros E; injection E as <-. exists data, segs. auto.
Qed.

(** A pass at angle 0 scans a canvas of the size of the scaled image. *)
Lemma extract_at_zero (canvas : Canvas) (image : Image) (targetW targetH : Z)
    (angleDeg : Q) (lineSpacingPx : Z) (threshold : Q) :
  (angleDeg == 0)%Q ->
  extractStrokesFromImage canvas image targetW targetH angleDeg lineSpacingPx
                          threshold
  = (data <- orThrow (canvas image targetW targetH angleDeg targetW targetH) ;;
     sk <- orDiverge (scanCanvas data targetW targetH threshold lineSpacingPx) ;;
     Ret (simpleStrokes sk)).
Proof.
  intros Hq. unfold extractStrokesFromImage.
  rewrite (rotatedSize_zero targetW targetH angleDeg Hq). reflexivity.
Qed.

(** The pass of the sample job: five rows, one stroke each. *)
Lemma sample_pass :
  extractStrokesFromImage blackCanvas sampleImage 10 10 (0 # 1) 2 (128 # 1)
  = Ret [ [mkPoint 0 0; mkPoint 9 0]; [mkPoint 0 2; mkPoint 9 2];
          [mkPoint 0 4; mkPoint 9 4]; [mkPoint 0 6; mkPoint 9 6];
          [mkPoint 0 8; mkPoint 9 8] ].
Proof. rewrite extract_at_zero by reflexivity. vm_compute. reflexivity. Qed.

(** Every segment of the raster loop lies on the canvas, on one scanned
    row. *)
Lemma scanCanvas_bounds (data : list Z) (rotW rotH : Z) (threshold : Q)
    (lineSpacingPx : Z) (segs : list Segment) :
  1 <= lineSpacingPx ->
  scanCanvas data rotW rotH threshold lineSpacingPx = Some segs ->
  forall seg, In seg segs ->
    0 <= pt_x (seg_start seg) < rotW /\ 0 <= pt_x (seg_end seg) < rotW
    /\ 0 <= pt_y (seg_start seg) < rotH /\ 0 <= pt_y (seg_end seg) < rotH
    /\ pt_y (seg_start seg) = pt_y (seg_end seg)
    /\ ScannedRow lineSpacingPx rotH (pt_y (seg_start seg)).
Proof.
  intros Hs Hsome seg Hin.
  destruct (scanCanvas_spec data rotW rotH threshold lineSpacingPx Hs)
    as (segs' & Hsome' & Hmem & _).
  rewrite Hsome in Hsome'. injection Hsome' as <-.
  apply Hmem in Hin. destruct Hin as (y & a & b & -> & Hrow & Hm).
  unfold seg_start, seg_end, segAt; cbn [fst snd pt_x pt_y].
  assert (Hy : 0 <= y < rotH).
  { destruct Hrow as (i & Hi & -> & Hlt). split; [nia|assumption]. }
  unfold MaximalRun in Hm. repeat split; try lia. assumption.
Qed.

(** C2: every segment a pass produces has both points on that pass's
    rotated canvas, [0 <= x < rotW] and [0 <= y < rotH], and lies on one
    row; its row is a multiple of the row spacing below [rotH].  This holds
    of the segments of the raster loop and of the strokes
    [extractStrokesFromImage] returns. *)
Theorem segments_within_canvas :
  (forall (data : list Z) (rotW rotH : Z) (threshold : Q) (lineSpacingPx : Z)
          (segs : list Segment),
     1 <= lineSpacingPx ->
     scanCanvas data rotW rotH threshold lineSpacingPx = Some segs ->
     forall seg, In seg segs ->
       0 <= pt_x (seg_start seg) < rotW /\ 0 <= pt_x (seg_end seg) < rotW
       /\ 0 <= pt_y (seg_start seg) < rotH /\ 0 <= pt_y (seg_end seg) < rotH
       /\ pt_y (seg_start seg) = pt_y (seg_end seg)
       /\ ScannedRow lineSpacingPx rotH (pt_y (seg_start seg)))
  /\ (forall (canvas : Canvas) (image : Image) (targetW targetH : Z)
             (angleDeg : Q) (lineSpacingPx : Z) (threshold : Q)
             (sts : list PixelStroke),
        1 <= lineSpacingPx ->
        extractStrokesFromImage canvas image targetW targetH angleDeg
                                lineSpacingPx threshold = Ret sts ->
        let rotW := fst (rotatedSize targetW targetH angleDeg) in
        let rotH := snd (rotatedSize targetW targetH angleDeg) in
        forall st, In st sts ->
          exists p q,
            st = [p; q]
            /\ 0 <= pt_x p < rotW /\ 0 <= pt_x q < rotW
            /\ 0 <= pt_y p < rotH /\ 0 <= pt_y q < rotH
            /\ pt_y p = pt_y q
            /\ ScannedRow lineSpacingPx rotH (pt_y p)).
Proof.
  split; [exact scanCanvas_bounds|].
  intros canvas image targetW targetH angleDeg s threshold sts Hs Hret
         rotW rotH st Hin.
  destruct (extract_ret _ _ _ _ _ _ _ _ Hret) as (data & segs & _ & Hscan & ->).
  unfold simpleStrokes in Hin. apply in_map_iff in Hin.
  destruct Hin as (seg & <- & Hseg).
  pose proof (scanCanvas_bounds _ _ _ _ _ _ Hs Hscan seg Hseg) as Hb.
  destruct seg as [[a y] [b y']]. unfold seg_start, seg_end in Hb.
  cbn [fst snd pt_x pt_y] in *.
  eexists; eexists. split; [reflexivity|]. cbn [pt_x pt_y].
  rewrite !Z.add_0_r. exact Hb.
Qed.

(** The bounds at the second segment of the sample row and at the third
    stroke of the pass of the sample job. *)
Lemma segments_within_canvas_witness :
  (1 <= 1
   /\ scanCanvas sampleRow 12 1 (128 # 1) 1
      = Some [(mkPoint 2 0, mkPoint 4 0); (mkPoint 9 0, mkPoint 10 0)]
   /\ 0 <= pt_x (seg_start (mkPoint 9 0, mkPoint 10 0)) < 12
   /\ 0 <= pt_x (seg_end (mkPoint 9 0, mkPoint 10 0)) < 12
   /\ 0 <= pt_y (seg_start (mkPoint 9 0, mkPoint 10 0)) < 1
   /\ ScannedRow 1 1 (pt_y (seg_start (mkPoint 9 0, mkPoint 10 0))))
  /\ (1 <= 2
      /\ exists p q,
           [mkPoint 0 4; mkPoint 9 4] = [p; q]
           /\ 0 <= pt_x p < fst (rotatedSize 10 10 (0 # 1))
           /\ 0 <= pt_x q < fst (rotatedSize 10 10 (0 # 1))
           /\ 0 <= pt_y p < snd (rotatedSize 10 10 (0 # 1))
           /\ 0 <= pt_y q < snd (rotatedSize 10 10 (0 # 1))
           /\ pt_y p = pt_y q
           /\ ScannedRow 2 (snd (rotatedSize 10 10 (0 # 1))) (pt_y p)).
Proof.
  split.
  - split; [lia|]. split; [reflexivity|].
    destruct (proj1 segments_within_canvas sampleRow 12 1 (128 # 1) 1
                [(mkPoint 2 0, mkPoint 4 0); (mkPoint 9 0, mkPoint 10 0)])
      with (seg := (mkPoint 9 0, mkPoint 10 0))
      as (H1 & H2 & H3 & _ & _ & H6);
      [lia|reflexivity|simpl; auto|].
    auto.
  - split; [lia|].
    apply (proj2 segments_within_canvas blackCanvas sampleImage 10 10 (0 # 1)
                 2 (128 # 1) _ ltac:(lia) sample_pass).
    simpl; auto.
Defined.

(** C10: every segment the run scanner emits has its start at or left of
    its end: they are the first and the last column of a maximal run of
    dark pixels of its row, and they coincide exactly when that run is one
    dark pixel with no dark neighbour in the row. *)
Theorem segment_start_not_after_end
    (data : list Z) (rotW rotH : Z) (threshold : Q) (lineSpacingPx : Z)
    (segs : list Segment) :
  1 <= lineSpacingPx ->
  scanCanvas data rotW rotH threshold lineSpacingPx = Some segs ->
  forall seg, In seg segs ->
    let dark := fun x => isDark data rotW rotH threshold x
                                (pt_y (seg_start seg)) in
    pt_x (seg_start seg) <= pt_x (seg_end seg)
    /\ MaximalRun dark rotW (pt_x (seg_start seg)) (pt_x (seg_end seg))
    /\ (pt_x (seg_start seg) = pt_x (seg_end seg)
        <-> IsolatedDark dark rotW (pt_x (seg_start seg)))
    /\ (pt_x (seg_start seg) = pt_x (seg_end seg)
        <-> seg_start seg = seg_end seg).
Proof.
  intros Hs Hsome seg Hin.
  destruct (scanCanvas_spec data rotW rotH threshold lineSpacingPx Hs)
    as (segs' & Hsome' & Hmem & _).
  rewrite Hsome in Hsome'. injection Hsome' as <-.
  apply Hmem in Hin. destruct Hin as (y & a & b & -> & _ & Hm).
  unfold seg_start, seg_end, segAt; cbn [fst snd pt_x pt_y].
  split; [unfold MaximalRun in Hm; lia|]. split; [exact Hm|]. split.
  - unfold IsolatedDark. split.
    + intros <-. exact Hm.
    + intros (_ & _ & _ & _ & _ & Hr).
      destruct Hm as (Ha & Hab & Hb & Hrun & _ & _).
      destruct (Z.eq_dec a b) as [|Hne]; [assumption|exfalso].
      destruct Hr as [->|Hr]; [lia|].
      rewrite (Hrun (a + 1)) in Hr by lia. discriminate.
  - split; [intros ->; reflexivity|]. intros E; injection E; auto.
Qed.

(** The lone dark pixel of the sample row with a lone pixel. *)
Lemma segment_start_not_after_end_witness :
  1 <= 1
  /\ scanCanvas sampleLoneRow 4 1 (128 # 1) 1
     = Some [(mkPoint 0 0, mkPoint 0 0); (mkPoint 2 0, mkPoint 3 0)]
  /\ In (mkPoint 0 0, mkPoint 0 0)
        [(mkPoint 0 0, mkPoint 0 0); (mkPoint 2 0, mkPoint 3 0)]
  /\ (0 = 0 <-> IsolatedDark (fun x => isDark sampleLoneRow 4 1 (128 # 1) x 0)
                              4 0).
Proof.
  split; [lia|]. split; [reflexivity|]. split; [simpl; auto|].
  destruct (segment_start_not_after_end sampleLoneRow 4 1 (128 # 1) 1
              [(mkPoint 0 0, mkPoint 0 0); (mkPoint 2 0, mkPoint 3 0)])
    with (seg := (mkPoint 0 0, mkPoint 0 0)) as (_ & _ & H3 & _);
    [lia|reflexivity|simpl; auto|].
  exact H3.
Defined.

(** ** Rounding and remainder *)

Lemma Qfloor_unique (x : Q) (n : Z) :
  (inject_Z n <= x < inject_Z (n + 1))%Q -> Qfloor x = n.
Proof.
  intros [Hlo Hhi].
  pose proof (Qfloor_le x) as Hf. pose proof (Qlt_floor x) as Hg.
  assert (Qfloor x < n + 1).
  { rewrite Zlt_Qlt. eapply Qle_lt_trans; eassumption. }
  assert (n < Qfloor x + 1).
  { rewrite Zlt_Qlt. eapply Qle_lt_trans; eassumption. }
  lia.
Qed.

Lemma Qceiling_unique (x : Q) (n : Z) :
  (inject_Z (n - 1) < x <= inject_Z n)%Q -> Qceiling x = n.
Proof.
  intros [Hlo Hhi].
  pose proof (Qle_ceiling x) as Hf. pose proof (Qceiling_lt x) as Hg.
  assert (n - 1 < Qceiling x).
  { rewrite Zlt_Qlt. eapply Qlt_le_trans; eassumption. }
  assert (Qceiling x - 1 < n).
  { rewrite Zlt_Qlt. eapply Qlt_le_trans; eassumption. }
  lia.
Qed.

(** [Math.round] gives the integer nearest to its argument, the upper one
    of two. *)
Lemma Math_round_spec (x : Q) :
  (inject_Z (JS.Math_round x) - (1 # 2) <= x
   < inject_Z (JS.Math_round x) + (1 # 2))%Q.
Proof.
  unfold JS.Math_round.
  pose proof (Qfloor_le (x + (1 # 2))) as Hf.
  pose proof (Qlt_floor (x + (1 # 2))) as Hg.
  rewrite inject_Z_plus in Hg. change (inject_Z 1) with 1%Q in Hg.
  split; lra.
Qed.

Lemma Math_round_unique (x : Q) (n : Z) :
  (inject_Z n - (1 # 2) <= x < inject_Z n + (1 # 2))%Q -> JS.Math_round x = n.
Proof.
  intros [Hlo Hhi]. unfold JS.Math_round. apply Qfloor_unique.
  rewrite inject_Z_plus. change (inject_Z 1) with 1%Q. split; lra.
Qed.

Lemma Math_round_inject (n : Z) : JS.Math_round (inject_Z n) = n.
Proof. apply Math_round_unique. split; lra. Qed.

(** The remainder by 360: the dividend less a whole number of turns, of
    the sign of the dividend and less than a turn. *)
Lemma rem_360_spec (a : Q) :
  (JS.rem a 360 == a - 360 * inject_Z (JS.trunc (a / 360)))%Q
  /\ (- (360) < JS.rem a 360 < 360)%Q
  /\ (0 <= a -> 0 <= JS.rem a 360)%Q
  /\ (a <= 0 -> JS.rem a 360 <= 0)%Q.
Proof.
  split; [reflexivity|].
  unfold JS.rem, JS.trunc.
  assert (Ha : (a == 360 * (a / 360))%Q) by (field; discriminate).
  set (q := (a / 360)%Q) in *.
  destruct (Qle_bool 0 q) eqn:Hq.
  - apply Qle_bool_iff in Hq.
    pose proof (Qfloor_le q) as Hf. pose proof (Qlt_floor q) as Hg.
    rewrite inject_Z_plus in Hg. change (inject_Z 1) with 1%Q in Hg.
    split; [split|split]; intros; try lra.
    assert (E : Qfloor q = 0).
    { apply Qfloor_unique. change (inject_Z 0) with 0%Q.
      change (inject_Z (0 + 1)) with 1%Q. split; lra. }
    rewrite E. change (inject_Z 0) with 0%Q. lra.
  - assert (Hneg : (q < 0)%Q).
    { apply Qnot_le_lt. intros H. apply Qle_bool_iff in H. congruence. }
    pose proof (Qle_ceiling q) as Hf. pose proof (Qceiling_lt q) as Hg.
    unfold Zminus in Hg. rewrite inject_Z_plus in Hg.
    change (inject_Z (Z.opp 1)) with (- (1))%Q in Hg.
    split; [split|split]; intros; lra.
Qed.

(** Below a full turn the remainder by 360 changes nothing. *)
Lemma rem_360_small (a : Q) :
  (0 <= a < 360)%Q -> (JS.rem a 360 == a)%Q.
Proof.
  intros [Hlo Hhi]. unfold JS.rem, JS.trunc.
  assert (Ha : (a == 360 * (a / 360))%Q) by (field; discriminate).
  set (q := (a / 360)%Q) in *.
  assert (Hq : Qle_bool 0 q = true) by (apply Qle_bool_iff; lra).
  rewrite Hq.
  assert (E : Qfloor q = 0).
  { apply Qfloor_unique. change (inject_Z 0) with 0%Q.
    change (inject_Z (0 + 1)) with 1%Q. split; lra. }
  rewrite E. change (inject_Z 0) with 0%Q. lra.
Qed.

(** ** The pass angles *)

Lemma passAngles_map (angleDeg : Q) (passes : Z) :
  passAngles angleDeg passes = map (passAngle angleDeg passes) (JS.range passes).
Proof. unfold passAngles. apply (fold_push_map (passAngle angleDeg passes)). Qed.

Lemma passAngles_length (angleDeg : Q) (passes : Z) :
  length (passAngles angleDeg passes) = Z.to_nat passes.
Proof. now rewrite passAngles_map, length_map, length_range. Qed.

Lemma passAngles_nth (angleDeg : Q) (passes p : Z) :
  0 <= p < passes ->
  nth_error (passAngles angleDeg passes) (Z.to_nat p)
  = Some (passAngle angleDeg passes p).
Proof.
  intros Hp. rewrite passAngles_map. apply map_nth_error.
  unfold JS.range.
  replace (Some p) with (Some (Z.of_nat (Z.to_nat p))) by (f_equal; lia).
  apply map_nth_error.
  rewrite (nth_error_nth' _ O) by (rewrite length_seq; lia).
  rewrite seq_nth by lia. reflexivity.
Qed.

(** The share of the half turn that pass [p] of [passes] adds. *)
Lemma pass_offset_bounds (passes p : Z) :
  0 <= p < passes ->
  (0 <= inject_Z p * 180 / inject_Z passes < 180)%Q.
Proof.
  intros Hp.
  assert (HN : (0 < inject_Z passes)%Q).
  { change 0%Q with (inject_Z 0). rewrite <- Zlt_Qlt. lia. }
  assert (HP : (0 <= inject_Z p)%Q).
  { change 0%Q with (inject_Z 0). rewrite <- Zle_Qle. lia. }
  assert (HPN : (inject_Z p < inject_Z passes)%Q).
  { rewrite <- Zlt_Qlt. lia. }
  split.
  - apply Qle_shift_div_l; [assumption|]. lra.
  - apply Qlt_shift_div_r; [assumption|]. lra.
Qed.

Lemma angleDeg_of_some (inp : Inputs) (base : Q) :
  angle_in inp = Some base -> (angleDeg_of inp == base)%Q.
Proof.
  intros E. unfold angleDeg_of. rewrite E.
  destruct (Qeq_bool base 0) eqn:Hb; [|reflexivity].
  apply Qeq_bool_iff in Hb. symmetry. exact Hb.
Qed.

Lemma passes_of_some (inp : Inputs) (N : Z) :
  passes_in inp = Some N -> 1 <= N -> passes_of inp = N.
Proof.
  intros E HN. unfold passes_of, JS.Math_max. rewrite E.
  destruct (Z.eqb_spec N 0); lia.
Qed.

Lemma passes_of_positive (inp : Inputs) : 1 <= passes_of inp.
Proof. unfold passes_of, JS.Math_max. lia. Qed.

(** C4, as stated, fails: a base angle of -90 degrees with one pass gives
    the pass angle -90, which is not in [0, 360). *)
Lemma pass_angle_below_zero :
  ~ (forall a,
       In a (passAngles (angleDeg_of negativeAngleInputs)
                        (passes_of negativeAngleInputs)) ->
       (0 <= a < 360)%Q).
Proof.
  intros H.
  assert (E : passAngles (angleDeg_of negativeAngleInputs)
                         (passes_of negativeAngleInputs) = [(-90 # 1)%Q])
    by reflexivity.
  rewrite E in H. destruct (H (-90 # 1)%Q (or_introl eq_refl)) as [H0 _].
  revert H0. unfold Qle; simpl. lia.
Qed.

(** C4, amended: for a base angle and a pass count [N >= 1] the
    orchestrator computes exactly [N] pass angles, the one of pass [p] being
    the remainder of [x = base + p * 180 / N] by 360, with the sign of [x]:
    it differs from [x] by a whole number of turns and lies strictly
    between -360 and 360, in [0, 360) when [x] (in particular when the base
    angle) is not negative and in (-360, 0] when [x] is not positive.  For
    base angle 0 the angles are [p * 180 / N]. *)
Theorem pass_angles_spread (inp : Inputs) (base : Q) (N : Z) :
  angle_in inp = Some base -> passes_in inp = Some N -> 1 <= N ->
  let angles := passAngles (angleDeg_of inp) (passes_of inp) in
  (angleDeg_of inp == base)%Q
  /\ passes_of inp = N
  /\ length angles = Z.to_nat N
  /\ forall p, 0 <= p < N ->
       let x := (angleDeg_of inp + inject_Z p * 180 / inject_Z N)%Q in
       nth_error angles (Z.to_nat p) = Some (JS.rem x 360)
       /\ (exists k : Z, JS.rem x 360 == x - 360 * inject_Z k)%Q
       /\ (- (360) < JS.rem x 360 < 360)%Q
       /\ (0 <= x -> 0 <= JS.rem x 360 < 360)%Q
       /\ (x <= 0 -> - (360) < JS.rem x 360 <= 0)%Q
       /\ (0 <= base -> 0 <= JS.rem x 360 < 360)%Q
       /\ (base == 0 -> JS.rem x 360 == inject_Z p * 180 / inject_Z N)%Q.
Proof.
  intros Ha Hp HN angles.
  pose proof (angleDeg_of_some inp base Ha) as HA.
  pose proof (passes_of_some inp N Hp HN) as HP.
  subst angles. rewrite HP.
  split; [assumption|]. split; [reflexivity|].
  split; [apply passAngles_length|].
  intros p Hp' x.
  pose proof (pass_offset_bounds N p Hp') as Hoff.
  destruct (rem_360_spec x) as (Hk & Hb & Hpos & Hneg).
  split; [apply passAngles_nth; assumption|].
  split; [exists (JS.trunc (x / 360)); exact Hk|].
  split; [exact Hb|].
  split; [intros Hx; split; [apply Hpos; assumption|apply Hb]|].
  split; [intros Hx; split; [apply Hb|apply Hneg; assumption]|].
  split.
  - intros Hbase. split; [|apply Hb]. apply Hpos. subst x. lra.
  - intros Hbase. rewrite rem_360_small; subst x; lra.
Qed.

(** Three passes from a base angle of 0: the angles 0, 60 and 120. *)
Lemma pass_angles_spread_witness :
  angle_in (mkInputs (10 # 1) (1 # 1) (2 # 1) 128 (Some (0 # 1)) (Some 3))
  = Some (0 # 1)
  /\ 1 <= 3
  /\ length (passAngles
               (angleDeg_of (mkInputs (10 # 1) (1 # 1) (2 # 1) 128
                                      (Some (0 # 1)) (Some 3)))
               (passes_of (mkInputs (10 # 1) (1 # 1) (2 # 1) 128
                                    (Some (0 # 1)) (Some 3))))
     = 3%nat.
Proof.
  split; [reflexivity|]. split; [lia|].
  destruct (pass_angles_spread
              (mkInputs (10 # 1) (1 # 1) (2 # 1) 128 (Some (0 # 1)) (Some 3))
              (0 # 1) 3) as (_ & _ & H & _);
    [reflexivity|reflexivity|lia|].
  exact H.
Defined.

(** ** The target size *)

Lemma targetPxWidth_positive (inp : Inputs) : 1 <= targetPxWidth inp.
Proof. unfold targetPxWidth, JS.Math_max. lia. Qed.

Lemma lineSpacingPx_positive (inp : Inputs) : 1 <= lineSpacingPx_of inp.
Proof. unfold lineSpacingPx_of, JS.Math_max. lia. Qed.

(** The target size on two jobs where the rounding of doubles decides.
    Fifteen rows at a scale of 41 / 10 come to 61.49999999999999 and so to
    61 rows, where the exact product 61.5 would give 62. *)
Lemma target_height_portrait :
  targetPxWidth portraitInputs = 41
  /\ targetPxHeight portraitInputs portraitImage = 61
  /\ JS.Math_round (15 * ((41 # 1) / (10 # 1))) = 62.
Proof. vm_compute. repeat split; reflexivity. Qed.

(** The double of 1.15 is a little below it; ten times it is the double
    11.5 and rounds to 12, where the exact product would give 11. *)
Lemma target_width_narrow :
  targetPxWidth narrowInputs = 12
  /\ JS.Math_round (widthMM narrowInputs * pxPerMM narrowInputs) = 11.
Proof. vm_compute. split; reflexivity. Qed.

(** C6: for a target width, a resolution and an image of positive natural
    width, [targetPxWidth] is [widthMM * pxPerMM] rounded to the nearest
    integer and raised to 1 if below, [scale] is [targetPxWidth] over the
    natural width, and [targetPxHeight] is the natural height times [scale]
    rounded to the nearest integer, each product and quotient being the
    double the code computes: a double nearest to the exact result, and
    within a relative error of [2 ^ -53] of it.  So the height is within
    one half and a relative error of [2 ^ -51] of the natural height times
    the exact ratio. *)
Theorem rasterizer_target_size (inp : Inputs) (image : Image) :
  0 < naturalWidth image < 2 ^ 53 -> 0 <= naturalHeight image ->
  let x := (widthMM inp * pxPerMM inp)%Q in
  let w := Double.fl x in
  let r := (inject_Z (targetPxWidth inp) / inject_Z (naturalWidth image))%Q in
  let y := (inject_Z (naturalHeight image) * r)%Q in
  let h := Double.fl (inject_Z (naturalHeight image) * scale inp image) in
  targetPxWidth inp = Z.max 1 (JS.Math_round w)
  /\ (inject_Z (JS.Math_round w) - (1 # 2) <= w
      < inject_Z (JS.Math_round w) + (1 # 2))%Q
  /\ Double.nearestDouble x w
  /\ (Qabs (w - x) <= Qabs x * Double.pow2 (-53) + Double.pow2 (-1075))%Q
  /\ 1 <= targetPxWidth inp
  /\ scale inp image = Double.fl r
  /\ Double.nearestDouble r (scale inp image)
  /\ (Qabs (scale inp image - r) <= r * Double.pow2 (-53))%Q
  /\ targetPxHeight inp image = JS.Math_round h
  /\ Double.nearestDouble (inject_Z (naturalHeight image) * scale inp image) h
  /\ (inject_Z (targetPxHeight inp image) - (1 # 2) <= h
      < inject_Z (targetPxHeight inp image) + (1 # 2))%Q
  /\ (Qabs (inject_Z (targetPxHeight inp image) - y)
      <= (1 # 2) + y * Double.pow2 (-51))%Q.
Proof.
  intros [Hnw Hnw53] Hnh x w r y h.
  pose proof (targetPxWidth_positive inp) as Htw.
  set (tw := targetPxWidth inp) in *.
  set (nw := naturalWidth image) in *. set (nh := naturalHeight image) in *.
  assert (HNW : (0 < inject_Z nw)%Q).
  { change 0%Q with (inject_Z 0). rewrite <- Zlt_Qlt. assumption. }
  assert (HNW53 : (inject_Z nw < inject_Z (2 ^ 53))%Q)
    by (rewrite <- Zlt_Qlt; assumption).
  assert (HTW : (1 <= inject_Z tw)%Q).
  { change 1%Q with (inject_Z 1). rewrite <- Zle_Qle. assumption. }
  assert (HNH : (0 <= inject_Z nh)%Q).
  { change 0%Q with (inject_Z 0). rewrite <- Zle_Qle. assumption. }
  assert (Hr : (r * inject_Z nw == inject_Z tw)%Q) by (subst r; field; lra).
  assert (Hrpos : (0 < r)%Q) by (subst r; apply Qlt_shift_div_l; lra).
  assert (Hrlow : (Double.pow2 (-53) <= r)%Q).
  { subst r. apply Qle_shift_div_l; [assumption|].
    change (Double.pow2 (-53)) with (1 # 9007199254740992)%Q.
    change (inject_Z (2 ^ 53)) with (9007199254740992 # 1)%Q in HNW53. lra. }
  assert (Hrabs : (Qabs r == r)%Q) by (apply Qabs_pos; lra).
  assert (Hscale : (Qabs (scale inp image - r) <= r * Double.pow2 (-53))%Q).
  { unfold scale. fold tw nw r. rewrite <- Hrabs at 3.
    apply fl_error_normal. rewrite Hrabs.
    eapply Qle_trans; [|exact Hrlow]. apply pow2_le. lia. }
  split; [reflexivity|]. split; [apply Math_round_spec|].
  split; [apply fl_nearestDouble|].
  split; [apply fl_error|]. split; [assumption|].
  split; [reflexivity|]. split; [apply fl_nearestDouble|].
  split; [exact Hscale|].
  split; [reflexivity|]. split; [apply fl_nearestDouble|].
  split; [apply Math_round_spec|].
  pose proof (Math_round_spec h) as [Hlo Hhi].
  change (JS.Math_round h) with (targetPxHeight inp image) in Hlo, Hhi.
  set (th := inject_Z (targetPxHeight inp image)) in *.
  set (sc := scale inp image) in *.
  apply Qabs_Qle_condition in Hscale. destruct Hscale as [S1 S2].
  assert (E53 : (Double.pow2 (-53) == 1 # 9007199254740992)%Q) by reflexivity.
  assert (E51 : (Double.pow2 (-51) == 4 * Double.pow2 (-53))%Q) by reflexivity.
  set (eps := Double.pow2 (-53)) in *.
  assert (Heps : (0 < eps <= 1 # 2)%Q) by (rewrite E53; split; lra).
  assert (Hh : (Qabs (h - inject_Z nh * sc) <= inject_Z nh * sc * eps)%Q).
  { destruct (Z.eq_dec nh 0) as [Z|NZ].
    - assert (Hz : (inject_Z nh * sc == 0)%Q) by (rewrite Z; ring).
      subst h. rewrite (fl_zero _ Hz), Hz.
      change (Qabs (0 - 0)) with 0%Q. lra.
    - assert (H1 : (1 <= inject_Z nh)%Q).
      { change 1%Q with (inject_Z 1). rewrite <- Zle_Qle. lia. }
      assert (Hsc : (r * (1 # 2) <= sc)%Q) by nra.
      assert (Hpos : (0 <= inject_Z nh * sc)%Q) by nra.
      assert (Habs : (Qabs (inject_Z nh * sc) == inject_Z nh * sc)%Q)
        by (apply Qabs_pos; assumption).
      subst h. rewrite <- Habs at 3. apply fl_error_normal. rewrite Habs.
      apply Qle_trans with (Double.pow2 (-54)); [apply pow2_le; lia|].
      assert (E54 : (Double.pow2 (-54) == eps * (1 # 2))%Q) by reflexivity.
      rewrite E54. nra. }
  apply Qabs_Qle_condition in Hh. destruct Hh as [H1 H2].
  rewrite E51. subst y. apply Qabs_Qle_condition.
  assert (Hy : (0 <= inject_Z nh * r)%Q) by nra.
  assert (Hsc2 : (sc <= 2 * r)%Q) by nra.
  assert (Hsc0 : (0 <= sc)%Q) by nra.
  split; nra.
Qed.

(** The sample job: ten by ten pixels from a ten by ten image. *)
Lemma rasterizer_target_size_witness :
  0 < naturalWidth sampleImage < 2 ^ 53
  /\ 0 <= naturalHeight sampleImage
  /\ targetPxWidth sampleInputs = 10
  /\ targetPxHeight sampleInputs sampleImage = 10.
Proof.
  split; [split; reflexivity|]. split; [discriminate|].
  destruct (rasterizer_target_size sampleInputs sampleImage)
    as (H1 & _ & _ & _ & _ & _ & _ & _ & H7 & _);
    [split; reflexivity|discriminate|].
  split; [exact H1|exact H7].
Defined.

(** ** The passes of a click *)

Section Passes.

Variable canvas : Canvas.
Variable image : Image.
Variables targetW targetH lineSpacingPx : Z.
Variable threshold : Q.

#[local] Abbreviation extract ang :=
  (extractStrokesFromImage canvas image targetW targetH ang lineSpacingPx
                           threshold).
#[local] Abbreviation throwsAt ang :=
  (canvas image targetW targetH ang%Q
          (fst (rotatedSize targetW targetH ang%Q))
          (snd (rotatedSize targetW targetH ang%Q)) = None).

(** With a spacing of at least one pixel a pass returns unless the canvas
    throws. *)
Lemma extract_outcome (ang : Q) :
  1 <= lineSpacingPx ->
  (throwsAt ang /\ extract ang = Throw)
  \/ (~ throwsAt ang /\ exists sts, extract ang = Ret sts).
Proof.
  intros Hs. unfold extractStrokesFromImage.
  destruct (rotatedSize targetW targetH ang) as [rotW rotH]. cbn [fst snd].
  destruct (canvas image targetW targetH ang rotW rotH) as [data|];
    cbn [orThrow bind]; [right|left; auto].
  split; [discriminate|].
  destruct (scanCanvas_spec data rotW rotH threshold lineSpacingPx Hs)
    as (segs & Hsome & _).
  rewrite Hsome. cbn [orDiverge bind]. eauto.
Qed.

(** The strokes of a pass are two-point strokes in raster order. *)
Lemma extract_sorted (ang : Q) (sts : list PixelStroke) :
  1 <= lineSpacingPx ->
  extract ang = Ret sts -> StronglySorted strokeBefore sts.
Proof.
  intros Hs Hret.
  destruct (extract_ret _ _ _ _ _ _ _ _ Hret) as (data & segs & _ & Hscan & ->).
  destruct (scanCanvas_spec data (fst (rotatedSize targetW targetH ang))
              (snd (rotatedSize targetW targetH ang)) threshold lineSpacingPx Hs)
    as (segs' & Hsome & _ & Hsort).
  rewrite Hscan in Hsome. injection Hsome as <-.
  unfold simpleStrokes. apply sorted_map.
  revert Hsort. apply sorted_weaken.
  intros [p p'] [q q'] _ _. unfold segBefore, strokeBefore. cbn [fst snd pt_x pt_y].
  lia.
Qed.

(** The loop over the angles: it returns the passes in the order of the
    angles, after those it was handed. *)
Lemma extractPasses_ret (angles : list Q) (acc res : list Pass) :
  extractPasses canvas image targetW targetH lineSpacingPx threshold angles acc
  = Ret res ->
  exists passes : list (list PixelStroke),
    Forall2 (fun ang sts => extract ang = Ret sts) angles passes
    /\ res = acc ++ map (fun '(ang, sts) => mkPass ang sts)
                        (combine angles passes).
Proof.
  revert acc res; induction angles as [|ang rest IH]; intros acc res;
    cbn [extractPasses].
  - intros E; injection E as <-. exists []. split; [constructor|].
    cbn. now rewrite app_nil_r.
  - destruct (extract ang) as [sts| |] eqn:Hx; cbn [bind]; try discriminate.
    intros Hres. destruct (IH _ _ Hres) as (passes & Hall & ->).
    exists (sts :: passes). split; [constructor; assumption|].
    cbn [combine map]. now rewrite <- app_assoc.
Qed.

(** With a spacing of at least one pixel the loop over the angles returns
    unless the canvas throws in one of the passes. *)
Lemma extractPasses_outcome (angles : list Q) (acc : list Pass) :
  1 <= lineSpacingPx ->
  ((exists ang, In ang angles /\ throwsAt ang)
   /\ extractPasses canvas image targetW targetH lineSpacingPx threshold
                    angles acc = Throw)
  \/ ((forall ang, In ang angles -> ~ throwsAt ang)
      /\ exists res,
           extractPasses canvas image targetW targetH lineSpacingPx threshold
                         angles acc = Ret res).
Proof.
  intros Hs. revert acc; induction angles as [|ang rest IH]; intros acc;
    cbn [extractPasses].
  - right. split; [intros ? []|eauto].
  - destruct (extract_outcome ang Hs) as [[Ht Hx]|[Hn (sts & Hx)]];
      rewrite Hx; cbn [bind].
    + left. split; [|reflexivity]. exists ang. split; [left; reflexivity|assumption].
    + destruct (IH (acc ++ [mkPass ang sts])) as [[(a & Ha & Ht) Hr]|[Hall (res & Hr)]].
      * left. split; [|assumption]. exists a. split; [right; assumption|assumption].
      * right. split; [|eauto].
        intros a [<-|Ha]; [assumption|apply Hall; assumption].
Qed.

End Passes.

(** The merged list is the passes' strokes, pass after pass. *)
Lemma combineStrokes_concat (mmPerPx : Q) (strokesByPass : list Pass) :
  combineStrokes mmPerPx strokesByPass
  = concat (map (fun pass => map (toMM mmPerPx) (pass_strokes pass))
                strokesByPass).
Proof.
  unfold combineStrokes.
  enough (H : forall acc,
    fold_left
      (fun combined pass =>
         fold_left (fun combined st => combined ++ [toMM mmPerPx st])
                   (pass_strokes pass) combined)
      strokesByPass acc
    = acc ++ concat (map (fun pass => map (toMM mmPerPx) (pass_strokes pass))
                         strokesByPass)) by apply (H []).
  induction strokesByPass as [|pass rest IH]; intros acc; cbn [fold_left map concat].
  - now rewrite app_nil_r.
  - rewrite IH, (fold_push_map (toMM mmPerPx)), <- app_assoc. reflexivity.
Qed.

Lemma pass_strokes_combine (angles : list Q) (passes : list (list PixelStroke)) :
  length angles = length passes ->
  map pass_strokes (map (fun '(ang, sts) => mkPass ang sts)
                        (combine angles passes)) = passes.
Proof.
  revert passes; induction angles as [|a rest IH]; intros [|p passes] Hlen;
    cbn in *; try discriminate; [reflexivity|].
  f_equal. apply IH. lia.
Qed.

(** Scaling by a positive factor keeps strokes in raster order. *)
Lemma toMM_sorted (mmPerPx : Q) (sts : list PixelStroke) :
  (0 < mmPerPx)%Q ->
  StronglySorted strokeBefore sts ->
  StronglySorted strokeBeforeMM (map (toMM mmPerPx) sts).
Proof.
  intros Hm Hs. apply sorted_map. revert Hs. apply sorted_weaken.
  intros [|p s] [|q t] _ _; cbn [strokeBefore toMM map strokeBeforeMM];
    try tauto.
  cbn [mm_x mm_y].
  intros [Hy|[Hy Hx]].
  - left. apply Qmult_lt_compat_r; [assumption|]. rewrite <- Zlt_Qlt. assumption.
  - right. split; [now rewrite Hy|].
    apply Qmult_lt_compat_r; [assumption|]. rewrite <- Zlt_Qlt. assumption.
Qed.

(** What a click on a loaded image comes to. *)
Lemma processClick_loaded (canvas : Canvas) (inp : Inputs) (g : Globals) :
  src (img g) <> ""%string ->
  processClick canvas inp g
  = match extractPasses canvas (img g) (targetPxWidth inp)
                        (targetPxHeight inp (img g)) (lineSpacingPx_of inp)
                        (inject_Z (threshold_in inp))
                        (passAngles (angleDeg_of inp) (passes_of inp)) [] with
    | Ret strokesByPass =>
        Finished (mkGlobals (img g)
                    (Some (combineStrokes (mmPerPx_of inp) strokesByPass))
                    (mkCanvasSize (targetPxWidth inp)
                                  (targetPxHeight inp (img g))
                                  (mmPerPx_of inp)
                                  (passAngles (angleDeg_of inp) (passes_of inp))))
    | Throw => Alerted g
    | Diverge => Hangs
    end.
Proof.
  intros Hsrc. unfold processClick.
  destruct (String.eqb_spec (src (img g)) ""); [contradiction|reflexivity].
Qed.

(** A click with one pass at angle 0 scans a canvas of the target size. *)
Lemma processClick_one_pass (canvas : Canvas) (inp : Inputs) (g : Globals)
    (ang : Q) :
  src (img g) <> ""%string ->
  passAngles (angleDeg_of inp) (passes_of inp) = [ang] ->
  (ang == 0)%Q ->
  processClick canvas inp g
  = match (data <- orThrow (canvas (img g) (targetPxWidth inp)
                                   (targetPxHeight inp (img g)) ang
                                   (targetPxWidth inp)
                                   (targetPxHeight inp (img g))) ;;
           sk <- orDiverge (scanCanvas data (targetPxWidth inp)
                                       (targetPxHeight inp (img g))
                                       (inject_Z (threshold_in inp))
                                       (lineSpacingPx_of inp)) ;;
           Ret (simpleStrokes sk)) with
    | Ret sts =>
        Finished (mkGlobals (img g)
                    (Some (combineStrokes (mmPerPx_of inp) [mkPass ang sts]))
                    (mkCanvasSize (targetPxWidth inp)
                                  (targetPxHeight inp (img g))
                                  (mmPerPx_of inp) [ang]))
    | Throw => Alerted g
    | Diverge => Hangs
    end.
Proof.
  intros Hsrc Hang Hzero. rewrite (processClick_loaded canvas inp g Hsrc), Hang.
  cbn [extractPasses]. rewrite (extract_at_zero _ _ _ _ _ _ _ Hzero).
  destruct (orThrow _) as [data| |]; cbn [bind]; try reflexivity.
  destruct (orDiverge _) as [sk| |]; cbn [bind app]; reflexivity.
Qed.

(** The sample job: five strokes, one per scanned row. *)
Lemma sample_click :
  processClick blackCanvas sampleInputs sampleGlobals
  = Finished
      (mkGlobals sampleImage
         (Some [ [mkPointMM 0 0; mkPointMM (9 # 1) 0];
                 [mkPointMM 0 (2 # 1); mkPointMM (9 # 1) (2 # 1)];
                 [mkPointMM 0 (4 # 1); mkPointMM (9 # 1) (4 # 1)];
                 [mkPointMM 0 (6 # 1); mkPointMM (9 # 1) (6 # 1)];
                 [mkPointMM 0 (8 # 1); mkPointMM (9 # 1) (8 # 1)] ])
         (mkCanvasSize 10 10 1 [0 # 1]%Q)).
Proof.
  rewrite (processClick_one_pass _ _ _ (0 # 1)%Q);
    [vm_compute; reflexivity|discriminate|reflexivity|reflexivity].
Qed.

(** ** The click handler: order, determinism, invalid inputs *)

Lemma Forall2_Forall_r {A B : Type} (P : A -> B -> Prop) (Q : B -> Prop)
    (la : list A) (lb : list B) :
  (forall a b, P a b -> Q b) -> Forall2 P la lb -> Forall Q lb.
Proof. intros HPQ. induction 1; constructor; eauto. Qed.

Lemma mmPerPx_positive (inp : Inputs) :
  (0 < pxPerMM inp)%Q -> (0 < mmPerPx_of inp)%Q.
Proof.
  intros Hp. unfold mmPerPx_of, Qdiv. rewrite Qmult_1_l.
  apply Qinv_lt_0_compat. assumption.
Qed.

(** C3: the merged stroke list is the strokes of the passes one pass after
    the other, the passes in the order their angles were generated, and
    the strokes of each pass in raster order: by increasing scan row, and
    within a row by increasing start column.  Where the resolution is
    positive the same order shows in the millimetre coordinates. *)
Theorem merged_strokes_in_raster_order
    (canvas : Canvas) (inp : Inputs) (g g' : Globals) :
  src (img g) <> ""%string ->
  processClick canvas inp g = Finished g' ->
  exists passes : list (list PixelStroke),
    Forall2 (fun ang sts =>
               extractStrokesFromImage canvas (img g) (targetPxWidth inp)
                 (targetPxHeight inp (img g)) ang (lineSpacingPx_of inp)
                 (inject_Z (threshold_in inp)) = Ret sts)
            (passAngles (angleDeg_of inp) (passes_of inp)) passes
    /\ lastStrokes g'
       = Some (concat (map (map (toMM (mmPerPx_of inp))) passes))
    /\ Forall (StronglySorted strokeBefore) passes
    /\ ((0 < pxPerMM inp)%Q ->
        Forall (StronglySorted strokeBeforeMM)
               (map (map (toMM (mmPerPx_of inp))) passes)).
Proof.
  intros Hsrc. rewrite (processClick_loaded canvas inp g Hsrc).
  destruct (extractPasses _ _ _ _ _ _ _ _) as [res| |] eqn:Hres; try discriminate.
  intros E; injection E as <-.
  destruct (extractPasses_ret _ _ _ _ _ _ _ _ _ Hres) as (passes & Hall & ->).
  exists passes. split; [exact Hall|].
  assert (Hsorted : Forall (StronglySorted strokeBefore) passes).
  { revert Hall. apply Forall2_Forall_r. intros ang sts.
    apply extract_sorted, lineSpacingPx_positive. }
  split; [|split; [exact Hsorted|]].
  - cbn [lastStrokes app]. rewrite combineStrokes_concat. do 2 f_equal.
    rewrite <- (map_map pass_strokes (map (toMM (mmPerPx_of inp)))).
    rewrite (pass_strokes_combine _ passes (Forall2_length Hall)).
    reflexivity.
  - intros Hp. apply Forall_map. revert Hsorted. apply Forall_impl.
    intros sts. apply toMM_sorted, mmPerPx_positive, Hp.
Qed.

(** The order in the sample job. *)
Lemma merged_strokes_in_raster_order_witness :
  src (img sampleGlobals) <> ""%string
  /\ exists passes : list (list PixelStroke),
       Some [ [mkPointMM 0 0; mkPointMM (9 # 1) 0];
              [mkPointMM 0 (2 # 1); mkPointMM (9 # 1) (2 # 1)];
              [mkPointMM 0 (4 # 1); mkPointMM (9 # 1) (4 # 1)];
              [mkPointMM 0 (6 # 1); mkPointMM (9 # 1) (6 # 1)];
              [mkPointMM 0 (8 # 1); mkPointMM (9 # 1) (8 # 1)] ]
       = Some (concat (map (map (toMM (mmPerPx_of sampleInputs))) passes))
       /\ Forall (StronglySorted strokeBefore) passes.
Proof.
  split; [discriminate|].
  destruct (merged_strokes_in_raster_order blackCanvas sampleInputs
              sampleGlobals _ ltac:(discriminate) sample_click)
    as (passes & _ & H2 & H3 & _).
  exists passes. split; [exact H2|exact H3].
Defined.

(** C9: the pipeline is deterministic.  The handler reads of the globals
    the image only: from two states holding the same image, the same
    inputs give the same stroke list and canvas record, or the same
    report of an error; and a second click with the same inputs leaves
    the job of the first as it is. *)
Theorem process_click_deterministic
    (canvas : Canvas) (inp : Inputs) (g1 g2 : Globals) :
  img g1 = img g2 ->
  src (img g1) <> ""%string ->
  ((exists job cs,
       processClick canvas inp g1 = Finished (mkGlobals (img g1) (Some job) cs)
       /\ processClick canvas inp g2
          = Finished (mkGlobals (img g2) (Some job) cs))
   \/ (processClick canvas inp g1 = Alerted g1
       /\ processClick canvas inp g2 = Alerted g2))
  /\ (forall g', processClick canvas inp g1 = Finished g' ->
                 processClick canvas inp g' = Finished g').
Proof.
  intros Himg Hsrc.
  assert (Hsrc2 : src (img g2) <> ""%string) by (rewrite <- Himg; exact Hsrc).
  rewrite (processClick_loaded canvas inp g1 Hsrc),
          (processClick_loaded canvas inp g2 Hsrc2), <- Himg.
  destruct (extractPasses_outcome canvas (img g1) (targetPxWidth inp)
              (targetPxHeight inp (img g1)) (lineSpacingPx_of inp)
              (inject_Z (threshold_in inp))
              (passAngles (angleDeg_of inp) (passes_of inp)) []
              (lineSpacingPx_positive inp)) as [[_ Hr]|[_ (res & Hr)]];
    rewrite Hr.
  - split; [right; split; reflexivity|]. intros g' E; discriminate.
  - split; [left; eauto|].
    intros g' E; injection E as <-.
    rewrite processClick_loaded by exact Hsrc. cbn [img]. rewrite Hr. reflexivity.
Qed.

(** Two clicks in a row on the sample job. *)
Lemma process_click_deterministic_witness :
  img sampleGlobals = img sampleGlobals
  /\ src (img sampleGlobals) <> ""%string
  /\ forall g', processClick blackCanvas sampleInputs sampleGlobals = Finished g' ->
                processClick blackCanvas sampleInputs g' = Finished g'.
Proof.
  split; [reflexivity|]. split; [discriminate|].
  exact (proj2 (process_click_deterministic blackCanvas sampleInputs
                  sampleGlobals sampleGlobals eq_refl ltac:(discriminate))).
Defined.





(** ** The motion-code emitter *)

Section EmitterFacts.

Variable numberToString : Q -> string.

#[local] Abbreviation fixed3 x := (toFixed numberToString x 3).

Lemma fold_push_lines {A : Type} (f : A -> string) (l : list A)
    (lines : list string) :
  fold_left (fun lines p => push lines (f p)) l lines = lines ++ map f l.
Proof. unfold push. apply (fold_push_map f). Qed.

(** A stroke adds its block to the lines. *)
Lemma emitStroke_block (m : Motion) (lines : list string) (stroke : Stroke)
    (idx : Z) :
  emitStroke numberToString m lines stroke idx
  = lines ++ strokeBlock numberToString m idx stroke.
Proof.
  destruct stroke as [|p0 rest]; cbn [emitStroke strokeBlock].
  - now rewrite app_nil_r.
  - rewrite fold_push_lines. unfold push.
    repeat rewrite <- app_assoc. reflexivity.
Qed.

Lemma emitStrokes_blocks (m : Motion) (sts : list Stroke) (idx : Z)
    (lines : list string) :
  emitStrokes numberToString m sts idx lines
  = lines ++ strokeBlocks numberToString m idx sts.
Proof.
  revert idx lines; induction sts as [|stroke rest IH]; intros idx lines;
    cbn [emitStrokes strokeBlocks].
  - now rewrite app_nil_r.
  - rewrite IH, emitStroke_block, <- app_assoc. reflexivity.
Qed.



End EmitterFacts.



(** * Further properties *)

(** ** Maximal runs of a row *)

Section RunFacts.

Variable dark : Z -> bool.

(** A dark pixel has a run reaching to a left edge. *)
Lemma run_extends_left (n : nat) :
  forall x, x = Z.of_nat n -> dark x = true ->
  exists a, 0 <= a <= x /\ DarkRun dark a x /\ LeftEdge dark a.
Proof.
  induction n as [|n IH]; intros x Hx Hd.
  - exists x. repeat split; try lia.
    + intros z Hz. replace z with x by lia. assumption.
    + left. lia.
  - destruct (dark (x - 1)) eqn:Hp.
    + destruct (IH (x - 1)) as (a & Ha & Hrun & He); [lia|assumption|].
      exists a. repeat split; try lia; [|assumption].
      intros z Hz. destruct (Z.eq_dec z x) as [->|]; [assumption|].
      apply Hrun. lia.
    + exists x. repeat split; try lia.
      * intros z Hz. replace z with x by lia. assumption.
      * right. assumption.
Qed.

(** A dark pixel has a run reaching to a right edge. *)
Lemma run_extends_right (w : Z) (k : nat) :
  forall x, w - 1 - x = Z.of_nat k -> dark x = true ->
  exists b, x <= b < w /\ DarkRun dark x b /\ RightEdge dark w b.
Proof.
  induction k as [|k IH]; intros x Hx Hd.
  - exists x. repeat split; try lia.
    + intros z Hz. replace z with x by lia. assumption.
    + left. lia.
  - destruct (dark (x + 1)) eqn:Hp.
    + destruct (IH (x + 1)) as (b & Hb & Hrun & He); [lia|assumption|].
      exists b. repeat split; try lia; [|assumption].
      intros z Hz. destruct (Z.eq_dec z x) as [->|]; [assumption|].
      apply Hrun. lia.
    + exists x. repeat split; try lia.
      * intros z Hz. replace z with x by lia. assumption.
      * right. assumption.
Qed.

(** Every dark pixel of a row lies in a maximal run. *)
Lemma dark_pixel_in_run (w x : Z) :
  0 <= x < w -> dark x = true ->
  exists a b, MaximalRun dark w a b /\ a <= x <= b.
Proof.
  intros Hx Hd.
  destruct (run_extends_left (Z.to_nat x) x) as (a & Ha & Hra & Hea);
    [lia|assumption|].
  destruct (run_extends_right w (Z.to_nat (w - 1 - x)) x) as (b & Hb & Hrb & Heb);
    [lia|assumption|].
  exists a, b. split; [|lia].
  unfold MaximalRun. repeat split; try lia; try assumption.
  intros z Hz. destruct (Z_le_gt_dec z x); [apply Hra|apply Hrb]; lia.
Qed.

(** Two maximal runs either coincide or are kept apart by a pixel that is
    not dark. *)
Lemma runs_coincide_or_apart (w a b a' b' : Z) :
  MaximalRun dark w a b -> MaximalRun dark w a' b' ->
  (a = a' /\ b = b') \/ b + 1 < a' \/ b' + 1 < a.
Proof.
  intros (Ha & Hab & Hb & Hrun & Hl & Hr) (Ha' & Hab' & Hb' & Hrun' & Hl' & Hr').
  assert (Hda : dark a = true) by (apply Hrun; lia).
  assert (Hda' : dark a' = true) by (apply Hrun'; lia).
  assert (Hdb : dark b = true) by (apply Hrun; lia).
  assert (Hdb' : dark b' = true) by (apply Hrun'; lia).
  assert (Hleft : forall p q r, DarkRun dark p q -> LeftEdge dark r ->
                                0 <= p -> p < r -> r <= q -> False).
  { intros p q r Hpq [->|He] H0 H1 H2; [lia|].
    rewrite (Hpq (r - 1)) in He by lia. discriminate. }
  assert (Hright : forall p q r, DarkRun dark p q -> RightEdge dark w r ->
                                 q < w -> p <= r -> r < q -> False).
  { intros p q r Hpq [->|He] H0 H1 H2; [lia|].
    rewrite (Hpq (r + 1)) in He by lia. discriminate. }
  destruct (Z_lt_ge_dec (b + 1) a') as [|H1]; [auto|].
  destruct (Z_lt_ge_dec (b' + 1) a) as [|H2]; [auto|].
  left.
  assert (Hadj : b + 1 <> a').
  { intros E. destruct Hr as [->|Hr]; [lia|]. rewrite E in Hr. congruence. }
  assert (Hadj' : b' + 1 <> a).
  { intros E. destruct Hr' as [->|Hr']; [lia|]. rewrite E in Hr'. congruence. }
  assert (a = a').
  { destruct (Z.lt_trichotomy a a') as [Hlt|[|Hgt]]; [exfalso|assumption|exfalso].
    - apply (Hleft a b a'); auto; lia.
    - apply (Hleft a' b' a); auto; lia. }
  subst a'. split; [reflexivity|].
  destruct (Z.lt_trichotomy b b') as [Hlt|[|Hgt]]; [exfalso|assumption|exfalso].
  - apply (Hright a b' b); auto; lia.
  - apply (Hright a b b'); auto; lia.
Qed.

End RunFacts.

(** ** The scanner on a whole canvas *)

Section CanvasFacts.

Variable data : list Z.
Variables rotW rotH : Z.
Variable threshold : Q.
Variable lineSpacingPx : Z.
Variable segs : list Segment.

Hypothesis spacing_positive : 1 <= lineSpacingPx.
Hypothesis scanned :
  scanCanvas data rotW rotH threshold lineSpacingPx = Some segs.

#[local] Abbreviation dark y := (fun x => isDark data rotW rotH threshold x y).

Lemma scanned_segment (seg : Segment) :
  In seg segs <->
  exists y a b, seg = segAt y a b /\ ScannedRow lineSpacingPx rotH y
                /\ MaximalRun (dark y) rotW a b.
Proof.
  destruct (scanCanvas_spec data rotW rotH threshold lineSpacingPx
              spacing_positive) as (segs' & Hsome & Hmem & _).
  rewrite scanned in Hsome. injection Hsome as <-. apply Hmem.
Qed.

(** A pixel of a scanned row is dark exactly when a segment covers it. *)
Lemma covered_iff_dark (x y : Z) :
  ScannedRow lineSpacingPx rotH y -> 0 <= x < rotW ->
  (isDark data rotW rotH threshold x y = true
   <-> exists seg, In seg segs /\ onSegment seg x y).
Proof.
  intros Hrow Hx. split.
  - intros Hd.
    destruct (dark_pixel_in_run (dark y) rotW x Hx Hd) as (a & b & Hm & Hab).
    exists (segAt y a b). split.
    + apply scanned_segment. exists y, a, b. auto.
    + unfold onSegment, seg_start, seg_end, segAt. cbn [fst snd pt_x pt_y]. lia.
  - intros (seg & Hin & Hon). apply scanned_segment in Hin.
    destruct Hin as (y' & a & b & -> & _ & Hm).
    unfold onSegment, seg_start, seg_end, segAt in Hon.
    cbn [fst snd pt_x pt_y] in Hon. destruct Hon as [-> Hab].
    destruct Hm as (_ & _ & _ & Hrun & _). apply Hrun. assumption.
Qed.

(** Two segments of one row coincide or leave a gap between them. *)
Lemma segments_coincide_or_apart (s t : Segment) :
  In s segs -> In t segs -> pt_y (seg_start s) = pt_y (seg_start t) ->
  s = t \/ gapBefore s t \/ gapBefore t s.
Proof.
  intros Hs Ht Hy. apply scanned_segment in Hs, Ht.
  destruct Hs as (y & a & b & -> & _ & Hm).
  destruct Ht as (y' & a' & b' & -> & _ & Hm').
  unfold seg_start, segAt in Hy. cbn [fst pt_y] in Hy. subst y'.
  unfold gapBefore, segAt. cbn [fst snd pt_x].
  destruct (runs_coincide_or_apart (dark y) rotW a b a' b' Hm Hm')
    as [[-> ->]|[H|H]]; auto.
Qed.

End CanvasFacts.

(** X1: a pixel of a scanned row is dark if and only if a segment of the
    scan covers it, and no pixel is covered by two segments: the segments
    are an exact cover of the dark pixels of the scanned rows. *)
Theorem dark_pixels_are_covered_once
    (data : list Z) (rotW rotH : Z) (threshold : Q) (lineSpacingPx : Z)
    (segs : list Segment) (x y : Z) :
  1 <= lineSpacingPx ->
  scanCanvas data rotW rotH threshold lineSpacingPx = Some segs ->
  ScannedRow lineSpacingPx rotH y -> 0 <= x < rotW ->
  (isDark data rotW rotH threshold x y = true
   <-> exists seg, In seg segs /\ onSegment seg x y)
  /\ (forall s t, In s segs -> In t segs ->
                  onSegment s x y -> onSegment t x y -> s = t).
Proof.
  intros Hs Hscan Hrow Hx. split.
  - apply (covered_iff_dark data rotW rotH threshold lineSpacingPx segs Hs Hscan);
      assumption.
  - intros s t Hins Hint [Hys Hxs] [Hyt Hxt].
    destruct (segments_coincide_or_apart data rotW rotH threshold lineSpacingPx
                segs Hs Hscan s t Hins Hint) as [E|[G|G]];
      [congruence|assumption| |];
      exfalso; unfold gapBefore, seg_start, seg_end in *; lia.
Qed.

(** The cover of the sample row at its column 3. *)
Lemma dark_pixels_are_covered_once_witness :
  1 <= 1
  /\ ScannedRow 1 1 0
  /\ (isDark sampleRow 12 1 (128 # 1) 3 0 = true
      <-> exists seg,
            In seg [(mkPoint 2 0, mkPoint 4 0); (mkPoint 9 0, mkPoint 10 0)]
            /\ onSegment seg 3 0).
Proof.
  split; [lia|].
  assert (Hrow : ScannedRow 1 1 0) by (exists 0; lia).
  split; [exact Hrow|].
  exact (proj1 (dark_pixels_are_covered_once sampleRow 12 1 (128 # 1) 1
                  [(mkPoint 2 0, mkPoint 4 0); (mkPoint 9 0, mkPoint 10 0)]
                  3 0 ltac:(lia) eq_refl Hrow ltac:(lia))).
Defined.

(** X2: the scanner merges nothing and splits nothing: two different
    segments of one row have at least one pixel between them, and the
    pixel just before the start and the pixel just after the end of a
    segment, where the canvas has them, are not dark. *)
Theorem row_segments_leave_gaps
    (data : list Z) (rotW rotH : Z) (threshold : Q) (lineSpacingPx : Z)
    (segs : list Segment) :
  1 <= lineSpacingPx ->
  scanCanvas data rotW rotH threshold lineSpacingPx = Some segs ->
  (forall s t, In s segs -> In t segs ->
     pt_y (seg_start s) = pt_y (seg_start t) -> s <> t ->
     gapBefore s t \/ gapBefore t s)
  /\ (forall s, In s segs ->
        (0 < pt_x (seg_start s) ->
         isDark data rotW rotH threshold (pt_x (seg_start s) - 1)
                (pt_y (seg_start s)) = false)
        /\ (pt_x (seg_end s) + 1 < rotW ->
            isDark data rotW rotH threshold (pt_x (seg_end s) + 1)
                   (pt_y (seg_start s)) = false)).
Proof.
  intros Hs Hscan. split.
  - intros s t Hins Hint Hy Hne.
    destruct (segments_coincide_or_apart data rotW rotH threshold lineSpacingPx
                segs Hs Hscan s t Hins Hint Hy) as [E|G]; [contradiction|exact G].
  - intros s Hin.
    apply (scanned_segment data rotW rotH threshold lineSpacingPx segs Hs Hscan)
      in Hin.
    destruct Hin as (y & a & b & -> & _ & Hm).
    unfold seg_start, seg_end, segAt. cbn [fst snd pt_x pt_y].
    destruct Hm as (_ & _ & _ & _ & Hl & Hr). split.
    + intros Ha. destruct Hl as [->|Hl]; [lia|exact Hl].
    + intros Hb. destruct Hr as [->|Hr]; [lia|exact Hr].
Qed.

(** The gap between the two segments of the sample row. *)
Lemma row_segments_leave_gaps_witness :
  1 <= 1
  /\ (gapBefore (mkPoint 2 0, mkPoint 4 0) (mkPoint 9 0, mkPoint 10 0)
      \/ gapBefore (mkPoint 9 0, mkPoint 10 0) (mkPoint 2 0, mkPoint 4 0)).
Proof.
  split; [lia|].
  apply (proj1 (row_segments_leave_gaps sampleRow 12 1 (128 # 1) 1
                  [(mkPoint 2 0, mkPoint 4 0); (mkPoint 9 0, mkPoint 10 0)]
                  ltac:(lia) eq_refl));
    [simpl; auto|simpl; auto|reflexivity|discriminate].
Defined.

(** Rows without a dark pixel give no segment. *)
Lemma no_dark_pixel_no_segment_aux
    (data : list Z) (rotW rotH : Z) (threshold : Q) (lineSpacingPx : Z)
    (segs : list Segment) :
  1 <= lineSpacingPx ->
  scanCanvas data rotW rotH threshold lineSpacingPx = Some segs ->
  (forall x y, ScannedRow lineSpacingPx rotH y -> 0 <= x < rotW ->
               isDark data rotW rotH threshold x y = false) ->
  segs = [].
Proof.
  intros Hs Hscan Hnone. destruct segs as [|seg rest]; [reflexivity|exfalso].
  assert (Hin : In seg (seg :: rest)) by (left; reflexivity).
  apply (scanned_segment data rotW rotH threshold lineSpacingPx _ Hs Hscan)
    in Hin.
  destruct Hin as (y & a & b & _ & Hrow & Hm).
  destruct Hm as (Ha & Hab & Hb & Hrun & _).
  specialize (Hrun a ltac:(lia)). cbv beta in Hrun.
  rewrite (Hnone a y Hrow ltac:(lia)) in Hrun. discriminate.
Qed.

(** X3: the scan of a canvas gives no segment at all if and only if no
    pixel of a scanned row is dark; a blank canvas is no error. *)
Theorem no_dark_pixel_no_segment
    (data : list Z) (rotW rotH : Z) (threshold : Q) (lineSpacingPx : Z)
    (segs : list Segment) :
  1 <= lineSpacingPx ->
  scanCanvas data rotW rotH threshold lineSpacingPx = Some segs ->
  (segs = [] <->
   forall x y, ScannedRow lineSpacingPx rotH y -> 0 <= x < rotW ->
               isDark data rotW rotH threshold x y = false).
Proof.
  intros Hs Hscan. split.
  - intros -> x y Hrow Hx.
    destruct (isDark data rotW rotH threshold x y) eqn:Hd; [exfalso|reflexivity].
    apply (covered_iff_dark data rotW rotH threshold lineSpacingPx [] Hs Hscan
             x y Hrow Hx) in Hd.
    destruct Hd as (seg & [] & _).
  - apply no_dark_pixel_no_segment_aux; assumption.
Qed.

(** A white canvas of two by two pixels. *)
Lemma no_dark_pixel_no_segment_witness :
  1 <= 1
  /\ scanCanvas (whitePixel ++ whitePixel ++ whitePixel ++ whitePixel) 2 2
                (128 # 1) 1 = Some []
  /\ forall x y, ScannedRow 1 2 y -> 0 <= x < 2 ->
                 isDark (whitePixel ++ whitePixel ++ whitePixel ++ whitePixel)
                        2 2 (128 # 1) x y = false.
Proof.
  split; [lia|]. split; [reflexivity|].
  apply (proj1 (no_dark_pixel_no_segment
                  (whitePixel ++ whitePixel ++ whitePixel ++ whitePixel) 2 2
                  (128 # 1) 1 [] ltac:(lia) eq_refl)).
  reflexivity.
Defined.

(** ** How many segments a scan can give *)

(** A list of segments on columns [lo..w-1], each a gap after the one
    before, has at most one segment for every two columns. *)
Lemma gap_sorted_length (w : Z) (l : list Segment) :
  forall lo,
    StronglySorted gapBefore l ->
    (forall s, In s l -> lo <= pt_x (fst s) <= pt_x (snd s) /\ pt_x (snd s) < w) ->
    2 * Z.of_nat (length l) <= Z.max 0 (w - lo + 1).
Proof.
  induction l as [|s l IH]; intros lo Hsort Hin; cbn [length].
  - lia.
  - inversion Hsort as [|? ? Hs' Hall]; subst.
    destruct (Hin s (or_introl eq_refl)) as [Hs Hw].
    assert (IHl : 2 * Z.of_nat (length l) <= Z.max 0 (w - (pt_x (snd s) + 2) + 1)).
    { apply IH; [assumption|].
      intros t Ht. destruct (Hin t (or_intror Ht)) as [Ht1 Ht2].
      rewrite Forall_forall in Hall. specialize (Hall t Ht).
      unfold gapBefore in Hall. lia. }
    lia.
Qed.

Section ScanCount.

Variable data : list Z.
Variables rotW rotH : Z.
Variable threshold : Q.

#[local] Abbreviation dark y := (fun x => isDark data rotW rotH threshold x y).

(** The segments of a row, each a gap after the one before. *)
Lemma row_sorted_gaps (y : Z) :
  StronglySorted gapBefore (scanRow data rotW rotH threshold y []).
Proof.
  destruct (scanRow_spec data rotW rotH threshold y) as (Hmem & Hsort).
  revert Hsort. apply sorted_weaken.
  intros p q Hp Hq Hpq. apply Hmem in Hp, Hq.
  destruct Hp as (a & b & -> & Hm), Hq as (a' & b' & -> & Hm').
  unfold endsBefore, gapBefore, segAt in *. cbn [fst snd pt_x] in *.
  destruct (runs_coincide_or_apart (dark y) rotW a b a' b' Hm Hm')
    as [[-> ->]|[H|H]]; [|assumption|];
    unfold MaximalRun in *; lia.
Qed.

(** A row gives at most one segment for every two columns. *)
Lemma row_length (y : Z) :
  0 <= rotW ->
  Z.of_nat (length (scanRow data rotW rotH threshold y [])) <= (rotW + 1) / 2.
Proof.
  intros Hw. apply Z.div_le_lower_bound; [lia|].
  pose proof (gap_sorted_length rotW _ 0 (row_sorted_gaps y)) as H.
  rewrite Z.max_r in H by lia. replace (rotW - 0 + 1) with (rotW + 1) in H by lia.
  apply H. intros s Hs.
  apply (proj1 (scanRow_spec data rotW rotH threshold y)) in Hs.
  destruct Hs as (a & b & -> & Hm). unfold segAt, MaximalRun in *.
  cbn [fst snd pt_x]. lia.
Qed.

(** The raster loop from row [y] on gives at most as many segments as
    rows left times the most a row can give. *)
Lemma scanRows_length (s : Z) (fuel : nat) (y : Z) (res : list Segment) :
  1 <= s -> 0 <= rotW ->
  scanRows data rotW rotH threshold s fuel y [] = Some res ->
  Z.of_nat (length res)
  <= (if y <? rotH then (rotH - y + s - 1) / s else 0) * ((rotW + 1) / 2).
Proof.
  intros Hs Hw. revert y res; induction fuel as [|fuel IH]; intros y res;
    cbn [scanRows]; destruct (Z.ltb_spec y rotH) as [Hlt|Hge]; intros Hres;
    try discriminate; try (injection Hres as <-; cbn [length]; lia).
  rewrite <- (app_nil_r (scanRow _ _ _ _ y [])), scanRows_app in Hres.
  destruct (scanRows data rotW rotH threshold s fuel (y + s) []) as [rest|] eqn:Hrest;
    [|discriminate].
  injection Hres as <-. rewrite length_app, Nat2Z.inj_add.
  pose proof (IH _ _ Hrest) as Hrestlen.
  pose proof (row_length y Hw) as Hrow.
  assert (HB : 0 <= (rotW + 1) / 2) by (apply Z.div_pos; lia).
  replace (rotH - y + s - 1) with (rotH - (y + s) + s - 1 + 1 * s) by lia.
  rewrite Z.div_add by lia.
  destruct (Z.ltb_spec (y + s) rotH) as [Hlt'|Hge'].
  - nia.
  - assert (0 <= (rotH - (y + s) + s - 1) / s) by (apply Z.div_pos; lia).
    nia.
Qed.

(** The raster loop with a spacing of zero or less, on a canvas with rows,
    does not end, whatever the fuel. *)
Lemma scanRows_never_ends (s : Z) (fuel : nat) :
  s <= 0 -> 0 < rotH ->
  scanRows data rotW rotH threshold s fuel 0 [] = None.
Proof. intros Hs Hh. apply scanRows_stuck; assumption. Qed.

End ScanCount.

(** X4: a scan gives at most [ceil(rotH / spacing)] rows of at most
    [ceil(rotW / 2)] segments each, so the size of a pass is bounded by the
    size of its canvas. *)
Theorem segment_count_bound
    (data : list Z) (rotW rotH : Z) (threshold : Q) (lineSpacingPx : Z)
    (segs : list Segment) :
  1 <= lineSpacingPx -> 0 <= rotW -> 0 <= rotH ->
  scanCanvas data rotW rotH threshold lineSpacingPx = Some segs ->
  Z.of_nat (length segs)
  <= ((rotH + lineSpacingPx - 1) / lineSpacingPx) * ((rotW + 1) / 2).
Proof.
  intros Hs Hw Hh Hscan. unfold scanCanvas in Hscan.
  pose proof (scanRows_length data rotW rotH threshold lineSpacingPx _ 0 segs
                Hs Hw Hscan) as H.
  replace (rotH - 0 + lineSpacingPx - 1) with (rotH + lineSpacingPx - 1) in H
    by lia.
  destruct (Z.ltb_spec 0 rotH) as [Hpos|Hz]; [exact H|].
  assert (0 <= (rotH + lineSpacingPx - 1) / lineSpacingPx) by (apply Z.div_pos; lia).
  assert (0 <= (rotW + 1) / 2) by (apply Z.div_pos; lia).
  nia.
Qed.

(** The sample row: two segments, at most six. *)
Lemma segment_count_bound_witness :
  1 <= 1 /\ 0 <= 12 /\ 0 <= 1
  /\ Z.of_nat (length [(mkPoint 2 0, mkPoint 4 0); (mkPoint 9 0, mkPoint 10 0)])
     <= ((1 + 1 - 1) / 1) * ((12 + 1) / 2).
Proof.
  split; [lia|]. split; [lia|]. split; [lia|].
  exact (segment_count_bound sampleRow 12 1 (128 # 1) 1
           [(mkPoint 2 0, mkPoint 4 0); (mkPoint 9 0, mkPoint 10 0)]
           ltac:(lia) ltac:(lia) ltac:(lia) eq_refl).
Defined.

(** X5: called with a row spacing of zero or less on a canvas that has
    rows, [extractStrokesFromImage] never returns: its raster loop stays on
    its rows for any number of iterations.  (The click handler never calls
    it so: it clamps the spacing to at least one pixel.) *)
Theorem nonpositive_spacing_never_returns
    (canvas : Canvas) (image : Image) (targetW targetH : Z) (angleDeg : Q)
    (lineSpacingPx : Z) (threshold : Q) (data : list Z) :
  lineSpacingPx <= 0 ->
  0 < snd (rotatedSize targetW targetH angleDeg) ->
  canvas image targetW targetH angleDeg
         (fst (rotatedSize targetW targetH angleDeg))
         (snd (rotatedSize targetW targetH angleDeg)) = Some data ->
  (forall fuel,
     scanRows data (fst (rotatedSize targetW targetH angleDeg))
              (snd (rotatedSize targetW targetH angleDeg)) threshold
              lineSpacingPx fuel 0 [] = None)
  /\ extractStrokesFromImage canvas image targetW targetH angleDeg
                             lineSpacingPx threshold = Diverge.
Proof.
  intros Hs Hh Hc. split.
  - intros fuel. apply scanRows_never_ends; assumption.
  - unfold extractStrokesFromImage.
    destruct (rotatedSize targetW targetH angleDeg) as [rotW rotH].
    cbn [fst snd] in *. rewrite Hc. cbn [orThrow bind].
    rewrite (scanCanvas_hangs data rotW rotH threshold lineSpacingPx Hs Hh).
    reflexivity.
Qed.

(** A spacing of zero on the canvas of the sample job. *)
Lemma nonpositive_spacing_never_returns_witness :
  0 <= 0
  /\ 0 < snd (rotatedSize 10 10 (0 # 1))
  /\ extractStrokesFromImage blackCanvas sampleImage 10 10 (0 # 1) 0 (128 # 1)
     = Diverge.
Proof.
  assert (Hsize : rotatedSize 10 10 (0 # 1) = (10, 10))
    by (apply rotatedSize_zero; reflexivity).
  split; [lia|]. split; [rewrite Hsize; reflexivity|].
  refine (proj2 (nonpositive_spacing_never_returns blackCanvas sampleImage
                   10 10 (0 # 1) 0 (128 # 1)
                   (flat_map (fun _ => blackPixel) (JS.range (10 * 10)))
                   ltac:(lia) _ _)).
  - rewrite Hsize. reflexivity.
  - rewrite Hsize. reflexivity.
Defined.

(** ** The gray level and the threshold *)

Lemma lt_true_iff (a b : Q) : JS.lt a b = true <-> (a < b)%Q.
Proof.
  unfold JS.lt. rewrite Qlt_alt.
  destruct (a ?= b)%Q; split; congruence.
Qed.

Section GrayLevel.

Variable data : list Z.
Variables rotW rotH : Z.

Hypothesis buffer : RGBABuffer data rotW rotH.

Lemma byteAt_in_buffer (i : Z) :
  0 <= i < 4 * rotW * rotH ->
  exists b, byteAt data i = Some b /\ 0 <= b <= 255.
Proof.
  intros Hi. destruct buffer as [Hlen Hall]. unfold byteAt.
  destruct (Z.ltb_spec i 0) as [|_]; [lia|].
  destruct (nth_error data (Z.to_nat i)) as [b|] eqn:Hb.
  - exists b. split; [reflexivity|].
    rewrite Forall_forall in Hall. apply Hall.
    eapply nth_error_In; eassumption.
  - apply nth_error_None in Hb. lia.
Qed.

(** On the canvas the gray level is a number from 0 to 255. *)
Lemma pixelGray_in_range (threshold : Q) (x y : Z) :
  0 <= x < rotW -> 0 <= y < rotH ->
  exists g, pixelGray data rotW rotH x y = Some g /\ (0 <= g <= 255)%Q.
Proof.
  intros Hx Hy. unfold pixelGray.
  destruct (Z.ltb_spec x 0) as [|_]; [lia|].
  destruct (Z.geb_spec x rotW) as [|_]; [lia|].
  destruct (Z.ltb_spec y 0) as [|_]; [lia|].
  destruct (Z.geb_spec y rotH) as [|_]; [lia|].
  cbn [orb].
  assert (Hidx : 0 <= (y * rotW + x) * 4 /\ (y * rotW + x) * 4 + 3 < 4 * rotW * rotH)
    by nia.
  destruct (byteAt_in_buffer ((y * rotW + x) * 4)) as (r & -> & Hr); [lia|].
  destruct (byteAt_in_buffer ((y * rotW + x) * 4 + 1)) as (g & -> & Hg); [lia|].
  destruct (byteAt_in_buffer ((y * rotW + x) * 4 + 2)) as (b & -> & Hb); [lia|].
  eexists. split; [reflexivity|].
  assert (Hq : forall v, 0 <= v <= 255 -> (0 <= inject_Z v <= 255)%Q).
  { intros v [H0 H1]. split.
    - change 0%Q with (inject_Z 0). rewrite <- Zle_Qle. assumption.
    - change 255%Q with (inject_Z 255). rewrite <- Zle_Qle. assumption. }
  pose proof (Hq r Hr). pose proof (Hq g Hg). pose proof (Hq b Hb).
  split; lra.
Qed.

(** With a threshold of zero or less no pixel of the canvas is dark; with
    a threshold above 255 every one is. *)
Lemma isDark_threshold_edges (t x y : Z) :
  0 <= x < rotW -> 0 <= y < rotH ->
  (t <= 0 -> isDark data rotW rotH (inject_Z t) x y = false)
  /\ (256 <= t -> isDark data rotW rotH (inject_Z t) x y = true).
Proof.
  intros Hx Hy. unfold isDark.
  destruct (pixelGray_in_range (inject_Z t) x y Hx Hy) as (g & -> & Hg).
  split; intros Ht.
  - destruct (JS.lt g (inject_Z t)) eqn:E; [|reflexivity].
    apply lt_true_iff in E.
    assert ((inject_Z t <= 0)%Q)
      by (change 0%Q with (inject_Z 0); rewrite <- Zle_Qle; assumption).
    lra.
  - apply lt_true_iff.
    assert ((256 <= inject_Z t)%Q)
      by (change 256%Q with (inject_Z 256); rewrite <- Zle_Qle; assumption).
    lra.
Qed.

End GrayLevel.

Lemma scanned_row_on_canvas (s rotH y : Z) :
  1 <= s -> ScannedRow s rotH y -> 0 <= y < rotH.
Proof. intros Hs (i & Hi & -> & Hlt). split; [nia|assumption]. Qed.

(** X6: on the bytes of a canvas, a threshold of zero or less gives no
    segment, and a threshold of 256 or more gives every scanned row as one
    segment from the first column to the last: outside 0..255 the threshold
    is not rejected, it is used as it is. *)
Theorem threshold_outside_range
    (data : list Z) (rotW rotH : Z) (t lineSpacingPx : Z) :
  RGBABuffer data rotW rotH ->
  1 <= lineSpacingPx ->
  (t <= 0 -> scanCanvas data rotW rotH (inject_Z t) lineSpacingPx = Some [])
  /\ (256 <= t -> 1 <= rotW ->
      exists segs,
        scanCanvas data rotW rotH (inject_Z t) lineSpacingPx = Some segs
        /\ NoDup segs
        /\ forall seg, In seg segs <->
             exists y, ScannedRow lineSpacingPx rotH y
                       /\ seg = (mkPoint 0 y, mkPoint (rotW - 1) y)).
Proof.
  intros Hbuf Hs.
  destruct (scanCanvas_spec data rotW rotH (inject_Z t) lineSpacingPx Hs)
    as (segs & Hscan & Hmem & Hsort).
  split.
  - intros Ht. rewrite Hscan. f_equal.
    apply (no_dark_pixel_no_segment_aux data rotW rotH (inject_Z t)
             lineSpacingPx segs Hs Hscan).
    intros x y Hrow Hx.
    apply (isDark_threshold_edges data rotW rotH Hbuf t x y Hx
             (scanned_row_on_canvas _ _ _ Hs Hrow)); assumption.
  - intros Ht Hw. exists segs. split; [assumption|]. split.
    { eapply sorted_NoDup; [exact segBefore_irrefl|eassumption]. }
    intros seg. rewrite Hmem. split.
    + intros (y & a & b & -> & Hrow & Hm). exists y. split; [assumption|].
      pose proof (scanned_row_on_canvas _ _ _ Hs Hrow) as Hy.
      destruct Hm as (Ha & Hab & Hb & _ & Hl & Hr).
      assert (a = 0).
      { destruct (Z.eq_dec a 0) as [|Hne]; [assumption|].
        destruct Hl as [|Hl]; [assumption|exfalso].
        rewrite (proj2 (isDark_threshold_edges data rotW rotH Hbuf t (a - 1) y
                          ltac:(lia) Hy) Ht) in Hl. discriminate. }
      assert (b = rotW - 1).
      { destruct (Z.eq_dec b (rotW - 1)) as [|Hne]; [assumption|].
        destruct Hr as [|Hr]; [assumption|exfalso].
        rewrite (proj2 (isDark_threshold_edges data rotW rotH Hbuf t (b + 1) y
                          ltac:(lia) Hy) Ht) in Hr. discriminate. }
      subst. reflexivity.
    + intros (y & Hrow & ->). exists y, 0, (rotW - 1).
      split; [reflexivity|]. split; [assumption|].
      pose proof (scanned_row_on_canvas _ _ _ Hs Hrow) as Hy.
      unfold MaximalRun, DarkRun, LeftEdge, RightEdge.
      repeat split; try lia.
      intros x Hx.
      apply (isDark_threshold_edges data rotW rotH Hbuf t x y ltac:(lia) Hy).
      assumption.
Qed.

(** A grey canvas of two by two pixels under the thresholds 0 and 256. *)
Lemma threshold_outside_range_witness :
  RGBABuffer (repeat 100 16) 2 2
  /\ 1 <= 1
  /\ scanCanvas (repeat 100 16) 2 2 (inject_Z 0) 1 = Some []
  /\ exists segs,
       scanCanvas (repeat 100 16) 2 2 (inject_Z 256) 1 = Some segs
       /\ forall seg, In seg segs <->
            exists y, ScannedRow 1 2 y /\ seg = (mkPoint 0 y, mkPoint (2 - 1) y).
Proof.
  assert (Hbuf : RGBABuffer (repeat 100 16) 2 2).
  { split; [reflexivity|]. apply Forall_forall. intros b Hb.
    apply repeat_spec in Hb. lia. }
  split; [exact Hbuf|]. split; [lia|].
  destruct (threshold_outside_range (repeat 100 16) 2 2 0 1 Hbuf ltac:(lia))
    as [H0 _].
  destruct (threshold_outside_range (repeat 100 16) 2 2 256 1 Hbuf ltac:(lia))
    as [_ H1].
  split; [apply H0; lia|].
  destruct (H1 ltac:(lia) ltac:(lia)) as (segs & Hs & _ & Hm).
  exists segs. split; assumption.
Defined.

(** ** The rotated canvas holds the image *)

Lemma abs_cos_sin (t : R) :
  (0 <= Rabs (cos t) <= 1 /\ 0 <= Rabs (sin t) <= 1
   /\ 1 <= Rabs (cos t) + Rabs (sin t))%R.
Proof.
  pose proof (COS_bound t) as [Hc0 Hc1]. pose proof (SIN_bound t) as [Hs0 Hs1].
  pose proof (sin2_cos2 t) as H. unfold Rsqr in H.
  unfold Rabs. destruct (Rcase_abs (cos t)), (Rcase_abs (sin t));
    repeat split; try lra; nra.
Qed.

(** X7: the rotated canvas is at least as large as the smaller side of the
    scaled image and at most as large as its two sides together, in width
    and in height. *)
Theorem rotated_canvas_size_bounds (W H : Z) (angleDeg : Q) :
  0 <= W -> 0 <= H ->
  Z.min W H <= fst (rotatedSize W H angleDeg) <= W + H
  /\ Z.min W H <= snd (rotatedSize W H angleDeg) <= W + H.
Proof.
  intros HW HH. unfold rotatedSize. cbn [fst snd].
  set (t := (Q2R angleDeg * PI / 180)%R).
  destruct (abs_cos_sin t) as ((Hc0 & Hc1) & (Hs0 & Hs1) & Hsum).
  set (c := Rabs (cos t)) in *. set (s := Rabs (sin t)) in *.
  pose proof (IZR_le _ _ HW) as HWr. pose proof (IZR_le _ _ HH) as HHr.
  assert (Hmin : (IZR (Z.min W H) <= IZR W /\ IZR (Z.min W H) <= IZR H
                  /\ 0 <= IZR (Z.min W H))%R).
  { repeat split; apply IZR_le; lia. }
  destruct Hmin as (Hm1 & Hm2 & Hm0).
  destruct (Math_ceil_spec (IZR W * c + IZR H * s)) as [Hlo1 Hhi1].
  destruct (Math_ceil_spec (IZR W * s + IZR H * c)) as [Hlo2 Hhi2].
  repeat split.
  - apply le_IZR. eapply Rle_trans; [|exact Hhi1]. nra.
  - apply Z.lt_succ_r, lt_IZR. rewrite succ_IZR, plus_IZR. nra.
  - apply le_IZR. eapply Rle_trans; [|exact Hhi2]. nra.
  - apply Z.lt_succ_r, lt_IZR. rewrite succ_IZR, plus_IZR. nra.
Qed.

(** A ten by twenty image at every angle. *)
Lemma rotated_canvas_size_bounds_witness :
  0 <= 10 /\ 0 <= 20
  /\ Z.min 10 20 <= fst (rotatedSize 10 20 (30 # 1)) <= 10 + 20.
Proof.
  split; [lia|]. split; [lia|].
  exact (proj1 (rotated_canvas_size_bounds 10 20 (30 # 1)
                  ltac:(lia) ltac:(lia))).
Defined.

(** X8: nothing of the scaled image is clipped: the translation to the
    centre of the rotated canvas, the rotation and the offset by half the
    image put every point of the image on the rotated canvas. *)
Theorem rotated_canvas_holds_image (W H : Z) (angleDeg : Q) (i j : R) :
  (0 <= i <= IZR W)%R -> (0 <= j <= IZR H)%R ->
  (0 <= fst (placeOnCanvas W H angleDeg i j)
   <= IZR (fst (rotatedSize W H angleDeg)))%R
  /\ (0 <= snd (placeOnCanvas W H angleDeg i j)
      <= IZR (snd (rotatedSize W H angleDeg)))%R.
Proof.
  intros Hi Hj. unfold placeOnCanvas. cbn [fst snd].
  unfold rotatedSize. cbn [fst snd].
  set (t := (Q2R angleDeg * PI / 180)%R).
  destruct (Math_ceil_spec (IZR W * Rabs (cos t) + IZR H * Rabs (sin t)))
    as [_ Hw].
  destruct (Math_ceil_spec (IZR W * Rabs (sin t) + IZR H * Rabs (cos t)))
    as [_ Hh].
  set (rw := IZR (JS.Math_ceil _)) in *. set (rh := IZR (JS.Math_ceil _)) in *.
  revert Hw Hh. unfold Rabs.
  destruct (Rcase_abs (cos t)), (Rcase_abs (sin t)); intros Hw Hh;
    repeat split; nra.
Qed.

(** The far corner of a ten by twenty image turned by thirty degrees. *)
Lemma rotated_canvas_holds_image_witness :
  (0 <= 10 <= IZR 10)%R /\ (0 <= 20 <= IZR 20)%R
  /\ (0 <= fst (placeOnCanvas 10 20 (30 # 1) 10 20)
      <= IZR (fst (rotatedSize 10 20 (30 # 1))))%R.
Proof.
  assert (H1 : (0 <= 10 <= IZR 10)%R) by lra.
  assert (H2 : (0 <= 20 <= IZR 20)%R) by lra.
  split; [exact H1|]. split; [exact H2|].
  exact (proj1 (rotated_canvas_holds_image 10 20 (30 # 1) 10 20 H1 H2)).
Defined.

(** ** The passes of a click: directions and strokes *)

(** X9: no two passes of a click hatch in the same direction: the angles
    of two different passes never differ by a whole number of half
    turns. *)
Theorem pass_directions_differ (angleDeg : Q) (N p q m : Z) :
  0 <= p -> p < q -> q < N ->
  ~ (passAngle angleDeg N q - passAngle angleDeg N p == 180 * inject_Z m)%Q.
Proof.
  intros Hp Hpq HqN Heq. unfold passAngle in Heq.
  destruct (rem_360_spec (angleDeg + inject_Z q * 180 / inject_Z N)) as (Hq & _).
  destruct (rem_360_spec (angleDeg + inject_Z p * 180 / inject_Z N)) as (Hp' & _).
  set (kq := JS.trunc ((angleDeg + inject_Z q * 180 / inject_Z N) / 360)) in *.
  set (kp := JS.trunc ((angleDeg + inject_Z p * 180 / inject_Z N) / 360)) in *.
  assert (HN : (0 < inject_Z N)%Q).
  { change 0%Q with (inject_Z 0). rewrite <- Zlt_Qlt. lia. }
  assert (Etq : (inject_Z q * 180 / inject_Z N * inject_Z N == inject_Z q * 180)%Q)
    by (field; lra).
  assert (Etp : (inject_Z p * 180 / inject_Z N * inject_Z N == inject_Z p * 180)%Q)
    by (field; lra).
  set (tq := (inject_Z q * 180 / inject_Z N)%Q) in *.
  set (tp := (inject_Z p * 180 / inject_Z N)%Q) in *.
  clearbody tq tp kq kp.
  set (rq := JS.rem (angleDeg + tq) 360) in *.
  set (rp := JS.rem (angleDeg + tp) 360) in *. clearbody rq rp.
  assert (Hd : (tq - tp == 180 * (inject_Z m + 2 * (inject_Z kq - inject_Z kp)))%Q)
    by lra.
  assert (Hz : (inject_Z (q - p) == inject_Z (N * (m + 2 * (kq - kp))))%Q).
  { unfold Z.sub. rewrite !inject_Z_mult, !inject_Z_plus, !inject_Z_mult,
      !inject_Z_plus, !inject_Z_opp.
    change (inject_Z 2) with 2%Q.
    assert (Hm : ((tq - tp) * inject_Z N
                  == 180 * (inject_Z m + 2 * (inject_Z kq - inject_Z kp))
                     * inject_Z N)%Q) by (rewrite Hd; reflexivity).
    lra. }
  apply (proj1 (inject_Z_injective _ _)) in Hz.
  set (M := m + 2 * (kq - kp)) in *.
  destruct (Z_le_gt_dec M 0); nia.
Qed.

(** The first two of three passes from a base angle of 0. *)
Lemma pass_directions_differ_witness :
  0 <= 0 /\ 0 < 1 /\ 1 < 3
  /\ ~ (passAngle 0 3 1 - passAngle 0 3 0 == 180 * inject_Z 1)%Q.
Proof.
  split; [lia|]. split; [lia|]. split; [lia|].
  exact (pass_directions_differ 0 3 0 1 1 ltac:(lia) ltac:(lia) ltac:(lia)).
Defined.

(** What a finished click on a loaded image has stored. *)
Lemma finished_click (canvas : Canvas) (inp : Inputs) (g g' : Globals) :
  src (img g) <> ""%string ->
  processClick canvas inp g = Finished g' ->
  exists passes : list (list PixelStroke),
    Forall2 (fun ang sts =>
               extractStrokesFromImage canvas (img g) (targetPxWidth inp)
                 (targetPxHeight inp (img g)) ang (lineSpacingPx_of inp)
                 (inject_Z (threshold_in inp)) = Ret sts)
            (passAngles (angleDeg_of inp) (passes_of inp)) passes
    /\ g' = mkGlobals (img g)
              (Some (concat (map (map (toMM (mmPerPx_of inp))) passes)))
              (mkCanvasSize (targetPxWidth inp) (targetPxHeight inp (img g))
                            (mmPerPx_of inp)
                            (passAngles (angleDeg_of inp) (passes_of inp))).
Proof.
  intros Hsrc. rewrite (processClick_loaded canvas inp g Hsrc).
  destruct (extractPasses _ _ _ _ _ _ _ _) as [res| |] eqn:Hres; try discriminate.
  intros E; injection E as <-.
  destruct (extractPasses_ret _ _ _ _ _ _ _ _ _ Hres) as (passes & Hall & ->).
  exists passes. split; [exact Hall|].
  cbn [app]. rewrite combineStrokes_concat. do 3 f_equal.
  rewrite <- (map_map pass_strokes (map (toMM (mmPerPx_of inp)))).
  rewrite (pass_strokes_combine _ passes (Forall2_length Hall)). reflexivity.
Qed.

(** The strokes of a pass are segments of rows. *)
Lemma extract_row_segments (canvas : Canvas) (image : Image)
    (targetW targetH : Z) (angleDeg : Q) (lineSpacingPx : Z) (threshold : Q)
    (sts : list PixelStroke) (st : PixelStroke) :
  1 <= lineSpacingPx ->
  extractStrokesFromImage canvas image targetW targetH angleDeg lineSpacingPx
                          threshold = Ret sts ->
  In st sts ->
  exists x1 x2 y,
    0 <= x1 /\ x1 <= x2 /\ 0 <= y /\ st = [mkPoint x1 y; mkPoint x2 y].
Proof.
  intros Hs Hret Hin.
  destruct (extract_ret _ _ _ _ _ _ _ _ Hret) as (data & segs & _ & Hscan & ->).
  unfold simpleStrokes in Hin. apply in_map_iff in Hin.
  destruct Hin as (seg & <- & Hseg).
  apply (scanned_segment data _ _ threshold lineSpacingPx segs Hs Hscan) in Hseg.
  destruct Hseg as (y & a & b & -> & Hrow & Hm).
  exists a, b, y. unfold segAt. cbn [fst snd pt_x pt_y]. rewrite !Z.add_0_r.
  destruct Hrow as (i & Hi & -> & _). unfold MaximalRun in Hm.
  repeat split; try lia; nia.
Qed.

(** The job of a finished click and the shape of its strokes. *)
Lemma job_shape (canvas : Canvas) (inp : Inputs) (g g' : Globals) :
  src (img g) <> ""%string ->
  processClick canvas inp g = Finished g' ->
  exists job,
    lastStrokes g' = Some job
    /\ forall st, In st job ->
         exists x1 x2 y,
           0 <= x1 /\ x1 <= x2 /\ 0 <= y
           /\ st = [ mkPointMM (inject_Z x1 * mmPerPx_of inp)
                               (inject_Z y * mmPerPx_of inp);
                     mkPointMM (inject_Z x2 * mmPerPx_of inp)
                               (inject_Z y * mmPerPx_of inp) ].
Proof.
  intros Hsrc Hfin.
  destruct (finished_click canvas inp g g' Hsrc Hfin) as (passes & Hall & ->).
  eexists. split; [reflexivity|].
  intros st Hin. apply in_concat in Hin. destruct Hin as (pass & Hpass & Hst).
  apply in_map_iff in Hpass. destruct Hpass as (psts & <- & Hpsts).
  apply in_map_iff in Hst. destruct Hst as (pst & <- & Hpst).
  assert (Hex : exists ang,
            extractStrokesFromImage canvas (img g) (targetPxWidth inp)
              (targetPxHeight inp (img g)) ang (lineSpacingPx_of inp)
              (inject_Z (threshold_in inp)) = Ret psts).
  { clear - Hall Hpsts. induction Hall as [|ang sts angs rest Hx _ IH].
    - destruct Hpsts.
    - destruct Hpsts as [<-|Hin]; [exists ang; exact Hx|apply IH; exact Hin]. }
  destruct Hex as (ang & Hx).
  destruct (extract_row_segments _ _ _ _ _ _ _ _ pst
              (lineSpacingPx_positive inp) Hx Hpst)
    as (x1 & x2 & y & H1 & H2 & H3 & ->).
  exists x1, x2, y. repeat split; assumption.
Qed.

(** X10: every stroke of the job a click stores has exactly two points, on
    one row and the first not right of the second: the pixel coordinates
    [(x1, y)] and [(x2, y)] of a segment, each multiplied by the millimetres
    per pixel.  At a nonzero resolution, multiplying by the pixels per
    millimetre gives the pixel coordinates back. *)
Theorem job_strokes_are_row_segments
    (canvas : Canvas) (inp : Inputs) (g g' : Globals) :
  src (img g) <> ""%string ->
  processClick canvas inp g = Finished g' ->
  exists job,
    lastStrokes g' = Some job
    /\ forall st, In st job ->
         exists x1 x2 y p q,
           0 <= x1 /\ x1 <= x2 /\ 0 <= y
           /\ st = [p; q]
           /\ p = mkPointMM (inject_Z x1 * mmPerPx_of inp)
                            (inject_Z y * mmPerPx_of inp)
           /\ q = mkPointMM (inject_Z x2 * mmPerPx_of inp)
                            (inject_Z y * mmPerPx_of inp)
           /\ mm_y p = mm_y q
           /\ (~ (pxPerMM inp == 0) ->
               mm_x p * pxPerMM inp == inject_Z x1
               /\ mm_x q * pxPerMM inp == inject_Z x2
               /\ mm_y p * pxPerMM inp == inject_Z y)%Q.
Proof.
  intros Hsrc Hfin.
  destruct (job_shape canvas inp g g' Hsrc Hfin) as (job & Hjob & Hshape).
  exists job. split; [exact Hjob|].
  intros st Hin.
  destruct (Hshape st Hin) as (x1 & x2 & y & H1 & H2 & H3 & ->).
  exists x1, x2, y. do 2 eexists.
  split; [exact H1|]. split; [exact H2|]. split; [exact H3|].
  split; [reflexivity|]. split; [reflexivity|]. split; [reflexivity|].
  split; [reflexivity|].
  intros Hp. cbn [mm_x mm_y]. unfold mmPerPx_of.
  repeat split; field; exact Hp.
Qed.

(** The second stroke of the sample job. *)
Lemma job_strokes_are_row_segments_witness :
  src (img sampleGlobals) <> ""%string
  /\ exists x1 x2 y p q,
       [mkPointMM 0 (2 # 1); mkPointMM (9 # 1) (2 # 1)] = [p; q]
       /\ p = mkPointMM (inject_Z x1 * mmPerPx_of sampleInputs)
                        (inject_Z y * mmPerPx_of sampleInputs)
       /\ q = mkPointMM (inject_Z x2 * mmPerPx_of sampleInputs)
                        (inject_Z y * mmPerPx_of sampleInputs)
       /\ (mm_x q * pxPerMM sampleInputs == inject_Z x2)%Q.
Proof.
  split; [discriminate|].
  destruct (job_strokes_are_row_segments blackCanvas sampleInputs sampleGlobals
              _ ltac:(discriminate) sample_click) as (job & Hjob & Hall).
  injection Hjob as <-.
  destruct (Hall [mkPointMM 0 (2 # 1); mkPointMM (9 # 1) (2 # 1)])
    as (x1 & x2 & y & p & q & _ & _ & _ & E & Hp & Hq & _ & Hround);
    [simpl; auto|].
  exists x1, x2, y, p, q. split; [exact E|]. split; [exact Hp|].
  split; [exact Hq|]. apply Hround. discriminate.
Defined.

(** ** A click on a blank image *)

(** A pass over a canvas without a dark pixel returns no stroke. *)
Lemma extract_blank (canvas : Canvas) (image : Image) (targetW targetH : Z)
    (angleDeg : Q) (lineSpacingPx : Z) (threshold : Q) (data : list Z) :
  1 <= lineSpacingPx ->
  canvas image targetW targetH angleDeg
         (fst (rotatedSize targetW targetH angleDeg))
         (snd (rotatedSize targetW targetH angleDeg)) = Some data ->
  (forall x y,
     0 <= x < fst (rotatedSize targetW targetH angleDeg) ->
     0 <= y < snd (rotatedSize targetW targetH angleDeg) ->
     isDark data (fst (rotatedSize targetW targetH angleDeg))
            (snd (rotatedSize targetW targetH angleDeg)) threshold x y = false) ->
  extractStrokesFromImage canvas image targetW targetH angleDeg lineSpacingPx
                          threshold = Ret [].
Proof.
  intros Hs Hc Hblank. unfold extractStrokesFromImage.
  destruct (rotatedSize targetW targetH angleDeg) as [rotW rotH].
  cbn [fst snd] in *. rewrite Hc. cbn [orThrow bind].
  destruct (scanCanvas_spec data rotW rotH threshold lineSpacingPx Hs)
    as (segs & Hscan & _).
  rewrite Hscan. cbn [orDiverge bind].
  rewrite (no_dark_pixel_no_segment_aux data rotW rotH threshold lineSpacingPx
             segs Hs Hscan); [reflexivity|].
  intros x y Hrow Hx. apply Hblank; [exact Hx|].
  exact (scanned_row_on_canvas _ _ _ Hs Hrow).
Qed.

Lemma extractPasses_blank (canvas : Canvas) (image : Image)
    (targetW targetH lineSpacingPx : Z) (threshold : Q) (angles : list Q) :
  (forall ang, In ang angles ->
     extractStrokesFromImage canvas image targetW targetH ang lineSpacingPx
                             threshold = Ret []) ->
  forall acc,
    extractPasses canvas image targetW targetH lineSpacingPx threshold angles acc
    = Ret (acc ++ map (fun ang => mkPass ang []) angles).
Proof.
  induction angles as [|ang rest IH]; intros Hall acc; cbn [extractPasses map].
  - now rewrite app_nil_r.
  - rewrite (Hall ang (or_introl eq_refl)). cbn [bind].
    rewrite IH by (intros a Ha; apply Hall; right; exact Ha).
    now rewrite <- app_assoc.
Qed.

Lemma combineStrokes_blank (mmPerPx : Q) (angles : list Q) :
  combineStrokes mmPerPx (map (fun ang => mkPass ang []) angles) = [].
Proof.
  rewrite combineStrokes_concat.
  induction angles as [|ang rest IH]; cbn [map concat pass_strokes app];
    [reflexivity|exact IH].
Qed.

(** X11: a click on an image that comes out without a dark pixel in every
    pass is no error: it stores a job without strokes, and the file written
    from that job is the header, an empty line and the end mark. *)
Theorem blank_image_gives_empty_job
    (canvas : Canvas) (inp : Inputs) (g : Globals)
    (numberToString : Q -> string) (m : Motion) :
  src (img g) <> ""%string ->
  (forall ang, In ang (passAngles (angleDeg_of inp) (passes_of inp)) ->
     exists data,
       canvas (img g) (targetPxWidth inp) (targetPxHeight inp (img g)) ang
              (fst (rotatedSize (targetPxWidth inp)
                                (targetPxHeight inp (img g)) ang))
              (snd (rotatedSize (targetPxWidth inp)
                                (targetPxHeight inp (img g)) ang)) = Some data
       /\ forall x y,
            0 <= x < fst (rotatedSize (targetPxWidth inp)
                                      (targetPxHeight inp (img g)) ang) ->
            0 <= y < snd (rotatedSize (targetPxWidth inp)
                                      (targetPxHeight inp (img g)) ang) ->
            isDark data
                   (fst (rotatedSize (targetPxWidth inp)
                                     (targetPxHeight inp (img g)) ang))
                   (snd (rotatedSize (targetPxWidth inp)
                                     (targetPxHeight inp (img g)) ang))
                   (inject_Z (threshold_in inp)) x y = false) ->
  exists g',
    processClick canvas inp g = Finished g'
    /\ lastStrokes g' = Some []
    /\ gcodeLines numberToString m g'
       = Some (header numberToString m ++ [""%string; "; EOF"%string]).
Proof.
  intros Hsrc Hblank.
  rewrite (processClick_loaded canvas inp g Hsrc).
  rewrite extractPasses_blank.
  - cbn [app]. rewrite combineStrokes_blank. eexists. split; [reflexivity|].
    split; reflexivity.
  - intros ang Hang. destruct (Hblank ang Hang) as (data & Hc & Hd).
    eapply extract_blank; [apply lineSpacingPx_positive|exact Hc|exact Hd].
Qed.

(** Checking a canvas pixel by pixel. *)
Lemma no_dark_pixel_by_check (data : list Z) (rotW rotH : Z) (threshold : Q) :
  forallb (fun y => forallb (fun x => negb (isDark data rotW rotH threshold x y))
                            (JS.range rotW))
          (JS.range rotH) = true ->
  forall x y, 0 <= x < rotW -> 0 <= y < rotH ->
              isDark data rotW rotH threshold x y = false.
Proof.
  intros Hall x y Hx Hy. rewrite forallb_forall in Hall.
  specialize (Hall y (proj2 (in_range rotH y) Hy)).
  rewrite forallb_forall in Hall.
  specialize (Hall x (proj2 (in_range rotW x) Hx)).
  now apply negb_true_iff in Hall.
Qed.

(** The sample inputs on a white canvas. *)
Lemma blank_image_gives_empty_job_witness :
  src (img sampleGlobals) <> ""%string
  /\ exists g',
       processClick whiteCanvas sampleInputs sampleGlobals = Finished g'
       /\ lastStrokes g' = Some []
       /\ gcodeLines (fun _ => "?"%string) sampleMotion g'
          = Some (header (fun _ => "?"%string) sampleMotion
                  ++ [""%string; "; EOF"%string]).
Proof.
  split; [discriminate|].
  apply (blank_image_gives_empty_job whiteCanvas sampleInputs sampleGlobals
           (fun _ => "?"%string) sampleMotion); [discriminate|].
  intros ang [<-|[]].
  assert (Hsize : rotatedSize (targetPxWidth sampleInputs)
                    (targetPxHeight sampleInputs (img sampleGlobals))
                    (passAngle (angleDeg_of sampleInputs)
                               (passes_of sampleInputs) (Z.of_nat 0))
                  = (10, 10)) by (apply rotatedSize_zero; reflexivity).
  rewrite Hsize. cbn [fst snd]. eexists. split; [reflexivity|].
  apply no_dark_pixel_by_check. vm_compute. reflexivity.
Defined.

(** ** The size of the file *)

Section FileSize.

Variable numberToString : Q -> string.
Variable m : Motion.

Lemma strokeBlock_length (idx : Z) (stroke : Stroke) :
  Z.of_nat (length (strokeBlock numberToString m idx stroke))
  = strokeLineCount stroke.
Proof.
  destruct stroke as [|p0 rest]; cbn [strokeBlock strokeLineCount]; [reflexivity|].
  rewrite !length_app, length_map. cbn [length]. lia.
Qed.

Lemma strokeBlocks_length (sts : list Stroke) :
  forall idx,
    Z.of_nat (length (strokeBlocks numberToString m idx sts))
    = sumZ (map strokeLineCount sts).
Proof.
  induction sts as [|stroke rest IH]; intros idx;
    cbn [strokeBlocks map sumZ fold_right]; [reflexivity|].
  rewrite length_app, Nat2Z.inj_add, strokeBlock_length, IH. reflexivity.
Qed.

End FileSize.

(** X12: the file of a job has eight lines besides its strokes (six of
    header, the empty line and the end mark); a stroke without points adds
    none and a stroke of [k >= 1] points adds [5 + k]. *)
Theorem gcode_line_count
    (numberToString : Q -> string) (m : Motion) (g : Globals)
    (sts : list Stroke) :
  lastStrokes g = Some sts ->
  exists lines,
    gcodeLines numberToString m g = Some lines
    /\ Z.of_nat (length lines) = 8 + sumZ (map strokeLineCount sts).
Proof.
  intros Hjob. unfold gcodeLines. rewrite Hjob. eexists. split; [reflexivity|].
  rewrite emitStrokes_blocks. unfold push.
  rewrite !length_app, !Nat2Z.inj_add, strokeBlocks_length.
  cbn [length header]. lia.
Qed.

(** A job of a two-point stroke, a stroke without points and a one-point
    stroke: 8 + 7 + 0 + 6 lines. *)
Lemma gcode_line_count_witness :
  lastStrokes (mkGlobals sampleImage
                 (Some [ [mkPointMM 0 0; mkPointMM (9 # 1) 0]; [];
                         [mkPointMM 1 (2 # 1)] ])
                 (mkCanvasSize 0 0 0 []))
  = Some [ [mkPointMM 0 0; mkPointMM (9 # 1) 0]; []; [mkPointMM 1 (2 # 1)] ]
  /\ exists lines,
       gcodeLines (fun _ => "?"%string) sampleMotion
         (mkGlobals sampleImage
            (Some [ [mkPointMM 0 0; mkPointMM (9 # 1) 0]; [];
                    [mkPointMM 1 (2 # 1)] ])
            (mkCanvasSize 0 0 0 [])) = Some lines
       /\ Z.of_nat (length lines) = 21.
Proof.
  split; [reflexivity|].
  exact (gcode_line_count (fun _ => "?"%string) sampleMotion
           (mkGlobals sampleImage
              (Some [ [mkPointMM 0 0; mkPointMM (9 # 1) 0]; [];
                      [mkPointMM 1 (2 # 1)] ])
              (mkCanvasSize 0 0 0 []))
           [ [mkPointMM 0 0; mkPointMM (9 # 1) 0]; []; [mkPointMM 1 (2 # 1)] ]
           eq_refl).
Defined.

(** X13: the job a click stores never holds a stroke the emitter skips:
    its file has seven lines for each stroke of the job and eight
    besides. *)
Theorem click_file_line_count
    (canvas : Canvas) (inp : Inputs) (g g' : Globals)
    (numberToString : Q -> string) (m : Motion) :
  src (img g) <> ""%string ->
  processClick canvas inp g = Finished g' ->
  exists job lines,
    lastStrokes g' = Some job
    /\ gcodeLines numberToString m g' = Some lines
    /\ Z.of_nat (length lines) = 8 + 7 * Z.of_nat (length job).
Proof.
  intros Hsrc Hfin.
  destruct (job_shape canvas inp g g' Hsrc Hfin) as (job & Hjob & Hshape0).
  assert (Hshape : forall st, In st job -> exists p q, st = [p; q]).
  { intros st Hin.
    destruct (Hshape0 st Hin) as (x1 & x2 & y & _ & _ & _ & ->). eauto. }
  clear Hshape0.
  exists job. unfold gcodeLines. rewrite Hjob. eexists.
  split; [reflexivity|]. split; [reflexivity|].
  rewrite emitStrokes_blocks. unfold push.
  rewrite !length_app, !Nat2Z.inj_add, strokeBlocks_length.
  cbn [length header].
  enough (E : sumZ (map strokeLineCount job) = 7 * Z.of_nat (length job)) by lia.
  clear - Hshape. induction job as [|st rest IH]; cbn [map sumZ fold_right length].
  - reflexivity.
  - destruct (Hshape st (or_introl eq_refl)) as (p & q & ->).
    change (fold_right Z.add 0 (map strokeLineCount rest))
      with (sumZ (map strokeLineCount rest)).
    rewrite IH by (intros s Hs; apply Hshape; right; exact Hs).
    cbn [strokeLineCount length]. lia.
Qed.

(** The file of the sample job: five strokes, 43 lines. *)
Lemma click_file_line_count_witness :
  src (img sampleGlobals) <> ""%string
  /\ exists job lines,
       Some [ [mkPointMM 0 0; mkPointMM (9 # 1) 0];
              [mkPointMM 0 (2 # 1); mkPointMM (9 # 1) (2 # 1)];
              [mkPointMM 0 (4 # 1); mkPointMM (9 # 1) (4 # 1)];
              [mkPointMM 0 (6 # 1); mkPointMM (9 # 1) (6 # 1)];
              [mkPointMM 0 (8 # 1); mkPointMM (9 # 1) (8 # 1)] ] = Some job
       /\ gcodeLines (fun _ => "?"%string) sampleMotion
            (mkGlobals sampleImage
               (Some [ [mkPointMM 0 0; mkPointMM (9 # 1) 0];
                       [mkPointMM 0 (2 # 1); mkPointMM (9 # 1) (2 # 1)];
                       [mkPointMM 0 (4 # 1); mkPointMM (9 # 1) (4 # 1)];
                       [mkPointMM 0 (6 # 1); mkPointMM (9 # 1) (6 # 1)];
                       [mkPointMM 0 (8 # 1); mkPointMM (9 # 1) (8 # 1)] ])
               (mkCanvasSize 10 10 1 [0 # 1]%Q)) = Some lines
       /\ Z.of_nat (length lines) = 8 + 7 * Z.of_nat (length job).
Proof.
  split; [discriminate|].
  exact (click_file_line_count blackCanvas sampleInputs sampleGlobals _
           (fun _ => "?"%string) sampleMotion ltac:(discriminate) sample_click).
Defined.

(** ** The preview *)

Lemma round_le (x : Q) (n : Z) : (x <= inject_Z n)%Q -> JS.Math_round x <= n.
Proof.
  intros Hx. destruct (Math_round_spec x) as [Hlo _].
  assert (H : (inject_Z (JS.Math_round x) < inject_Z (n + 1))%Q).
  { rewrite inject_Z_plus. change (inject_Z 1) with 1%Q. lra. }
  rewrite <- Zlt_Qlt in H. lia.
Qed.

Lemma round_ge (x : Q) (n : Z) : (inject_Z n <= x)%Q -> n <= JS.Math_round x.
Proof.
  intros Hx. destruct (Math_round_spec x) as [_ Hhi].
  assert (H : (inject_Z n < inject_Z (JS.Math_round x + 1))%Q).
  { rewrite inject_Z_plus. change (inject_Z 1) with 1%Q. lra. }
  rewrite <- Zlt_Qlt in H. lia.
Qed.

(** The scale of the preview of a canvas at least one pixel wide: positive,
    at most 1, and small enough for 1200 by 800 pixels. *)
Lemma previewScale_spec (pixelWidth pixelHeight : Z) :
  1 <= pixelWidth -> 0 <= pixelHeight ->
  (0 < previewScale pixelWidth pixelHeight <= 1)%Q
  /\ (inject_Z pixelWidth * previewScale pixelWidth pixelHeight <= 1200)%Q
  /\ (inject_Z pixelHeight * previewScale pixelWidth pixelHeight <= 800)%Q
  /\ (pixelWidth <= 1200 -> pixelHeight <= 800 ->
      (previewScale pixelWidth pixelHeight == 1)%Q).
Proof.
  intros Hw Hh.
  assert (HW : (1 <= inject_Z pixelWidth)%Q).
  { change 1%Q with (inject_Z 1). rewrite <- Zle_Qle. assumption. }
  assert (HH : (0 <= inject_Z pixelHeight)%Q).
  { change 0%Q with (inject_Z 0). rewrite <- Zle_Qle. assumption. }
  assert (HWs : pixelWidth <= 1200 -> (inject_Z pixelWidth <= 1200)%Q).
  { intros H. change 1200%Q with (inject_Z 1200). rewrite <- Zle_Qle. assumption. }
  assert (HHs : pixelHeight <= 800 -> (inject_Z pixelHeight <= 800)%Q).
  { intros H. change 800%Q with (inject_Z 800). rewrite <- Zle_Qle. assumption. }
  assert (Ea : (1200 / inject_Z pixelWidth * inject_Z pixelWidth == 1200)%Q)
    by (field; lra).
  assert (Ha : (0 < 1200 / inject_Z pixelWidth)%Q).
  { apply Qlt_shift_div_l; lra. }
  unfold previewScale, Math_min3, divPositive.
  destruct (Z.eqb_spec pixelWidth 0) as [|_]; [lia|].
  set (a := (1200 / inject_Z pixelWidth)%Q) in *.
  destruct (Q.min_spec a 1) as [[Hlt Hm1]|[Hge Hm1]];
    set (m1 := Qmin a 1) in *.
  all: destruct (Z.eqb_spec pixelHeight 0) as [Hz|Hnz].
  all: try (assert (HHp : (1 <= inject_Z pixelHeight)%Q)
              by (change 1%Q with (inject_Z 1); rewrite <- Zle_Qle; lia);
            assert (Eb : (800 / inject_Z pixelHeight * inject_Z pixelHeight
                          == 800)%Q) by (field; lra);
            assert (Hb : (0 < 800 / inject_Z pixelHeight)%Q)
              by (apply Qlt_shift_div_l; lra);
            set (b := (800 / inject_Z pixelHeight)%Q) in *;
            destruct (Q.min_spec b m1) as [[Hlt2 Hm]|[Hge2 Hm]];
            set (mm := Qmin b m1) in * ).
  all: match goal with
       | |- context [Qeq_bool ?v 0] =>
           assert (Hpos : (0 < v)%Q) by lra;
           destruct (Qeq_bool v 0) eqn:E;
           [apply Qeq_bool_iff in E; lra|]
       end.
  all: try (subst pixelHeight; change (inject_Z 0) with 0%Q in * ).
  all: repeat split; try lra; try nra.
  all: intros H1 H2; specialize (HWs H1); try specialize (HHs H2); nra.
Qed.

(** X14: the preview of a canvas at least one pixel wide is never larger
    than 1200 by 800 pixels and never larger than the canvas; a canvas that
    fits into 1200 by 800 pixels is shown at its own size; the line is
    between half a pixel and one pixel wide. *)
Theorem preview_fits
    (sts : list Stroke) (pixelWidth pixelHeight : Z) (mmPerPx : Q) :
  1 <= pixelWidth -> 0 <= pixelHeight ->
  let pv := renderPreview sts pixelWidth pixelHeight mmPerPx in
  0 <= pv_width pv <= 1200 /\ 0 <= pv_height pv <= 800
  /\ pv_width pv <= pixelWidth /\ pv_height pv <= pixelHeight
  /\ (pixelWidth <= 1200 -> pixelHeight <= 800 ->
      pv_width pv = pixelWidth /\ pv_height pv = pixelHeight)
  /\ ((1 # 2) <= pv_lineWidth pv <= 1)%Q.
Proof.
  intros Hw Hh pv. subst pv. unfold renderPreview. cbn [pv_width pv_height pv_lineWidth].
  destruct (previewScale_spec pixelWidth pixelHeight Hw Hh)
    as ((Hs0 & Hs1) & HsW & HsH & Hone).
  set (s := previewScale pixelWidth pixelHeight) in *.
  assert (HW : (1 <= inject_Z pixelWidth)%Q).
  { change 1%Q with (inject_Z 1). rewrite <- Zle_Qle. assumption. }
  assert (HH : (0 <= inject_Z pixelHeight)%Q).
  { change 0%Q with (inject_Z 0). rewrite <- Zle_Qle. assumption. }
  split; [split|]; [apply round_ge; change (inject_Z 0) with 0%Q; nra
                   |apply round_le; change (inject_Z 1200) with 1200%Q; exact HsW|].
  split; [split|]; [apply round_ge; change (inject_Z 0) with 0%Q; nra
                   |apply round_le; change (inject_Z 800) with 800%Q; exact HsH|].
  split; [apply round_le; nra|]. split; [apply round_le; nra|].
  split.
  - intros Hfw Hfh. specialize (Hone Hfw Hfh).
    split; apply Math_round_unique; split; nra.
  - split; [apply Q.le_max_l|apply Q.max_lub; lra].
Qed.

(** A canvas of 2400 by 800 pixels is shown at half its size. *)
Lemma preview_fits_witness :
  1 <= 2400 /\ 0 <= 800
  /\ pv_width (renderPreview [] 2400 800 1) = 1200
  /\ pv_height (renderPreview [] 2400 800 1) = 400
  /\ 0 <= pv_width (renderPreview [] 2400 800 1) <= 1200.
Proof.
  split; [lia|]. split; [lia|]. split; [reflexivity|]. split; [reflexivity|].
  exact (proj1 (preview_fits [] 2400 800 1 ltac:(lia) ltac:(lia))).
Defined.

(** ** What the preview draws *)

Lemma previewStroke_frame (mmPerPx scale : Q) (cmds : list DrawCmd)
    (stroke : Stroke) :
  previewStroke mmPerPx scale cmds stroke
  = cmds ++ previewStroke mmPerPx scale [] stroke.
Proof.
  destruct stroke as [|p0 [|p1 rest]]; cbn [previewStroke];
    [now rewrite app_nil_r|now rewrite app_nil_r|].
  rewrite (fold_push_map (fun p => LineTo (mm_x p / mmPerPx * scale)
                                          (mm_y p / mmPerPx * scale))).
  rewrite (fold_push_map (fun p => LineTo (mm_x p / mmPerPx * scale)
                                          (mm_y p / mmPerPx * scale))).
  cbn [app]. repeat rewrite <- app_assoc. reflexivity.
Qed.

Lemma previewStrokes_concat (mmPerPx scale : Q) (sts : list Stroke) :
  forall cmds,
    fold_left (previewStroke mmPerPx scale) sts cmds
    = cmds ++ concat (map (previewStroke mmPerPx scale []) sts).
Proof.
  induction sts as [|st rest IH]; intros cmds; cbn [fold_left map concat].
  - now rewrite app_nil_r.
  - rewrite IH, previewStroke_frame, <- app_assoc. reflexivity.
Qed.

Lemma mmPerPx_nonzero (inp : Inputs) :
  ~ (pxPerMM inp == 0)%Q -> ~ (mmPerPx_of inp == 0)%Q.
Proof.
  intros Hp Hm. unfold mmPerPx_of in Hm.
  assert (E : (1 == 1 / pxPerMM inp * pxPerMM inp)%Q) by (field; exact Hp).
  rewrite Hm in E. lra.
Qed.

(** X15: the preview of a finished click traces every stroke of the job,
    in the order of the job, as one line between the two pixels the stroke
    came from, scaled by the scale of the preview: dividing by the
    millimetres per pixel undoes the conversion of the click. *)
Theorem preview_traces_job
    (canvas : Canvas) (inp : Inputs) (g g' : Globals) :
  src (img g) <> ""%string ->
  ~ (pxPerMM inp == 0)%Q ->
  processClick canvas inp g = Finished g' ->
  exists job groups,
    lastStrokes g' = Some job
    /\ pv_path (previewOfClick inp g') = concat groups
    /\ Forall2
         (fun st grp =>
            exists x1 x2 y,
              st = [ mkPointMM (inject_Z x1 * mmPerPx_of inp)
                               (inject_Z y * mmPerPx_of inp);
                     mkPointMM (inject_Z x2 * mmPerPx_of inp)
                               (inject_Z y * mmPerPx_of inp) ]
              /\ tracesSegment
                   (previewScale (targetPxWidth inp)
                                 (targetPxHeight inp (img g)))
                   x1 x2 y grp)
         job groups.
Proof.
  intros Hsrc Hpx Hfin.
  pose proof (mmPerPx_nonzero inp Hpx) as Hmm.
  destruct (job_shape canvas inp g g' Hsrc Hfin) as (job & Hjob & Hshape).
  destruct (finished_click canvas inp g g' Hsrc Hfin) as (passes & _ & Hg').
  set (sc := previewScale (targetPxWidth inp) (targetPxHeight inp (img g))).
  exists job, (map (previewStroke (mmPerPx_of inp) sc []) job).
  split; [exact Hjob|]. split.
  - unfold previewOfClick, renderPreview. rewrite Hjob. cbn [pv_path].
    rewrite previewStrokes_concat. rewrite Hg'. reflexivity.
  - clear - Hshape Hmm. induction job as [|st rest IH]; cbn [map]; constructor.
    + destruct (Hshape st (or_introl eq_refl)) as (x1 & x2 & y & _ & _ & _ & ->).
      exists x1, x2, y. split; [reflexivity|].
      unfold tracesSegment. cbn [previewStroke fold_left app mm_x mm_y].
      do 4 eexists. split; [reflexivity|].
      repeat split; field; exact Hmm.
    + apply IH. intros s Hs. apply Hshape. right. exact Hs.
Qed.

(** The preview of the sample job. *)
Lemma preview_traces_job_witness :
  src (img sampleGlobals) <> ""%string
  /\ ~ (pxPerMM sampleInputs == 0)%Q
  /\ exists groups,
       pv_path (previewOfClick sampleInputs
                  (mkGlobals sampleImage
                     (Some [ [mkPointMM 0 0; mkPointMM (9 # 1) 0];
                             [mkPointMM 0 (2 # 1); mkPointMM (9 # 1) (2 # 1)];
                             [mkPointMM 0 (4 # 1); mkPointMM (9 # 1) (4 # 1)];
                             [mkPointMM 0 (6 # 1); mkPointMM (9 # 1) (6 # 1)];
                             [mkPointMM 0 (8 # 1); mkPointMM (9 # 1) (8 # 1)] ])
                     (mkCanvasSize 10 10 1 [0 # 1]%Q)))
       = concat groups
       /\ length groups = 5%nat.
Proof.
  split; [discriminate|]. split; [discriminate|].
  destruct (preview_traces_job blackCanvas sampleInputs sampleGlobals _
              ltac:(discriminate) ltac:(discriminate) sample_click)
    as (job & groups & Hjob & Hpath & Hall).
  exists groups. split; [exact Hpath|].
  injection Hjob as <-. rewrite <- (Forall2_length Hall). reflexivity.
Defined.


(** ** The scan, row by row *)

Section RowByRow.

Variable data : list Z.
Variables rotW rotH : Z.
Variable threshold : Q.
Variable s : Z.

Hypothesis spacing_positive : 1 <= s.

Lemma row_count_spec (k : Z) :
  0 <= k -> (k * s < rotH <-> k < (rotH + s - 1) / s).
Proof.
  intros Hk. split; intros H.
  - assert (k + 1 <= (rotH + s - 1) / s)
      by (apply Z.div_le_lower_bound; lia).
    lia.
  - destruct (Z_lt_ge_dec (k * s) rotH) as [|Hge]; [assumption|exfalso].
    assert ((rotH + s - 1) / s < k + 1)
      by (apply Z.div_lt_upper_bound; lia).
    lia.
Qed.

(** From row [k * s] on the raster loop gives the rows [k * s],
    [(k + 1) * s], ... each scanned by itself, one after the other. *)
Lemma scanRows_by_row (fuel : nat) :
  forall (k : nat) (res : list Segment),
    scanRows data rotW rotH threshold s fuel (Z.of_nat k * s) [] = Some res ->
    res = concat (map (fun y => scanRow data rotW rotH threshold y [])
                      (map (fun i => Z.of_nat i * s)
                           (seq k (Z.to_nat ((rotH + s - 1) / s) - k)))).
Proof.
  induction fuel as [|fuel IH]; intros k res; cbn [scanRows];
    destruct (Z.ltb_spec (Z.of_nat k * s) rotH) as [Hlt|Hge]; intros Hres;
    try discriminate.
  - injection Hres as <-.
    assert (Hn : ~ Z.of_nat k < (rotH + s - 1) / s)
      by (rewrite <- row_count_spec by lia; lia).
    replace (Z.to_nat ((rotH + s - 1) / s) - k)%nat with O by lia. reflexivity.
  - rewrite <- (app_nil_r (scanRow _ _ _ _ _ [])), scanRows_app in Hres.
    replace (Z.of_nat k * s + s) with (Z.of_nat (S k) * s) in Hres by lia.
    destruct (scanRows data rotW rotH threshold s fuel (Z.of_nat (S k) * s) [])
      as [rest|] eqn:Hrest; [|discriminate].
    injection Hres as <-. rewrite (IH _ _ Hrest).
    apply row_count_spec in Hlt; [|lia].
    replace (Z.to_nat ((rotH + s - 1) / s) - k)%nat
      with (S (Z.to_nat ((rotH + s - 1) / s) - S k)) by lia.
    cbn [seq map concat]. reflexivity.
  - injection Hres as <-.
    assert (Hn : ~ Z.of_nat k < (rotH + s - 1) / s)
      by (rewrite <- row_count_spec by lia; lia).
    replace (Z.to_nat ((rotH + s - 1) / s) - k)%nat with O by lia. reflexivity.
Qed.

End RowByRow.

(** X17: the scan keeps nothing from one row to the next: its result is
    the rows [0], [spacing], [2 * spacing], ... below [rotH], each scanned
    by itself on an empty list, one after the other; there are
    [ceil(rotH / spacing)] of them. *)
Theorem scan_is_row_by_row
    (data : list Z) (rotW rotH : Z) (threshold : Q) (lineSpacingPx : Z) :
  1 <= lineSpacingPx ->
  scanCanvas data rotW rotH threshold lineSpacingPx
  = Some (concat (map (fun y => scanRow data rotW rotH threshold y [])
                      (scannedRows lineSpacingPx rotH)))
  /\ (forall y sk,
        scanRow data rotW rotH threshold y sk
        = sk ++ scanRow data rotW rotH threshold y [])
  /\ (forall y, In y (scannedRows lineSpacingPx rotH)
                <-> ScannedRow lineSpacingPx rotH y)
  /\ length (scannedRows lineSpacingPx rotH)
     = Z.to_nat ((rotH + lineSpacingPx - 1) / lineSpacingPx).
Proof.
  intros Hs. split; [|split; [|split]].
  - destruct (scanCanvas_spec data rotW rotH threshold lineSpacingPx Hs)
      as (segs & Hscan & _).
    rewrite Hscan. f_equal. unfold scanCanvas in Hscan.
    rewrite (scanRows_by_row data rotW rotH threshold lineSpacingPx Hs _ O segs
               Hscan).
    unfold scannedRows, JS.range. rewrite Nat.sub_0_r, !map_map. reflexivity.
  - intros y sk. apply scanRow_app.
  - intros y. unfold scannedRows, ScannedRow. rewrite in_map_iff. split.
    + intros (i & <- & Hi). apply in_range in Hi. exists i.
      split; [lia|]. split; [reflexivity|].
      apply (row_count_spec rotH lineSpacingPx Hs); lia.
    + intros (i & Hi & -> & Hlt). exists i. split; [reflexivity|].
      apply in_range. split; [assumption|].
      apply (row_count_spec rotH lineSpacingPx Hs); assumption.
  - unfold scannedRows. now rewrite length_map, length_range.
Qed.

(** Three rows of the sample row, every second one scanned. *)
Lemma scan_is_row_by_row_witness :
  1 <= 2
  /\ scannedRows 2 3 = [0; 2]
  /\ scanCanvas (sampleRow ++ sampleRow ++ sampleRow) 12 3 (128 # 1) 2
     = Some (concat (map (fun y => scanRow (sampleRow ++ sampleRow ++ sampleRow)
                                            12 3 (128 # 1) y [])
                         (scannedRows 2 3))).
Proof.
  split; [lia|]. split; [reflexivity|].
  exact (proj1 (scan_is_row_by_row (sampleRow ++ sampleRow ++ sampleRow) 12 3
                  (128 # 1) 2 ltac:(lia))).
Defined.

(** ** The size of a job *)

Lemma rotatedSize_at_most (W H : Z) (angleDeg : Q) :
  0 <= W -> 0 <= H ->
  fst (rotatedSize W H angleDeg) <= W + H
  /\ snd (rotatedSize W H angleDeg) <= W + H.
Proof.
  intros HW HH. unfold rotatedSize. cbn [fst snd].
  set (t := (Q2R angleDeg * PI / 180)%R).
  destruct (abs_cos_sin t) as ((Hc0 & Hc1) & (Hs0 & Hs1) & _).
  set (c := Rabs (cos t)) in *. set (s := Rabs (sin t)) in *.
  pose proof (IZR_le _ _ HW) as HWr. pose proof (IZR_le _ _ HH) as HHr.
  destruct (Math_ceil_spec (IZR W * c + IZR H * s)) as [Hlo1 _].
  destruct (Math_ceil_spec (IZR W * s + IZR H * c)) as [Hlo2 _].
  split; apply Z.lt_succ_r, lt_IZR; rewrite succ_IZR, plus_IZR; nra.
Qed.

Lemma targetPxHeight_nonneg (inp : Inputs) (image : Image) :
  0 < naturalWidth image -> 0 <= naturalHeight image ->
  0 <= targetPxHeight inp image.
Proof.
  intros Hw Hh. unfold targetPxHeight, scale. apply round_ge.
  change (inject_Z 0) with 0%Q.
  assert (HW : (0 < inject_Z (naturalWidth image))%Q)
    by (change 0%Q with (inject_Z 0); rewrite <- Zlt_Qlt; assumption).
  assert (HH : (0 <= inject_Z (naturalHeight image))%Q)
    by (change 0%Q with (inject_Z 0); rewrite <- Zle_Qle; assumption).
  assert (HT : (0 < inject_Z (targetPxWidth inp))%Q).
  { change 0%Q with (inject_Z 0). rewrite <- Zlt_Qlt.
    pose proof (targetPxWidth_positive inp). lia. }
  apply fl_nonneg, Qmult_le_0_compat; [assumption|].
  apply fl_nonneg, Qle_shift_div_l; [assumption|]. lra.
Qed.

(** A pass gives no more strokes than its canvas allows. *)
Lemma pass_length_bound (canvas : Canvas) (image : Image) (targetW targetH : Z)
    (angleDeg : Q) (s : Z) (threshold : Q) (sts : list PixelStroke) :
  1 <= s -> 0 <= targetW -> 0 <= targetH ->
  extractStrokesFromImage canvas image targetW targetH angleDeg s threshold
  = Ret sts ->
  Z.of_nat (length sts)
  <= ((targetW + targetH + s - 1) / s) * ((targetW + targetH + 1) / 2).
Proof.
  intros Hs HW HH Hret.
  destruct (extract_ret _ _ _ _ _ _ _ _ Hret) as (data & segs & _ & Hscan & ->).
  destruct (rotatedSize_nonneg targetW targetH angleDeg HW HH) as [Hw0 Hh0].
  destruct (rotatedSize_at_most targetW targetH angleDeg HW HH) as [Hw1 Hh1].
  set (rotW := fst (rotatedSize targetW targetH angleDeg)) in *.
  set (rotH := snd (rotatedSize targetW targetH angleDeg)) in *.
  unfold simpleStrokes. rewrite length_map. unfold scanCanvas in Hscan.
  pose proof (scanRows_length data rotW rotH threshold s _ 0 segs Hs Hw0 Hscan)
    as Hlen.
  assert (Hrows : (if 0 <? rotH then (rotH - 0 + s - 1) / s else 0)
                  <= (targetW + targetH + s - 1) / s).
  { destruct (Z.ltb_spec 0 rotH).
    - apply Z.div_le_mono; lia.
    - apply Z.div_pos; lia. }
  assert (Hcols : (rotW + 1) / 2 <= (targetW + targetH + 1) / 2)
    by (apply Z.div_le_mono; lia).
  assert (0 <= (rotW + 1) / 2) by (apply Z.div_pos; lia).
  assert (0 <= (if 0 <? rotH then (rotH - 0 + s - 1) / s else 0)).
  { destruct (Z.ltb_spec 0 rotH); [apply Z.div_pos|]; lia. }
  etransitivity; [exact Hlen|]. apply Z.mul_le_mono_nonneg; lia.
Qed.

Lemma concat_length_bound {A B : Type} (P : A -> list B -> Prop) (bound : Z)
    (la : list A) (ll : list (list B)) :
  (forall a l, P a l -> Z.of_nat (length l) <= bound) ->
  Forall2 P la ll ->
  Z.of_nat (length (concat ll)) <= Z.of_nat (length la) * bound.
Proof.
  intros Hb Hall. induction Hall as [|a l la' ll' Hal _ IH];
    cbn [concat length]; [lia|].
  rewrite length_app. specialize (Hb a l Hal). lia.
Qed.

(** X18: the job of a click is bounded by its inputs: with a target of
    [w] by [h] pixels, a row spacing of [s] pixels and [N] passes it holds
    at most [N * ceil((w + h) / s) * ceil((w + h) / 2)] strokes. *)
Theorem job_size_bound
    (canvas : Canvas) (inp : Inputs) (g g' : Globals) :
  src (img g) <> ""%string ->
  0 < naturalWidth (img g) -> 0 <= naturalHeight (img g) ->
  processClick canvas inp g = Finished g' ->
  exists job,
    lastStrokes g' = Some job
    /\ Z.of_nat (length job)
       <= passes_of inp
          * (((targetPxWidth inp + targetPxHeight inp (img g)
               + lineSpacingPx_of inp - 1) / lineSpacingPx_of inp)
             * ((targetPxWidth inp + targetPxHeight inp (img g) + 1) / 2)).
Proof.
  intros Hsrc Hnw Hnh Hfin.
  destruct (finished_click canvas inp g g' Hsrc Hfin) as (passes & Hall & ->).
  eexists. split; [reflexivity|].
  pose proof (targetPxWidth_positive inp) as Htw.
  pose proof (targetPxHeight_nonneg inp (img g) Hnw Hnh) as Hth.
  pose proof (lineSpacingPx_positive inp) as Hs.
  pose proof (passes_of_positive inp) as HN.
  set (bound := ((targetPxWidth inp + targetPxHeight inp (img g)
                  + lineSpacingPx_of inp - 1) / lineSpacingPx_of inp)
                * ((targetPxWidth inp + targetPxHeight inp (img g) + 1) / 2)).
  assert (Hlen : Z.of_nat (length (passAngles (angleDeg_of inp) (passes_of inp)))
                 = passes_of inp).
  { rewrite passAngles_length. lia. }
  rewrite <- Hlen.
  apply (concat_length_bound
           (fun ang sts => exists psts,
              extractStrokesFromImage canvas (img g) (targetPxWidth inp)
                (targetPxHeight inp (img g)) ang (lineSpacingPx_of inp)
                (inject_Z (threshold_in inp)) = Ret psts
              /\ sts = map (toMM (mmPerPx_of inp)) psts)).
  - intros ang sts (psts & Hx & ->). rewrite length_map.
    apply (pass_length_bound canvas (img g) (targetPxWidth inp)
             (targetPxHeight inp (img g)) ang (lineSpacingPx_of inp)
             (inject_Z (threshold_in inp)) psts Hs); [lia|lia|exact Hx].
  - clear - Hall. induction Hall as [|ang psts angs rest Hx _ IH];
      cbn [map]; constructor; [eauto|exact IH].
Qed.

(** The sample job: five strokes, at most a hundred. *)
Lemma job_size_bound_witness :
  src (img sampleGlobals) <> ""%string
  /\ 0 < naturalWidth (img sampleGlobals)
  /\ 0 <= naturalHeight (img sampleGlobals)
  /\ exists job,
       Some [ [mkPointMM 0 0; mkPointMM (9 # 1) 0];
              [mkPointMM 0 (2 # 1); mkPointMM (9 # 1) (2 # 1)];
              [mkPointMM 0 (4 # 1); mkPointMM (9 # 1) (4 # 1)];
              [mkPointMM 0 (6 # 1); mkPointMM (9 # 1) (6 # 1)];
              [mkPointMM 0 (8 # 1); mkPointMM (9 # 1) (8 # 1)] ] = Some job
       /\ Z.of_nat (length job)
          <= passes_of sampleInputs
             * (((targetPxWidth sampleInputs
                  + targetPxHeight sampleInputs (img sampleGlobals)
                  + lineSpacingPx_of sampleInputs - 1)
                 / lineSpacingPx_of sampleInputs)
                * ((targetPxWidth sampleInputs
                    + targetPxHeight sampleInputs (img sampleGlobals) + 1) / 2)).
Proof.
  split; [discriminate|]. split; [reflexivity|]. split; [discriminate|].
  exact (job_size_bound blackCanvas sampleInputs sampleGlobals _
           ltac:(discriminate) eq_refl ltac:(discriminate) sample_click).
Defined.
